(** * T-Conf: transfinite disk decomposition and sweep helpers

    A shallow embedding of [T-Conf/core_disk.py] and [T_Conf/mesh.py].

    The Python code is a sequence of calls into the Gmsh kernel whose
    control flow depends on a handful of float comparisons.  The embedding
    keeps three things apart:

    - the arithmetic of Python's [float], behind the interface [PyFloat]
      (instance: IEEE binary64 through Rocq's primitive floats);
    - the kernel, as a record of tag counters, lifecycle flags and the
      chronological list of calls received;
    - the Python functions themselves, written in a state-and-exception
      monad over the kernel, statement by statement. *)

From Stdlib Require Import ZArith List String Bool Lia.
From Stdlib Require Import Floats.
Import ListNotations.

Local Open Scope string_scope.
Local Open Scope list_scope.
Local Open Scope Z_scope.

Set Implicit Arguments.

(* ================================================================== *)
(** * Python floats *)
(* ================================================================== *)

(** The operations on [float] that the two modules use.  Comparisons are
    boolean, as in Python; [ceil_int x] is [int(ceil(x))], which has no
    value when [x] is a NaN or an infinity. *)
Class PyFloat (F : Type) : Type := {
  of_int    : Z -> F;              (* int -> float conversion          *)
  lit_half  : F;                   (* the literal 0.5                  *)
  lit_1em6  : F;                   (* the literal 1e-6                 *)
  math_pi   : F;                   (* math.pi                          *)
  fadd      : F -> F -> F;
  fsub      : F -> F -> F;
  fmul      : F -> F -> F;
  fdiv      : F -> F -> F;         (* quotient, divisor known non-zero *)
  fneg      : F -> F;
  fabs      : F -> F;
  flt       : F -> F -> bool;      (* x < y   *)
  fle       : F -> F -> bool;      (* x <= y  *)
  feq       : F -> F -> bool;      (* x == y  *)
  is_nan    : F -> bool;
  math_sqrt : F -> F;
  math_cos  : F -> F;
  math_sin  : F -> F;
  ceil_int  : F -> option Z
}.

(** [x > y] and [x >= y] are the mirrored comparisons. *)
Definition fgt {F} `{PyFloat F} (x y : F) : bool := flt y x.
Definition fge {F} `{PyFloat F} (x y : F) : bool := fle y x.

(* ------------------------------------------------------------------ *)
(** ** IEEE binary64 *)
(* ------------------------------------------------------------------ *)

Module Binary64.

(** [float(z)]: the integer rounded to the nearest double. *)
Definition of_Z (z : Z) : float :=
  SF2Prim (binary_normalize prec emax z 0 false).

(** [int(ceil(x))] read off the sign, mantissa and exponent. *)
Definition ceil (x : float) : option Z :=
  match Prim2SF x with
  | S754_zero _ => Some 0
  | S754_infinity _ => None
  | S754_nan => None
  | S754_finite s m e =>
      let v := if 0 <=? e then Z.pos m * 2 ^ e
               else if s then Z.pos m / 2 ^ (- e)
               else - ((- Z.pos m) / 2 ^ (- e)) in
      Some (if s then - v else v)
  end.

(** The even and odd Taylor polynomials, by Horner's rule on [x * x].
    They stand for libm's [cos] and [sin], which the kernel sees only
    through point coordinates. *)
Fixpoint horner (k : nat) (n : Z) (x2 acc : float) : float :=
  match k with
  | O => acc
  | S k' =>
      let d := of_Z (n * (n - 1)) in
      horner k' (n - 2) x2
        (PrimFloat.sub 1%float (PrimFloat.div (PrimFloat.mul x2 acc) d))
  end.

Definition cos (x : float) : float :=
  horner 20 40 (PrimFloat.mul x x) 1%float.

Definition sin (x : float) : float :=
  PrimFloat.mul x (horner 20 41 (PrimFloat.mul x x) 1%float).

#[global] Instance ops : PyFloat float := {
  of_int := of_Z;
  lit_half := 0.5%float;
  lit_1em6 := 0x1.0c6f7a0b5ed8dp-20%float;   (* 1e-6 *)
  math_pi := 0x1.921fb54442d18p+1%float;
  fadd := PrimFloat.add;
  fsub := PrimFloat.sub;
  fmul := PrimFloat.mul;
  fdiv := PrimFloat.div;
  fneg := PrimFloat.opp;
  fabs := PrimFloat.abs;
  flt := PrimFloat.ltb;
  fle := PrimFloat.leb;
  feq := PrimFloat.eqb;
  is_nan := PrimFloat.is_nan;
  math_sqrt := PrimFloat.sqrt;
  math_cos := cos;
  math_sin := sin;
  ceil_int := ceil
}.

End Binary64.

(* ------------------------------------------------------------------ *)
(** ** Reading the rounding of [SpecFloat] *)
(* ------------------------------------------------------------------ *)

(** The number [A / B] lies in [[m, m + 1)], at the place that the
    location [l] names: on [m], below, at or above the middle. *)
Definition inbetween (A B m : Z) (l : location) : Prop :=
  match l with
  | loc_Exact => A = m * B
  | loc_Inexact Lt => m * B < A /\ 2 * A < (2 * m + 1) * B
  | loc_Inexact Eq => 2 * A = (2 * m + 1) * B
  | loc_Inexact Gt => (2 * m + 1) * B < 2 * A /\ A < (m + 1) * B
  end.

(** [n] is [A / B] rounded to the nearest integer, ties to even. *)
Definition rne (A B n : Z) : Prop :=
  2 * A - B <= 2 * n * B <= 2 * A + B
  /\ (2 * n * B = 2 * A + B \/ 2 * n * B = 2 * A - B -> Z.even n = true).

(** The value of a double in units of [2 ^ -1074], the spacing of the
    smallest doubles: an integer. *)
Definition scaled (s : spec_float) : Z :=
  match s with
  | S754_finite false m e => Z.pos m * 2 ^ (e + 1074)
  | S754_finite true m e => - (Z.pos m * 2 ^ (e + 1074))
  | _ => 0
  end.

(* ================================================================== *)
(** * Exceptions, the kernel and the monad *)
(* ================================================================== *)

Inductive exn : Type :=
| ValueError (msg : string)
| IndexError
| UnboundLocalError (name : string)
| ZeroDivisionError
| OverflowError
| StopIteration
| GmshError (msg : string).

Inductive result (A : Type) : Type :=
| Ok (a : A)
| Raise (e : exn).

Arguments Ok {A} a.
Arguments Raise {A} e.

(** One entry per call that leaves the two modules: the Gmsh API
    functions, with the handle or list the kernel answered, and the
    requests handed to [T_Conf.transfinite.set_transfinite]. *)
Inductive call (F : Type) : Type :=
| IsInitialized (answer : bool)
| Initialize
| ModelGetCurrent
| ModelAdd (name : string)
| AddPoint (x y z size : F) (tag : Z)
| AddLine (p0 p1 : Z) (tag : Z)
| AddCircleArc (pstart pcenter pend : Z) (tag : Z)
| AddCurveLoop (curves : list Z) (tag : Z)
| AddPlaneSurface (wires : list Z) (tag : Z)
| SetTransfinite (radial circular : list Z) (surfaces : list (Z * string))
    (n_rad n_circ : Z) (bump : option F)
| AddPhysicalGroup (dim : Z) (tags : list Z) (tag : Z)
| SetPhysicalName (dim tag : Z) (name : string)
| GeoSynchronize
| Revolve (dimtags : list (Z * Z)) (ax ay az cx cy cz angle : F)
    (out : list (Z * Z))
| GetBoundingBox (dim tag : Z)
| GetBoundary (dimtags : list (Z * Z))
| GetType (dim tag : Z)
| SetTransfiniteSurface (tag : Z) (arrangement : option string)
    (cornerTags : option (list Z)).

Arguments IsInitialized {F}.
Arguments Initialize {F}.
Arguments ModelGetCurrent {F}.
Arguments ModelAdd {F}.
Arguments AddPoint {F}.
Arguments AddLine {F}.
Arguments AddCircleArc {F}.
Arguments AddCurveLoop {F}.
Arguments AddPlaneSurface {F}.
Arguments SetTransfinite {F}.
Arguments AddPhysicalGroup {F}.
Arguments SetPhysicalName {F}.
Arguments GeoSynchronize {F}.
Arguments Revolve {F}.
Arguments GetBoundingBox {F}.
Arguments GetBoundary {F}.
Arguments GetType {F}.
Arguments SetTransfiniteSurface {F}.

(** The process-wide kernel.  Entities of one kind are numbered by the
    kernel itself: a creation call answers the highest tag of that kind
    plus one.  Lines and arcs share the curve numbering. *)
Record gmsh (F : Type) : Type := mkGmsh {
  initialized : bool;
  has_model   : bool;
  max_point   : Z;
  max_curve   : Z;
  max_loop    : Z;
  max_surface : Z;
  max_group   : Z;
  calls       : list (call F)
}.

Arguments mkGmsh {F}.

(** A computation on the kernel that answers a value or raises; the
    kernel keeps whatever was done before the exception. *)
Definition M (F A : Type) : Type := gmsh F -> result A * gmsh F.

Definition ret {F A} (a : A) : M F A := fun k => (Ok a, k).

Definition raise {F A} (e : exn) : M F A := fun k => (Raise e, k).

Definition bind {F A B} (m : M F A) (f : A -> M F B) : M F B :=
  fun k =>
    match m k with
    | (Ok a, k1) => f a k1
    | (Raise e, k1) => (Raise e, k1)
    end.

(** [try: m  except Exception: h] *)
Definition try_except {F A} (m : M F A) (h : M F A) : M F A :=
  fun k =>
    match m k with
    | (Ok a, k1) => (Ok a, k1)
    | (Raise _, k1) => h k1
    end.

Declare Scope py_scope.
Delimit Scope py_scope with py.
Notation "x <- m ;; f" := (bind m (fun x => f))
  (at level 61, m at next level, right associativity) : py_scope.
Notation "m ;;; f" := (bind m (fun _ => f))
  (at level 61, right associativity) : py_scope.
Local Open Scope py_scope.

(** [for x in xs: s = body x s], the loop-carried variables in [s]. *)
Fixpoint for_each {F A S} (xs : list A) (body : A -> S -> M F S) (s : S)
  : M F S :=
  match xs with
  | [] => ret s
  | x :: xs' => s1 <- body x s ;; for_each xs' body s1
  end.

(** [range(n)] *)
Definition range (n : Z) : list Z := map Z.of_nat (seq 0 (Z.to_nat n)).

(** [l[i]] for a non-negative literal index. *)
Definition index {F A} (l : list A) (i : nat) : M F A :=
  match nth_error l i with
  | Some x => ret x
  | None => raise IndexError
  end.

(** Reading a local that an earlier branch may not have assigned. *)
Definition local {F A} (name : string) (v : option A) : M F A :=
  match v with
  | Some x => ret x
  | None => raise (UnboundLocalError name)
  end.

(* ------------------------------------------------------------------ *)
(** ** Kernel entry points *)
(* ------------------------------------------------------------------ *)

Module Gmsh.
Section Api.
Context {F : Type}.

Definition record (c : call F) (k : gmsh F) : gmsh F :=
  mkGmsh (initialized k) (has_model k) (max_point k) (max_curve k)
         (max_loop k) (max_surface k) (max_group k) (calls k ++ [c]).

Definition isInitialized : M F bool := fun k =>
  (Ok (initialized k), record (IsInitialized (initialized k)) k).

(** [gmsh.initialize()] starts the kernel with an empty unnamed model. *)
Definition initialize : M F unit := fun k =>
  (Ok tt, mkGmsh true true (max_point k) (max_curve k) (max_loop k)
                 (max_surface k) (max_group k) (calls k ++ [Initialize])).

(** [gmsh.model.getCurrent()] raises when there is no current model. *)
Definition model_getCurrent : M F unit := fun k =>
  (if initialized k && has_model k then Ok tt
   else Raise (GmshError "no current model"), record ModelGetCurrent k).

Definition model_add (name : string) : M F unit := fun k =>
  (Ok tt, mkGmsh (initialized k) true (max_point k) (max_curve k)
                 (max_loop k) (max_surface k) (max_group k)
                 (calls k ++ [ModelAdd name])).

Definition addPoint (x y z size : F) : M F Z := fun k =>
  let t := max_point k + 1 in
  (Ok t, mkGmsh (initialized k) (has_model k) t (max_curve k) (max_loop k)
                (max_surface k) (max_group k)
                (calls k ++ [AddPoint x y z size t])).

Definition addLine (p0 p1 : Z) : M F Z := fun k =>
  let t := max_curve k + 1 in
  (Ok t, mkGmsh (initialized k) (has_model k) (max_point k) t (max_loop k)
                (max_surface k) (max_group k)
                (calls k ++ [AddLine p0 p1 t])).

Definition addCircleArc (ps pc pe : Z) : M F Z := fun k =>
  let t := max_curve k + 1 in
  (Ok t, mkGmsh (initialized k) (has_model k) (max_point k) t (max_loop k)
                (max_surface k) (max_group k)
                (calls k ++ [AddCircleArc ps pc pe t])).

Definition addCurveLoop (curves : list Z) : M F Z := fun k =>
  let t := max_loop k + 1 in
  (Ok t, mkGmsh (initialized k) (has_model k) (max_point k) (max_curve k) t
                (max_surface k) (max_group k)
                (calls k ++ [AddCurveLoop curves t])).

Definition addPlaneSurface (wires : list Z) : M F Z := fun k =>
  let t := max_surface k + 1 in
  (Ok t, mkGmsh (initialized k) (has_model k) (max_point k) (max_curve k)
                (max_loop k) t (max_group k)
                (calls k ++ [AddPlaneSurface wires t])).

Definition addPhysicalGroup (dim : Z) (tags : list Z) : M F Z := fun k =>
  let t := max_group k + 1 in
  (Ok t, mkGmsh (initialized k) (has_model k) (max_point k) (max_curve k)
                (max_loop k) (max_surface k) t
                (calls k ++ [AddPhysicalGroup dim tags t])).

Definition setPhysicalName (dim tag : Z) (name : string) : M F unit :=
  fun k => (Ok tt, record (SetPhysicalName dim tag name) k).

Definition synchronize : M F unit :=
  fun k => (Ok tt, record GeoSynchronize k).

Definition setTransfiniteSurface (tag : Z) (arrangement : option string)
    (cornerTags : option (list Z)) : M F unit :=
  fun k => (Ok tt, record (SetTransfiniteSurface tag arrangement cornerTags) k).

End Api.
End Gmsh.

(** Modelled from the spec: [T_Conf.transfinite.set_transfinite] is
    imported by both modules and its body is not among the sources.  The
    spec describes it as the constraint-assignment step that the edge
    lists and surfaces are submitted to; it creates no geometry.  Each
    request is kept as one entry of the call list, with its arguments. *)
Definition set_transfinite {F} (radial_curves circular_curves : list Z)
    (surfaces : list (Z * string)) (n_div_radial n_div_circular : Z)
    (bumpcoef : option F) : M F unit :=
  fun k => (Ok tt, Gmsh.record (SetTransfinite radial_curves circular_curves
                                  surfaces n_div_radial n_div_circular
                                  bumpcoef) k).

(* ================================================================== *)
(** * core_disk.py *)
(* ================================================================== *)

Module CoreDisk.
Section Disk.
Context {F : Type} `{PyFloat F}.

(** [T_Conf.utils.ensure_gmsh_available] is not among the sources; it is
    whatever computation on the kernel the caller's installation has. *)
Variable ensure_gmsh_available : M F unit.

(** [x / y] on floats. *)
Definition div (x y : F) : M F F :=
  if feq y (of_int 0) then raise ZeroDivisionError else ret (fdiv x y).

(** [x / n] for an [int] divisor. *)
Definition div_int (x : F) (n : Z) : M F F :=
  if n =? 0 then raise ZeroDivisionError else ret (fdiv x (of_int n)).

(** [int(ceil(x))] *)
Definition int_ceil (x : F) : M F Z :=
  match ceil_int x with
  | Some n => ret n
  | None =>
      raise (if is_nan x
             then ValueError "cannot convert float NaN to integer"
             else OverflowError)
  end.

(** Line 54: [max(4, int(np.ceil(2 * a / h_band)))] *)
Definition n_div_radial (a h_band : F) : M F Z :=
  q <- div (fmul (of_int 2) a) h_band ;;
  n <- int_ceil q ;;
  ret (Z.max 4 n).

(** Line 55: [max(4, int(math.ceil((0.5 * math.pi) / h_band)))] *)
Definition n_div_angular (h_band : F) : M F Z :=
  q <- div (fmul lit_half math_pi) h_band ;;
  n <- int_ceil q ;;
  ret (Z.max 4 n).

(** Lines 57-63. *)
Definition meshSizeAt (a rInner h_band h_outer x y : F) : F :=
  let r := math_sqrt (fadd (fmul x x) (fmul y y)) in
  if fle (fsub rInner a) r && fle r (fadd rInner a) then h_band else h_outer.

(** Lines 70-72. *)
Definition make_pt (a rInner h_band h_outer r theta : F) : M F Z :=
  let x := fmul r (math_cos theta) in
  let y := fmul r (math_sin theta) in
  Gmsh.addPoint x y (of_int 0) (meshSizeAt a rInner h_band h_outer x y).

(** The dictionary [p] of one sector; its keys are the eight literals. *)
Record sector_points : Type := mkPoints {
  in0 : Z; in1 : Z; mid0 : Z; mid1 : Z;
  out0 : Z; out1 : Z; o20 : Z; o21 : Z
}.

(** The locals that live across iterations of the sector loop: the two
    accumulators, and the three names that only the inner-band branches
    assign. *)
Record frame : Type := mkFrame {
  inner_surfaces : list Z;
  outer_surfaces : list Z;
  curves_ib      : option (list Z);
  arc_interface  : option Z;
  surf_ib        : option Z
}.

(** Lines 76-150: the body of [for i in range(n_sectors)]. *)
Definition sector (a rInner rOuter h_band h_outer : F)
    (n_div_radial n_div_angular : Z) (p_center n_sectors : Z)
    (i : Z) (fr : frame) : M F frame :=
  let pt := make_pt a rInner h_band h_outer in
  let two_pi := fmul (of_int 2) math_pi in
  theta0 <- div_int (fmul two_pi (of_int i)) n_sectors ;;
  theta1 <- div_int (fmul two_pi (of_int (i + 1))) n_sectors ;;
  p_in0 <- pt (fsub rInner a) theta0 ;;
  p_in1 <- pt (fsub rInner a) theta1 ;;
  p_mid0 <- pt rInner theta0 ;;
  p_mid1 <- pt rInner theta1 ;;
  p_out0 <- pt (fadd rInner a) theta0 ;;
  p_out1 <- pt (fadd rInner a) theta1 ;;
  p_o20 <- pt rOuter theta0 ;;
  p_o21 <- pt rOuter theta1 ;;
  let p := mkPoints p_in0 p_in1 p_mid0 p_mid1 p_out0 p_out1 p_o20 p_o21 in
  (* inner bulk / inner band *)
  fr1 <-
    (if fgt (fsub rInner a) (of_int 0) then
       c0 <- Gmsh.addLine (in0 p) (mid0 p) ;;
       c1 <- Gmsh.addCircleArc (mid0 p) p_center (mid1 p) ;;
       c2 <- Gmsh.addLine (mid1 p) (in1 p) ;;
       c3 <- Gmsh.addCircleArc (in1 p) p_center (in0 p) ;;
       let curves_ib := [c0; c1; c2; c3] in
       arc_interface <- index curves_ib 1 ;;
       loop_ib <- Gmsh.addCurveLoop curves_ib ;;
       surf_ib <- Gmsh.addPlaneSurface [loop_ib] ;;
       let inner1 := inner_surfaces fr ++ [surf_ib] in
       inner_arc <- index curves_ib 3 ;;
       l0 <- Gmsh.addLine p_center (in0 p) ;;
       l1 <- Gmsh.addLine (in1 p) p_center ;;
       loop <- Gmsh.addCurveLoop [l0; - inner_arc; l1] ;;
       s <- Gmsh.addPlaneSurface [loop] ;;
       ret (mkFrame (inner1 ++ [s]) (outer_surfaces fr)
                    (Some curves_ib) (Some arc_interface) (Some surf_ib))
     else if feq rInner a then
       c0 <- Gmsh.addLine p_center (mid0 p) ;;
       c1 <- Gmsh.addCircleArc (mid0 p) p_center (mid1 p) ;;
       c2 <- Gmsh.addLine (mid1 p) p_center ;;
       let curves_ib := [c0; c1; c2] in
       arc_interface <- index curves_ib 1 ;;
       loop_ib <- Gmsh.addCurveLoop curves_ib ;;
       surf_ib <- Gmsh.addPlaneSurface [loop_ib] ;;
       ret (mkFrame (inner_surfaces fr ++ [surf_ib]) (outer_surfaces fr)
                    (Some curves_ib) (Some arc_interface) (Some surf_ib))
     else ret fr) ;;
  (* outer band *)
  d0 <- Gmsh.addLine (mid0 p) (out0 p) ;;
  d1 <- Gmsh.addCircleArc (out0 p) p_center (out1 p) ;;
  d2 <- Gmsh.addLine (out1 p) (mid1 p) ;;
  arc_if <- local "arc_interface" (arc_interface fr1) ;;
  let curves_ob := [d0; d1; d2; - arc_if] in
  arc_outer <- index curves_ob 1 ;;
  loop_ob <- Gmsh.addCurveLoop curves_ob ;;
  surf_ob <- Gmsh.addPlaneSurface [loop_ob] ;;
  let outer1 := outer_surfaces fr1 ++ [surf_ob] in
  outer2 <-
    (if flt (fadd a rInner) rOuter then
       (* outer bulk *)
       l_b0 <- Gmsh.addLine (out0 p) (o20 p) ;;
       arc_bound <- Gmsh.addCircleArc (o20 p) p_center (o21 p) ;;
       l_b1 <- Gmsh.addLine (o21 p) (out1 p) ;;
       loop_bulk <- Gmsh.addCurveLoop [l_b0; arc_bound; l_b1; - arc_outer] ;;
       s <- Gmsh.addPlaneSurface [loop_bulk] ;;
       ret (outer1 ++ [s])
     else ret outer1) ;;
  cib <- local "curves_ib" (curves_ib fr1) ;;
  r0 <- index cib 0 ;;
  r1 <- index cib 2 ;;
  r2 <- index curves_ob 0 ;;
  r3 <- index curves_ob 2 ;;
  a0 <- index cib 1 ;;
  a1 <- index cib 3 ;;
  a2 <- index curves_ob 1 ;;
  a3 <- index curves_ob 3 ;;
  sib <- local "surf_ib" (surf_ib fr1) ;;
  set_transfinite [r0; r1; r2; r3] [a0; a1; a2; a3]
                  [(sib, "Right"); (surf_ob, "Left")]
                  n_div_radial n_div_angular None ;;;
  ret (mkFrame (inner_surfaces fr1) outer2
               (curves_ib fr1) (arc_interface fr1) (surf_ib fr1)).

(** Lines 39-45: initialize Gmsh and add a model if needed. *)
Definition startup : M F unit :=
  ini <- Gmsh.isInitialized ;;
  (if negb ini then Gmsh.initialize else ret tt) ;;;
  try_except Gmsh.model_getCurrent (Gmsh.model_add "TransfiniteDisk").

(** Lines 47-51: parameter checks. *)
Definition parameter_checks (a rInner rOuter : F) : M F unit :=
  (if flt (fsub rInner a) (of_int 0)
   then raise (ValueError "rInner - a must be nonnegative.") else ret tt) ;;;
  (if fgt (fadd rInner a) rOuter
   then raise (ValueError "rInner + a must be <= rOuter.") else ret tt).

(** Lines 53-161: everything after the parameter checks. *)
Definition decompose (a rInner rOuter h_band h_outer : F) (n_sectors : Z)
    (InnerMaterialName OuterMaterialName InterfaceName OuterBoundaryName
       : string) : M F unit :=
  (* Transfinite parameters *)
  ndr <- n_div_radial a h_band ;;
  nda <- n_div_angular h_band ;;
  p_center <- Gmsh.addPoint (of_int 0) (of_int 0) (of_int 0)
                (meshSizeAt a rInner h_band h_outer (of_int 0) (of_int 0)) ;;
  let n_sectors := 4 in
  fr <- for_each (range n_sectors)
          (sector a rInner rOuter h_band h_outer ndr nda p_center n_sectors)
          (mkFrame [] [] None None None) ;;
  (* Tagging physical groups *)
  innerGroupTag <- Gmsh.addPhysicalGroup 2 (inner_surfaces fr) ;;
  Gmsh.setPhysicalName 2 innerGroupTag InnerMaterialName ;;;
  outerGroupTag <- Gmsh.addPhysicalGroup 2 (outer_surfaces fr) ;;
  Gmsh.setPhysicalName 2 outerGroupTag OuterMaterialName ;;;
  (* Final sync *)
  Gmsh.synchronize.

(** Lines 17-161. *)
Definition Transfinite_Disk (a rInner rOuter h_band h_outer : F)
    (n_sectors : Z)
    (InnerMaterialName OuterMaterialName InterfaceName OuterBoundaryName
       : string) : M F unit :=
  ensure_gmsh_available ;;;
  startup ;;;
  parameter_checks a rInner rOuter ;;;
  decompose a rInner rOuter h_band h_outer n_sectors
            InnerMaterialName OuterMaterialName
            InterfaceName OuterBoundaryName.

End Disk.
End CoreDisk.

(* ================================================================== *)
(** * mesh.py *)
(* ================================================================== *)

(** The six floats of [gmsh.model.getBoundingBox], in the kernel's order:
    indices 0-2 are the minima along x, y, z and 3-5 the maxima. *)
Record bbox (F : Type) : Type := mkBbox {
  xmin : F; ymin : F; zmin : F;
  xmax : F; ymax : F; zmax : F
}.

Arguments mkBbox {F}.

Module Mesh.
Section Sweep.
Context {F : Type} `{PyFloat F}.

(** What the kernel answers to the queries of this module.  The answers
    are its own business; each may depend on everything the kernel has
    been asked so far. *)
Variable revolve_out :
  gmsh F -> list (Z * Z) -> F -> F -> F -> F -> F -> F -> F -> list (Z * Z).
Variable bounding_box : gmsh F -> Z -> Z -> bbox F.
Variable boundary : gmsh F -> list (Z * Z) -> list (Z * Z).
Variable entity_type : gmsh F -> Z -> Z -> string.

(** The two helpers of [T_Conf.utils], which is not among the sources. *)
Variable ensure_gmsh_available : M F unit.
Variable find_missing_numbers : list Z -> list Z -> M F (list Z * list Z).

Definition revolve (dimtags : list (Z * Z)) (ax ay az cx cy cz angle : F)
  : M F (list (Z * Z)) := fun k =>
  let out := revolve_out k dimtags ax ay az cx cy cz angle in
  (Ok out, Gmsh.record (Revolve dimtags ax ay az cx cy cz angle out) k).

Definition getBoundingBox (dim tag : Z) : M F (bbox F) := fun k =>
  (Ok (bounding_box k dim tag), Gmsh.record (GetBoundingBox dim tag) k).

(** [getBoundary(dimtags, combined=False, recursive=False)] *)
Definition getBoundary (dimtags : list (Z * Z)) : M F (list (Z * Z)) :=
  fun k => (Ok (boundary k dimtags), Gmsh.record (GetBoundary dimtags) k).

Definition getType (dim tag : Z) : M F string := fun k =>
  (Ok (entity_type k dim tag), Gmsh.record (GetType dim tag) k).

(** [next(v for (dim, v) in out if dim == d)] *)
Fixpoint next_of_dim (d : Z) (out : list (Z * Z)) : M F Z :=
  match out with
  | [] => raise StopIteration
  | (dim, v) :: rest => if dim =? d then ret v else next_of_dim d rest
  end.

(** [[tag for (dim, tag) in out if dim == d]] *)
Definition tags_of_dim (d : Z) (out : list (Z * Z)) : list Z :=
  map snd (filter (fun dt => fst dt =? d) out).

(** [x in l] and [l.index(x)] *)
Definition mem (x : Z) (l : list Z) : bool := existsb (Z.eqb x) l.

Fixpoint index_of (x : Z) (l : list Z) : option nat :=
  match l with
  | [] => None
  | y :: l' => if y =? x then Some O
               else option_map S (index_of x l')
  end.

Definition list_index (l : list Z) (x : Z) : M F nat :=
  match index_of x l with
  | Some i => ret i
  | None => raise (ValueError "x is not in list")
  end.

(** [l[i:] + l[:i]] *)
Definition rotate (l : list Z) (i : nat) : list Z := skipn i l ++ firstn i l.

(** [np.arange(2, 21)] *)
Definition arange_2_21 : list Z := map (fun n => Z.of_nat n + 2) (seq 0 19).

(** Lines 113-116: the arrangement of an "outer" surface, from its box.
    [bbox[2]] and [bbox[5]] are [zmin] and [zmax]; [bbox[0]] and [bbox[3]]
    are [xmin] and [xmax]. *)
Definition use_arr_of_bbox (b : bbox F) : string :=
  let tol := lit_1em6 in
  let avg_z := fdiv (fadd (zmin b) (zmax b)) (of_int 2) in
  if flt (fabs avg_z) tol
     && (fge (xmin b) (of_int 0) && fge (xmax b) (of_int 0))
  then "Right" else "Left".

(** Lines 110-116. *)
Definition arrangement (surface_type : string) (s_tag : Z) : M F string :=
  if String.eqb surface_type "inner" then ret "Right"
  else
    b <- getBoundingBox 2 s_tag ;;
    ret (use_arr_of_bbox b).

(** The locals that the loop over the boundary edges fills. *)
Record edges : Type := mkEdges {
  corner_points : list Z;
  radial_curves : list Z;
  curved_curves : list Z
}.

(** Lines 135-137: [for pt in (pt_a, pt_b): if pt not in corner_points] *)
Definition add_corner (pt : Z) (corners : list Z) : list Z :=
  if mem pt corners then corners else corners ++ [pt].

(** Lines 124-137: one [(dim_c, tag_c)] of the boundary. *)
Definition classify_edge (dt : Z * Z) (e : edges) : M F edges :=
  let '(dim_c, tag_c) := dt in
  if dim_c =? 1 then
    etype <- getType 1 (Z.abs tag_c) ;;
    let e1 :=
      if String.eqb etype "Circle"
      then mkEdges (corner_points e) (radial_curves e)
                   (curved_curves e ++ [tag_c])
      else if String.eqb etype "Line"
      then mkEdges (corner_points e) (radial_curves e ++ [tag_c])
                   (curved_curves e)
      else e in
    endpts <- getBoundary [(1, tag_c)] ;;
    match endpts with
    | [(_, pt_a); (_, pt_b)] =>
        ret (mkEdges (add_corner pt_b (add_corner pt_a (corner_points e1)))
                     (radial_curves e1) (curved_curves e1))
    | _ => ret e1
    end
  else ret e.

(** Lines 145-158: corner order and the surface declaration. *)
Definition declare_surface (s_tag : Z) (use_arr : string)
    (corner_points : list Z) : M F unit :=
  if (List.length corner_points =? 3)%nat then
    if mem 1 corner_points then
      i <- list_index corner_points 1 ;;
      let corner_points := rotate corner_points i in
      Gmsh.setTransfiniteSurface s_tag (Some use_arr) (Some corner_points)
    else
      pair <- find_missing_numbers corner_points arange_2_21 ;;
      let missing := snd pair in
      m0 <- index missing 0 ;;
      i <- list_index corner_points m0 ;;
      let corner_points := rotate corner_points i in
      Gmsh.setTransfiniteSurface s_tag None (Some corner_points)
  else
    Gmsh.setTransfiniteSurface s_tag (Some use_arr) None.

(** Lines 108-158: the body of [for s_tag in new_surfs]. *)
Definition sweep_surface (n_div_radial n_div_curved : Z) (bumpcoef : F)
    (surface_type : string) (s_tag : Z) (_ : unit) : M F unit :=
  use_arr <- arrangement surface_type s_tag ;;
  bnd <- getBoundary [(2, s_tag)] ;;
  e <- for_each bnd classify_edge (mkEdges [] [] []) ;;
  set_transfinite (radial_curves e) (curved_curves e) [(s_tag, use_arr)]
                  n_div_radial n_div_curved (Some bumpcoef) ;;;
  declare_surface s_tag use_arr (corner_points e).

(** Lines 93-158. *)
Definition _apply_transfinite_sweep (sweep_results : list (Z * Z))
    (n_div_radial n_div_curved : Z) (bumpcoef : F) (surface_type : string)
  : M F unit :=
  let new_surfs := tags_of_dim 2 sweep_results in
  Gmsh.synchronize ;;;
  for_each new_surfs
    (sweep_surface n_div_radial n_div_curved bumpcoef surface_type) tt.

(** Lines 16-90. *)
Definition revolve_surface (revolve_axis revolve_center : list F)
    (angle_sweep : F) (surface_loop : Z) (n_div_radial n_div_curved : Z)
    (bumpcoef : F) (surface_type : string) (apply_transfinite : bool)
  : M F (Z * Z) :=
  ensure_gmsh_available ;;;
  (* Positive sweep *)
  ax <- index revolve_axis 0 ;;
  ay <- index revolve_axis 1 ;;
  az <- index revolve_axis 2 ;;
  cx <- index revolve_center 0 ;;
  cy <- index revolve_center 1 ;;
  cz <- index revolve_center 2 ;;
  out_plus <- revolve [(2, surface_loop)] ax ay az cx cy cz angle_sweep ;;
  vol_plus <- next_of_dim 3 out_plus ;;
  (* Negative sweep *)
  ax <- index revolve_axis 0 ;;
  ay <- index revolve_axis 1 ;;
  az <- index revolve_axis 2 ;;
  cx <- index revolve_center 0 ;;
  cy <- index revolve_center 1 ;;
  cz <- index revolve_center 2 ;;
  out_minus <- revolve [(2, surface_loop)] ax ay az cx cy cz
                 (fneg angle_sweep) ;;
  vol_minus <- next_of_dim 3 out_minus ;;
  (* Apply transfinite meshing on surfaces *)
  (if apply_transfinite then
     _apply_transfinite_sweep out_plus n_div_radial n_div_curved bumpcoef
                              surface_type ;;;
     _apply_transfinite_sweep out_minus n_div_radial n_div_curved bumpcoef
                              surface_type
   else ret tt) ;;;
  ret (vol_plus, vol_minus).

(** Lines 161-240.  The two bulk patches are [Optional[int]]; the volumes
    of an absent patch are [None]. *)
Definition create_wedge_volumes (inner_surf outer_surf : Z)
    (inner_bulk_surf outer_bulk_surf : option Z)
    (revolve_axis revolve_center : list F) (angle_sweep : F)
    (n_div_radial n_div_curved : Z) (bumpcoef : F)
  : M F (list (option Z) * list (option Z)) :=
  ensure_gmsh_available ;;;
  (* Band volumes (transfinite) *)
  vol_i <- revolve_surface revolve_axis revolve_center angle_sweep inner_surf
             n_div_radial n_div_curved bumpcoef "inner" true ;;
  Gmsh.synchronize ;;;
  vol_o <- revolve_surface revolve_axis revolve_center angle_sweep outer_surf
             n_div_radial n_div_curved bumpcoef "outer" true ;;
  Gmsh.synchronize ;;;
  (* Bulk volumes (unstructured) *)
  vol_ib <-
    match inner_bulk_surf with
    | Some s =>
        v <- revolve_surface revolve_axis revolve_center angle_sweep s
               n_div_radial n_div_curved bumpcoef "inner" false ;;
        Gmsh.synchronize ;;;
        ret (Some (fst v), Some (snd v))
    | None => ret (None, None)
    end ;;
  vol_ob <-
    match outer_bulk_surf with
    | Some s =>
        v <- revolve_surface revolve_axis revolve_center angle_sweep s
               n_div_radial n_div_curved bumpcoef "outer" false ;;
        ret (Some (fst v), Some (snd v))
    | None => ret (None, None)
    end ;;
  Gmsh.synchronize ;;;
  let inner_vols :=
    [Some (fst vol_i); Some (snd vol_i); fst vol_ib; snd vol_ib] in
  let outer_vols :=
    [Some (fst vol_o); Some (snd vol_o); fst vol_ob; snd vol_ob] in
  ret (inner_vols, outer_vols).

End Sweep.

(** Modelled from the spec: [T_Conf.utils.find_missing_numbers] is not
    among the sources.  The spec has the resolver find, within a bounded
    small integer ID range, the ID values absent from the corner-ID set,
    first one first; the first component of the pair is discarded by the
    caller, and is taken here to be the IDs of the range that are
    present. *)
Definition find_missing_numbers {F} (ids range_ids : list Z)
  : M F (list Z * list Z) :=
  ret (filter (fun x => existsb (Z.eqb x) ids) range_ids,
       filter (fun x => negb (existsb (Z.eqb x) ids)) range_ids).

End Mesh.

(* ================================================================== *)
(** * Reading the call list *)
(* ================================================================== *)

Section Reading.
Context {F : Type}.

(** Kernel lifecycle calls: nothing geometric is made by them. *)
Definition is_lifecycle (c : call F) : bool :=
  match c with
  | IsInitialized _ | Initialize | ModelGetCurrent | ModelAdd _ => true
  | _ => false
  end.

(** Creation of a point, curve, loop or surface. *)
Definition is_geometry (c : call F) : bool :=
  match c with
  | AddPoint _ _ _ _ _ | AddLine _ _ _ | AddCircleArc _ _ _ _
  | AddCurveLoop _ _ | AddPlaneSurface _ _ => true
  | _ => false
  end.

(** A structured-constraint request; each completed sector ends in one. *)
Definition is_request (c : call F) : bool :=
  match c with
  | SetTransfinite _ _ _ _ _ _ => true
  | _ => false
  end.

Definition is_group_call (c : call F) : bool :=
  match c with
  | AddPhysicalGroup _ _ _ | SetPhysicalName _ _ _ => true
  | _ => false
  end.

Definition is_revolve (c : call F) : bool :=
  match c with
  | Revolve _ _ _ _ _ _ _ _ _ => true
  | _ => false
  end.

(** The call makes the curve with tag [t]. *)
Definition creates_curve (t : Z) (c : call F) : bool :=
  match c with
  | AddLine _ _ t' | AddCircleArc _ _ _ t' => t' =? t
  | _ => false
  end.

(** The call makes a curve loop that lists the signed curve [x]. *)
Definition loop_lists (x : Z) (c : call F) : bool :=
  match c with
  | AddCurveLoop curves _ => existsb (Z.eqb x) curves
  | _ => false
  end.

Definition count (p : call F -> bool) (l : list (call F)) : nat :=
  List.length (filter p l).

(** The number of sectors a run has completed. *)
Definition sectors_built (l : list (call F)) : nat := count is_request l.

End Reading.

(** A kernel nobody has touched yet. *)
Definition fresh {F} : gmsh F := mkGmsh false false 0 0 0 0 0 [].

(** The doubles that Python reads the literals 0.1 and 0.5 as. *)
Definition f0_1 : float := 0x1.999999999999ap-4%float.
Definition f0_5 : float := 0.5%float.

(** A stand-in kernel for running the sweep on: each revolution answers
    one side surface and one volume, numbered by the calls made so far;
    surfaces have an empty boundary and a unit box. *)
Definition toy_revolve_out (k : gmsh float) (_ : list (Z * Z))
    (_ _ _ _ _ _ _ : float) : list (Z * Z) :=
  [(2, 50); (3, Z.of_nat (List.length (calls k)) + 1)].

Definition toy_bounding_box (_ : gmsh float) (_ _ : Z) : bbox float :=
  mkBbox 0%float 0%float 0%float 1%float 1%float 1%float.

Definition toy_boundary (_ : gmsh float) (_ : list (Z * Z))
  : list (Z * Z) := [].

Definition toy_entity_type (_ : gmsh float) (_ _ : Z) : string := "Line".

(** A stand-in kernel whose side surfaces are triangles on the points 5,
    6 and 7: the boundary of a surface is three lines, and each line
    answers its two end points. *)
Definition triangle_boundary (_ : gmsh float) (dimtags : list (Z * Z))
  : list (Z * Z) :=
  match dimtags with
  | [(2, _)] => [(1, 11); (1, 12); (1, 13)]
  | [(1, 11)] => [(0, 5); (0, 6)]
  | [(1, 12)] => [(0, 6); (0, 7)]
  | [(1, 13)] => [(0, 7); (0, 5)]
  | _ => []
  end.

(** An installation where Gmsh is importable: the check has nothing to
    do. *)
Definition gmsh_present {F} : M F unit := ret tt.

(* ------------------------------------------------------------------ *)
(** ** What a run of the disk builder leaves in the call list *)
(* ------------------------------------------------------------------ *)

Section DiskReading.
Context {F : Type} `{PyFloat F}.

(** The calls of the startup block, from the flags it finds. *)
Definition startup_calls (k : gmsh F) : list (call F) :=
  IsInitialized (initialized k)
  :: (if initialized k then [] else [Initialize])
  ++ ModelGetCurrent
  :: (if initialized k
      then (if has_model k then [] else [ModelAdd "TransfiniteDisk"])
      else []).

(** The kernel after the startup block. *)
Definition started (k : gmsh F) : gmsh F :=
  mkGmsh true true (max_point k) (max_curve k) (max_loop k) (max_surface k)
         (max_group k) (calls k ++ startup_calls k).

(** The calls of one sector, read off a run of [CoreDisk.sector] on a
    kernel with the given highest tags and no history. *)
Definition sector_calls (a rInner rOuter h_band h_outer : F)
    (ndr nda p_center : Z) (mp mc ml ms : Z) (i : Z) (fr : CoreDisk.frame)
  : list (call F) :=
  calls (snd (CoreDisk.sector a rInner rOuter h_band h_outer ndr nda
                p_center 4 i fr (mkGmsh true true mp mc ml ms 0 []))).

(** Curves, and loops or surfaces, that a sector of a disk with
    [rInner - a > 0] makes, with and without an outer bulk. *)
Definition curves_per_sector (bulk : bool) : Z := if bulk then 12 else 9.
Definition patches_per_sector (bulk : bool) : Z := if bulk then 4 else 3.

(** The interface arc and the two band surfaces that a request names:
    the first circular curve, and the surfaces in order. *)
Definition request_of (c : call F) : option (Z * Z * Z) :=
  match c with
  | SetTransfinite _ (t :: _) [(si, _); (so, _)] _ _ _ => Some (t, si, so)
  | _ => None
  end.

(** Curve [t] is made once, as an arc; one loop lists it as [t] and
    bounds surface [si], another lists it as [- t] and bounds [so]. *)
Definition shared_interface (evs : list (call F)) (t si so : Z) : Prop :=
  0 < t
  /\ (exists ps pc pe,
        filter (creates_curve t) evs = [AddCircleArc ps pc pe t])
  /\ exists ci li co lo,
       filter (loop_lists t) evs = [AddCurveLoop ci li]
       /\ filter (loop_lists (- t)) evs = [AddCurveLoop co lo]
       /\ li <> lo
       /\ In (AddPlaneSurface [li] si) evs
       /\ In (AddPlaneSurface [lo] so) evs.

(** The point with tag [p] was placed at radius [r], as [make_pt] does
    it: at [(r cos theta, r sin theta, 0)] for some angle [theta]. *)
Definition placed_at_radius (evs : list (call F)) (r : F) (p : Z) : Prop :=
  exists theta size,
    In (AddPoint (fmul r (math_cos theta)) (fmul r (math_sin theta))
          (of_int 0) size p) evs.

(** Curve [t] is made once, as an arc between two points placed at
    radius [r]. *)
Definition arc_at_radius (evs : list (call F)) (r : F) (t : Z) : Prop :=
  exists ps pc pe,
    filter (creates_curve t) evs = [AddCircleArc ps pc pe t]
    /\ placed_at_radius evs r ps /\ placed_at_radius evs r pe.

(** The interface of one sector, as arc, inner-band surface and
    outer-band surface: the arc lies at radius [r] and is shared by the
    loops of the two surfaces with opposite signs. *)
Definition band_interface (evs : list (call F)) (r : F) (i : Z * Z * Z)
  : Prop :=
  let '(t, si, so) := i in
  shared_interface evs t si so /\ arc_at_radius evs r t.

(** The division counts a request may carry for half-thickness [a] and
    band size [h_band]. *)
Definition request_counts (a h_band : F) (c : call F) : Prop :=
  match c with
  | SetTransfinite _ _ _ n_rad n_circ _ =>
      exists c1 c2,
        ceil_int (fdiv (fmul (of_int 2) a) h_band) = Some c1
        /\ ceil_int (fdiv (fmul lit_half math_pi) h_band) = Some c2
        /\ n_rad = Z.max 4 c1 /\ n_circ = Z.max 4 c2
  | _ => True
  end.

(** The spec's words for the angular count:
    [max(4, ceil((radius_reference * dtheta) / h_band))]. *)
Definition spec_n_div_angular (radius_reference dtheta h_band : F) : M F Z :=
  (q <- CoreDisk.div (fmul radius_reference dtheta) h_band ;;
   n <- CoreDisk.int_ceil q ;;
   ret (Z.max 4 n))%py.

(** The spec's words for an "outer" surface that is to get "Right": the
    box lies at the symmetry plane z = 0 within the tolerance, and in the
    non-negative quadrant of the other two axes. *)
Definition spec_outer_is_right (b : bbox F) : bool :=
  flt (fabs (zmin b)) lit_1em6 && flt (fabs (zmax b)) lit_1em6
  && fge (xmin b) (of_int 0) && fge (ymin b) (of_int 0).

(** Every call that [m] adds to the list satisfies [P]. *)
Definition emits (P : call F -> Prop) {A} (m : M F A) : Prop :=
  forall k, exists evs, calls (snd (m k)) = calls k ++ evs /\ Forall P evs.

(** [next(...)] as a search: the first tag of dimension [d]. *)
Fixpoint first_of_dim (d : Z) (out : list (Z * Z)) : option Z :=
  match out with
  | [] => None
  | (dim, v) :: rest => if dim =? d then Some v else first_of_dim d rest
  end.

(** Lines 53-150 of the builder: the counts, the centre point and the
    sector loop. *)
Definition disk_sectors_part (a rInner rOuter h_band h_outer : F)
  : M F CoreDisk.frame :=
  (ndr <- CoreDisk.n_div_radial a h_band ;;
   nda <- CoreDisk.n_div_angular h_band ;;
   p_center <- Gmsh.addPoint (of_int 0) (of_int 0) (of_int 0)
                 (CoreDisk.meshSizeAt a rInner h_band h_outer
                    (of_int 0) (of_int 0)) ;;
   for_each (range 4)
     (CoreDisk.sector a rInner rOuter h_band h_outer ndr nda p_center 4)
     (CoreDisk.mkFrame [] [] None None None))%py.

(** Lines 152-161 of the builder: the group calls and the final
    synchronization. *)
Definition disk_groups_part (InnerMaterialName OuterMaterialName : string)
    (fr : CoreDisk.frame) : M F unit :=
  (innerGroupTag <- Gmsh.addPhysicalGroup 2 (CoreDisk.inner_surfaces fr) ;;
   Gmsh.setPhysicalName 2 innerGroupTag InnerMaterialName ;;;
   outerGroupTag <- Gmsh.addPhysicalGroup 2 (CoreDisk.outer_surfaces fr) ;;
   Gmsh.setPhysicalName 2 outerGroupTag OuterMaterialName ;;;
   Gmsh.synchronize)%py.

(** Everything the builder does before the group calls, the check for
    Gmsh apart. *)
Definition disk_before_groups (a rInner rOuter h_band h_outer : F)
  : M F CoreDisk.frame :=
  (CoreDisk.startup ;;; CoreDisk.parameter_checks a rInner rOuter ;;;
   disk_sectors_part a rInner rOuter h_band h_outer)%py.

End DiskReading.

(* ------------------------------------------------------------------ *)
(** ** More ways to read the call list *)
(* ------------------------------------------------------------------ *)

Section MoreReading.
Context {F : Type}.

Definition is_sync (c : call F) : bool :=
  match c with
  | GeoSynchronize => true
  | _ => false
  end.

Definition is_bbox_query (c : call F) : bool :=
  match c with
  | GetBoundingBox _ _ => true
  | _ => false
  end.

Definition is_point (c : call F) : bool :=
  match c with
  | AddPoint _ _ _ _ _ => true
  | _ => false
  end.

Definition is_curve (c : call F) : bool :=
  match c with
  | AddLine _ _ _ | AddCircleArc _ _ _ _ => true
  | _ => false
  end.

Definition is_loop (c : call F) : bool :=
  match c with
  | AddCurveLoop _ _ => true
  | _ => false
  end.

Definition is_surface (c : call F) : bool :=
  match c with
  | AddPlaneSurface _ _ => true
  | _ => false
  end.

(** A kernel query: it asks and changes nothing. *)
Definition is_query (c : call F) : bool :=
  match c with
  | GetBoundingBox _ _ | GetBoundary _ | GetType _ _ => true
  | _ => false
  end.

(** The tags of the surfaces created, in order. *)
Fixpoint surface_tags (l : list (call F)) : list Z :=
  match l with
  | [] => []
  | AddPlaneSurface _ t :: l' => t :: surface_tags l'
  | _ :: l' => surface_tags l'
  end.

(** The tags of the points created, in order. *)
Fixpoint point_tags (l : list (call F)) : list Z :=
  match l with
  | [] => []
  | AddPoint _ _ _ _ t :: l' => t :: point_tags l'
  | _ :: l' => point_tags l'
  end.

(** Where the points created lie and the size each carries, in order,
    the tags left out. *)
Fixpoint point_places (l : list (call F)) : list (F * F * F * F) :=
  match l with
  | [] => []
  | AddPoint x y z size _ :: l' => (x, y, z, size) :: point_places l'
  | _ :: l' => point_places l'
  end.

(** The member lists of the physical groups created, in order. *)
Fixpoint group_members (l : list (call F)) : list (list Z) :=
  match l with
  | [] => []
  | AddPhysicalGroup _ tags _ :: l' => tags :: group_members l'
  | _ :: l' => group_members l'
  end.

(** The entity lists handed to the revolutions made, in order. *)
Fixpoint revolved (l : list (call F)) : list (list (Z * Z)) :=
  match l with
  | [] => []
  | Revolve dimtags _ _ _ _ _ _ _ _ :: l' => dimtags :: revolved l'
  | _ :: l' => revolved l'
  end.

(** Entries at even and at odd positions. *)
Fixpoint evens {A} (l : list A) : list A :=
  match l with
  | [] => []
  | x :: l' =>
      x :: match l' with
           | [] => []
           | _ :: l'' => evens l''
           end
  end.

Definition odds {A} (l : list A) : list A :=
  match l with
  | [] => []
  | _ :: l' => evens l'
  end.

(** What [m] adds to the call list, seen through [view], is a prefix of
    [L]; when [m] returns it is all of [L], and the value satisfies [Q]. *)
Definition logs {X} (view : list (call F) -> list X) (L : list X) {A}
    (Q : A -> Prop) (m : M F A) : Prop :=
  forall k, exists evs,
    calls (snd (m k)) = calls k ++ evs
    /\ (exists rest, L = view evs ++ rest)
    /\ forall r, fst (m k) = Ok r -> view evs = L /\ Q r.

(** [m] makes no kernel call and leaves the kernel as it is. *)
Definition silent {A} (m : M F A) : Prop := forall k, snd (m k) = k.

End MoreReading.

Section ShapeReading.
Context {F : Type} `{PyFloat F}.

(** The declaration of a structured surface. *)
Definition is_declaration (c : call F) : bool :=
  match c with
  | SetTransfiniteSurface _ _ _ => true
  | _ => false
  end.

(** [x is not None] *)
Definition present {A} (x : option A) : bool :=
  match x with
  | Some _ => true
  | None => false
  end.

(** The patches that [create_wedge_volumes] is to revolve, each twice,
    in the order of its statements. *)
Definition planned_revolutions (inner_surf outer_surf : Z)
    (inner_bulk_surf outer_bulk_surf : option Z) : list (list (Z * Z)) :=
  let twice (s : option Z) :=
    match s with
    | Some t => [t; t]
    | None => []
    end in
  map (fun t => [(2, t)])
      ([inner_surf; inner_surf; outer_surf; outer_surf]
       ++ twice inner_bulk_surf ++ twice outer_bulk_surf).

(** Two lists of four volumes: the band volumes are there, the bulk
    volumes are there exactly when the bulk patch was given. *)
Definition wedge_shape (inner_bulk_surf outer_bulk_surf : option Z)
    (r : list (option Z) * list (option Z)) : Prop :=
  match r with
  | ([Some _; Some _; ib_plus; ib_minus], [Some _; Some _; ob_plus; ob_minus]) =>
      present ib_plus = present inner_bulk_surf
      /\ present ib_minus = present inner_bulk_surf
      /\ present ob_plus = present outer_bulk_surf
      /\ present ob_minus = present outer_bulk_surf
  | _ => False
  end.

(** A point of the disk lies in the plane z = 0 and carries one of the
    two target sizes. *)
Definition planar_point (h_band h_outer : F) (c : call F) : Prop :=
  match c with
  | AddPoint _ _ z size _ => z = of_int 0 /\ (size = h_band \/ size = h_outer)
  | _ => True
  end.

(** An arc is centred on the point with tag [pc]. *)
Definition centred_on (pc : Z) (c : call F) : Prop :=
  match c with
  | AddCircleArc _ pc' _ _ => pc' = pc
  | _ => True
  end.

(** The tags of the curve loops created, and the loop lists that the
    plane surfaces created are bounded by, both in order. *)
Fixpoint loop_tags (l : list (call F)) : list Z :=
  match l with
  | [] => []
  | AddCurveLoop _ t :: l' => t :: loop_tags l'
  | _ :: l' => loop_tags l'
  end.

Fixpoint surface_wires (l : list (call F)) : list (list Z) :=
  match l with
  | [] => []
  | AddPlaneSurface wires _ :: l' => wires :: surface_wires l'
  | _ :: l' => surface_wires l'
  end.

(** The points where the signed curve [t] starts and ends, read off the
    call that created the curve [abs t]; a curve listed with a negative
    sign is run through backwards. *)
Definition curve_ends (evs : list (call F)) (t : Z) : option (Z * Z) :=
  match filter (creates_curve (Z.abs t)) evs with
  | AddLine p0 p1 _ :: _ => Some (if 0 <? t then (p0, p1) else (p1, p0))
  | AddCircleArc ps _ pe _ :: _ =>
      Some (if 0 <? t then (ps, pe) else (pe, ps))
  | _ => None
  end.

(** Starting at point [start], each curve of the list starts where the
    one before it ended; the point reached at the end. *)
Fixpoint chained (evs : list (call F)) (start : Z) (curves : list Z)
  : option Z :=
  match curves with
  | [] => Some start
  | t :: rest =>
      match curve_ends evs t with
      | Some (p, q) => if p =? start then chained evs q rest else None
      | None => None
      end
  end.

(** The curves form a closed chain: every one of them has been created,
    each starts where the one before it ended, and the last ends where
    the first started. *)
Definition closed_chain (evs : list (call F)) (curves : list Z) : bool :=
  match curves with
  | [] => false
  | t :: _ =>
      match curve_ends evs t with
      | Some (p, _) =>
          match chained evs p curves with
          | Some q => q =? p
          | None => false
          end
      | None => false
      end
  end.

(** The call that created the curve [abs t], if there is one. *)
Definition curve_call (evs : list (call F)) (t : Z) : option (call F) :=
  hd_error (filter (creates_curve (Z.abs t)) evs).

Definition is_line_in (evs : list (call F)) (t : Z) : bool :=
  match curve_call evs t with
  | Some (AddLine _ _ _) => true
  | _ => false
  end.

Definition is_arc_in (evs : list (call F)) (t : Z) : bool :=
  match curve_call evs t with
  | Some (AddCircleArc _ _ _ _) => true
  | _ => false
  end.

(** A structured request whose radial curves are straight lines and
    whose circular curves are circle arcs, all of them created. *)
Definition sorted_request (evs : list (call F)) (c : call F) : Prop :=
  match c with
  | SetTransfinite rad circ _ _ _ _ =>
      forallb (is_line_in evs) rad = true
      /\ forallb (is_arc_in evs) circ = true
  | _ => True
  end.

End ShapeReading.

(* ================================================================== *)
(** * Facts about the monad *)
(* ================================================================== *)

Unset Implicit Arguments.

Section MonadFacts.
Context {F : Type}.

Lemma bind_Ok {A B} {m : M F A} (f : A -> M F B) {k a k1} :
  m k = (Ok a, k1) -> bind m f k = f a k1.
Proof. intros E. unfold bind. now rewrite E. Qed.

Lemma bind_Raise {A B} {m : M F A} (f : A -> M F B) {k e k1} :
  m k = (Raise e, k1) -> bind m f k = (Raise e, k1).
Proof. intros E. unfold bind. now rewrite E. Qed.

Lemma gmsh_eq (i h : bool) (p1 p2 c1 c2 l1 l2 s1 s2 g1 g2 : Z)
    (e1 e2 : list (call F)) :
  p1 = p2 -> c1 = c2 -> l1 = l2 -> s1 = s2 -> g1 = g2 -> e1 = e2 ->
  mkGmsh i h p1 c1 l1 s1 g1 e1 = mkGmsh i h p2 c2 l2 s2 g2 e2.
Proof. congruence. Qed.

Lemma request_eq rad rad' t t' circ circ' si si' so so' nr nc
    (b : option F) :
  rad = rad' -> t = t' -> circ = circ' -> si = si' -> so = so' ->
  [SetTransfinite rad (t :: circ) [(si, "Right"); (so, "Left")] nr nc b]
  = [SetTransfinite rad' (t' :: circ') [(si', "Right"); (so', "Left")]
       nr nc b].
Proof. congruence. Qed.

Lemma surface_eq (l l' s s' : Z) :
  l = l' -> s = s' ->
  @AddPlaneSurface F [l] s = AddPlaneSurface [l'] s'.
Proof. congruence. Qed.

Lemma count_app (p : call F -> bool) l1 l2 :
  count p (l1 ++ l2) = (count p l1 + count p l2)%nat.
Proof. unfold count. now rewrite filter_app, length_app. Qed.

(** ** Calls added by a computation *)

Section Emits.
Variable P : call F -> Prop.

Lemma emits_ret {A} (a : A) : emits P (ret a).
Proof. intros k. exists []. cbn. now rewrite app_nil_r. Qed.

Lemma emits_raise {A} e : emits P (@raise F A e).
Proof. intros k. exists []. cbn. now rewrite app_nil_r. Qed.

Lemma emits_bind {A B} (m : M F A) (f : A -> M F B) :
  emits P m -> (forall a, emits P (f a)) -> emits P (bind m f).
Proof.
  intros Hm Hf k. destruct (Hm k) as (e1 & E1 & F1). unfold bind.
  destruct (m k) as [[a | e] k1]; cbn in E1.
  - destruct (Hf a k1) as (e2 & E2 & F2). exists (e1 ++ e2). split.
    + now rewrite E2, E1, app_assoc.
    + apply Forall_app; auto.
  - exists e1. auto.
Qed.

Lemma emits_try {A} (m h : M F A) :
  emits P m -> emits P h -> emits P (try_except m h).
Proof.
  intros Hm Hh k. destruct (Hm k) as (e1 & E1 & F1). unfold try_except.
  destruct (m k) as [[a | e] k1]; cbn in E1.
  - exists e1. auto.
  - destruct (Hh k1) as (e2 & E2 & F2). exists (e1 ++ e2). split.
    + now rewrite E2, E1, app_assoc.
    + apply Forall_app; auto.
Qed.

Lemma emits_if {A} (c : bool) (m1 m2 : M F A) :
  emits P m1 -> emits P m2 -> emits P (if c then m1 else m2).
Proof. destruct c; auto. Qed.

Lemma emits_for_each {A S} (xs : list A) (body : A -> S -> M F S) s :
  (forall x s', emits P (body x s')) -> emits P (for_each xs body s).
Proof.
  intros Hb. revert s. induction xs as [| x xs IH]; intros s; cbn.
  - apply emits_ret.
  - apply emits_bind; auto.
Qed.

Lemma emits_index {A} (l : list A) i : emits P (index l i).
Proof.
  unfold index. destruct (nth_error l i); [apply emits_ret | apply emits_raise].
Qed.

Lemma emits_local {A} name (v : option A) : emits P (local name v).
Proof. destruct v; [apply emits_ret | apply emits_raise]. Qed.

Lemma emits_one {A} (m : M F A) (c : gmsh F -> call F) :
  (forall k, calls (snd (m k)) = calls k ++ [c k]) ->
  (forall k, P (c k)) -> emits P m.
Proof.
  intros E Hp k. exists [c k].
  split; [apply E | repeat constructor; apply Hp].
Qed.

Lemma emits_isInitialized :
  (forall b, P (IsInitialized b)) -> emits P Gmsh.isInitialized.
Proof.
  intros Hp. now apply emits_one
    with (c := fun k => IsInitialized (initialized k)).
Qed.

Lemma emits_initialize : P Initialize -> emits P Gmsh.initialize.
Proof. intros Hp. now apply emits_one with (c := fun _ => Initialize). Qed.

Lemma emits_getCurrent : P ModelGetCurrent -> emits P Gmsh.model_getCurrent.
Proof. intros Hp. now apply emits_one with (c := fun _ => ModelGetCurrent). Qed.

Lemma emits_model_add name : P (ModelAdd name) -> emits P (Gmsh.model_add name).
Proof. intros Hp. now apply emits_one with (c := fun _ => ModelAdd name). Qed.

Lemma emits_addPoint x y z size :
  (forall t, P (AddPoint x y z size t)) -> emits P (Gmsh.addPoint x y z size).
Proof.
  intros Hp. now apply emits_one
    with (c := fun k => AddPoint x y z size (max_point k + 1)).
Qed.

Lemma emits_addLine p0 p1 :
  (forall t, P (AddLine p0 p1 t)) -> emits P (Gmsh.addLine p0 p1).
Proof.
  intros Hp. now apply emits_one
    with (c := fun k => AddLine p0 p1 (max_curve k + 1)).
Qed.

Lemma emits_addCircleArc ps pc pe :
  (forall t, P (AddCircleArc ps pc pe t)) ->
  emits P (Gmsh.addCircleArc ps pc pe).
Proof.
  intros Hp. now apply emits_one
    with (c := fun k => AddCircleArc ps pc pe (max_curve k + 1)).
Qed.

Lemma emits_addCurveLoop curves :
  (forall t, P (AddCurveLoop curves t)) -> emits P (Gmsh.addCurveLoop curves).
Proof.
  intros Hp. now apply emits_one
    with (c := fun k => AddCurveLoop curves (max_loop k + 1)).
Qed.

Lemma emits_addPlaneSurface wires :
  (forall t, P (AddPlaneSurface wires t)) ->
  emits P (Gmsh.addPlaneSurface wires).
Proof.
  intros Hp. now apply emits_one
    with (c := fun k => AddPlaneSurface wires (max_surface k + 1)).
Qed.

Lemma emits_addPhysicalGroup dim tags :
  (forall t, P (AddPhysicalGroup dim tags t)) ->
  emits P (Gmsh.addPhysicalGroup dim tags).
Proof.
  intros Hp. now apply emits_one
    with (c := fun k => AddPhysicalGroup dim tags (max_group k + 1)).
Qed.

Lemma emits_setPhysicalName dim tag name :
  P (SetPhysicalName dim tag name) ->
  emits P (Gmsh.setPhysicalName dim tag name).
Proof.
  intros Hp. now apply emits_one
    with (c := fun _ => SetPhysicalName dim tag name).
Qed.

Lemma emits_synchronize : P GeoSynchronize -> emits P Gmsh.synchronize.
Proof. intros Hp. now apply emits_one with (c := fun _ => GeoSynchronize). Qed.

Lemma emits_setTransfiniteSurface tag arr corners :
  P (SetTransfiniteSurface tag arr corners) ->
  emits P (Gmsh.setTransfiniteSurface tag arr corners).
Proof.
  intros Hp. now apply emits_one
    with (c := fun _ => SetTransfiniteSurface tag arr corners).
Qed.

Lemma emits_set_transfinite rad circ surfs nr nc bump :
  P (SetTransfinite rad circ surfs nr nc bump) ->
  emits P (set_transfinite rad circ surfs nr nc bump).
Proof.
  intros Hp. now apply emits_one
    with (c := fun _ => SetTransfinite rad circ surfs nr nc bump).
Qed.

End Emits.
End MonadFacts.

(** Walks a computation built from the kernel entry points, leaving the
    conditions on the calls themselves. *)
Ltac emits_step :=
  lazymatch goal with
  | |- emits _ (ret _) => apply emits_ret
  | |- emits _ (raise _) => apply emits_raise
  | |- emits _ (index _ _) => apply emits_index
  | |- emits _ (local _ _) => apply emits_local
  | |- emits _ (bind _ _) => apply emits_bind; [ | intro ]
  | |- emits _ (try_except _ _) => apply emits_try
  | |- emits _ (if _ then _ else _) => apply emits_if
  | |- emits _ (for_each _ _ _) => apply emits_for_each; intros
  | |- emits _ Gmsh.isInitialized => apply emits_isInitialized; intros
  | |- emits _ Gmsh.initialize => apply emits_initialize
  | |- emits _ Gmsh.model_getCurrent => apply emits_getCurrent
  | |- emits _ (Gmsh.model_add _) => apply emits_model_add
  | |- emits _ (Gmsh.addPoint _ _ _ _) => apply emits_addPoint; intros
  | |- emits _ (Gmsh.addLine _ _) => apply emits_addLine; intros
  | |- emits _ (Gmsh.addCircleArc _ _ _) => apply emits_addCircleArc; intros
  | |- emits _ (Gmsh.addCurveLoop _) => apply emits_addCurveLoop; intros
  | |- emits _ (Gmsh.addPlaneSurface _) =>
      apply emits_addPlaneSurface; intros
  | |- emits _ (Gmsh.addPhysicalGroup _ _) =>
      apply emits_addPhysicalGroup; intros
  | |- emits _ (Gmsh.setPhysicalName _ _ _) => apply emits_setPhysicalName
  | |- emits _ Gmsh.synchronize => apply emits_synchronize
  | |- emits _ (Gmsh.setTransfiniteSurface _ _ _) =>
      apply emits_setTransfiniteSurface
  | |- emits _ (set_transfinite _ _ _ _ _ _) => apply emits_set_transfinite
  end.

Ltac emits_walk := repeat (cbv zeta; emits_step).

(* ================================================================== *)
(** * Facts about core_disk.py *)
(* ================================================================== *)

Module DiskFacts.
Import CoreDisk.
Local Open Scope py_scope.

Section Startup.
Context {F : Type} `{PyFloat F}.

Lemma startup_spec (k : gmsh F) : startup k = (Ok tt, started k).
Proof.
  destruct k as [ini hm mp mc ml ms mg cs]. unfold started, startup_calls.
  destruct ini, hm; cbn; unfold Gmsh.model_add, Gmsh.record; cbn;
    rewrite <- ?app_assoc; reflexivity.
Qed.

Lemma startup_calls_lifecycle (k : gmsh F) :
  forallb is_lifecycle (startup_calls k) = true.
Proof.
  unfold startup_calls. destruct (initialized k), (has_model k); reflexivity.
Qed.

Lemma startup_calls_filter (p : call F -> bool) (k : gmsh F) :
  (forall c, is_lifecycle c = true -> p c = false) ->
  filter p (startup_calls k) = [].
Proof.
  intros Hp. unfold startup_calls.
  destruct (initialized k), (has_model k); cbn; rewrite ?Hp; reflexivity.
Qed.

Lemma parameter_checks_pass a rInner rOuter (k : gmsh F) :
  flt (fsub rInner a) (of_int 0) = false ->
  fgt (fadd rInner a) rOuter = false ->
  parameter_checks a rInner rOuter k = (Ok tt, k).
Proof. intros E1 E2. unfold parameter_checks, bind. now rewrite E1, E2. Qed.

Lemma parameter_checks_reject a rInner rOuter (k : gmsh F) :
  flt (fsub rInner a) (of_int 0) = true \/ fgt (fadd rInner a) rOuter = true ->
  exists msg,
    parameter_checks a rInner rOuter k = (Raise (ValueError msg), k).
Proof.
  intros Hbad. unfold parameter_checks, bind.
  destruct (flt (fsub rInner a) (of_int 0)) eqn:E1; cbn.
  - eexists; reflexivity.
  - destruct Hbad as [Hb | Hb]; [discriminate |]. rewrite Hb.
    eexists; reflexivity.
Qed.

(** The division counts are computed without touching the kernel. *)
Lemma n_div_radial_spec a h_band (k : gmsh F) :
  n_div_radial a h_band k =
  (if feq h_band (of_int 0) then Raise ZeroDivisionError
   else match ceil_int (fdiv (fmul (of_int 2) a) h_band) with
        | Some n => Ok (Z.max 4 n)
        | None =>
            Raise (if is_nan (fdiv (fmul (of_int 2) a) h_band)
                   then ValueError "cannot convert float NaN to integer"
                   else OverflowError)
        end, k).
Proof.
  unfold n_div_radial, div, int_ceil, bind.
  destruct (feq h_band (of_int 0)); cbn; [reflexivity |].
  destruct (ceil_int (fdiv (fmul (of_int 2) a) h_band)); reflexivity.
Qed.

Lemma n_div_angular_spec h_band (k : gmsh F) :
  n_div_angular h_band k =
  (if feq h_band (of_int 0) then Raise ZeroDivisionError
   else match ceil_int (fdiv (fmul lit_half math_pi) h_band) with
        | Some n => Ok (Z.max 4 n)
        | None =>
            Raise (if is_nan (fdiv (fmul lit_half math_pi) h_band)
                   then ValueError "cannot convert float NaN to integer"
                   else OverflowError)
        end, k).
Proof.
  unfold n_div_angular, div, int_ceil, bind.
  destruct (feq h_band (of_int 0)); cbn; [reflexivity |].
  destruct (ceil_int (fdiv (fmul lit_half math_pi) h_band)); reflexivity.
Qed.

Lemma n_div_radial_ok a h_band c (k : gmsh F) :
  feq h_band (of_int 0) = false ->
  ceil_int (fdiv (fmul (of_int 2) a) h_band) = Some c ->
  n_div_radial a h_band k = (Ok (Z.max 4 c), k).
Proof. intros E1 E2. now rewrite n_div_radial_spec, E1, E2. Qed.

Lemma n_div_angular_ok h_band c (k : gmsh F) :
  feq h_band (of_int 0) = false ->
  ceil_int (fdiv (fmul lit_half math_pi) h_band) = Some c ->
  n_div_angular h_band k = (Ok (Z.max 4 c), k).
Proof. intros E1 E2. now rewrite n_div_angular_spec, E1, E2. Qed.

End Startup.

Section Rejection.
Context {F : Type} `{PyFloat F}.
Variable ensure_gmsh_available : M F unit.

(** C2, as the code has it: for an invalid combination
    ([rInner - a < 0] or [rInner + a > rOuter]) the call raises
    [ValueError], with the message of the first check that fails, before
    any point, curve, loop or surface is created.  By then the startup
    block of lines 40-45 has run, and the calls it has made are exactly
    these, in this order: is-initialized; initialize, if and only if the
    answer was no; get-current-model; add-model("TransfiniteDisk"), if
    and only if get-current-model raised, which the kernel of this
    development does for an initialized kernel without a current model.
    The kernel is left initialized and with a current model; no tag
    counter has moved. *)
Theorem invalid_band_rejected_before_geometry
    a rInner rOuter h_band h_outer n_sectors
    InnerMaterialName OuterMaterialName InterfaceName OuterBoundaryName
    (k k1 : gmsh F) :
  ensure_gmsh_available k = (Ok tt, k1) ->
  flt (fsub rInner a) (of_int 0) = true
  \/ fgt (fadd rInner a) rOuter = true ->
  exists msg k2 evs,
    Transfinite_Disk ensure_gmsh_available a rInner rOuter h_band h_outer
      n_sectors InnerMaterialName OuterMaterialName InterfaceName
      OuterBoundaryName k = (Raise (ValueError msg), k2)
    /\ msg = (if flt (fsub rInner a) (of_int 0)
              then "rInner - a must be nonnegative."
              else "rInner + a must be <= rOuter.")
    /\ calls k2 = calls k1 ++ evs
    /\ evs = [IsInitialized (initialized k1)]
             ++ (if initialized k1 then [] else [Initialize])
             ++ [ModelGetCurrent]
             ++ (if initialized k1 && negb (has_model k1)
                 then [ModelAdd "TransfiniteDisk"] else [])
    /\ evs <> []
    /\ forallb is_lifecycle evs = true
    /\ count is_geometry evs = 0%nat
    /\ max_point k2 = max_point k1 /\ max_curve k2 = max_curve k1
    /\ max_loop k2 = max_loop k1 /\ max_surface k2 = max_surface k1
    /\ max_group k2 = max_group k1
    /\ initialized k2 = true /\ has_model k2 = true.
Proof.
  intros He Hbad.
  assert (Hc : parameter_checks a rInner rOuter (started k1)
               = (Raise (ValueError
                           (if flt (fsub rInner a) (of_int 0)
                            then "rInner - a must be nonnegative."
                            else "rInner + a must be <= rOuter.")),
                  started k1)).
  { unfold parameter_checks, bind.
    destruct (flt (fsub rInner a) (of_int 0)) eqn:E1; cbn; [reflexivity |].
    destruct Hbad as [Hb | Hb]; [discriminate |]. rewrite Hb. reflexivity. }
  eexists _, (started k1), (startup_calls k1). split.
  { unfold Transfinite_Disk.
    rewrite (bind_Ok _ He), (bind_Ok _ (startup_spec k1)).
    rewrite (bind_Raise _ Hc). reflexivity. }
  split; [reflexivity |]. split; [reflexivity |].
  split.
  { unfold startup_calls.
    destruct (initialized k1), (has_model k1); reflexivity. }
  repeat split.
  - unfold startup_calls. discriminate.
  - apply startup_calls_lifecycle.
  - unfold count. rewrite startup_calls_filter; [reflexivity |].
    intros c Hc'. destruct c; try discriminate Hc'; reflexivity.
Qed.

End Rejection.

(** Witness: half-thickness 2 around radius 1, on a kernel nobody has
    started. *)
Lemma invalid_band_rejected_before_geometry_witness :
  exists msg k2 evs,
    Transfinite_Disk gmsh_present 2%float 1%float 3%float f0_1 f0_5
      4 "InnerMaterial" "OuterMaterial" "Interface" "Outer" fresh
    = (Raise (ValueError msg), k2)
    /\ msg = "rInner - a must be nonnegative."
    /\ calls k2 = calls (@fresh float) ++ evs
    /\ evs = [IsInitialized false; Initialize; ModelGetCurrent]
    /\ evs <> []
    /\ forallb is_lifecycle evs = true
    /\ count is_geometry evs = 0%nat
    /\ max_point k2 = max_point (@fresh float)
    /\ max_curve k2 = max_curve (@fresh float)
    /\ max_loop k2 = max_loop (@fresh float)
    /\ max_surface k2 = max_surface (@fresh float)
    /\ max_group k2 = max_group (@fresh float)
    /\ initialized k2 = true /\ has_model k2 = true.
Proof.
  exact (invalid_band_rejected_before_geometry gmsh_present
           2%float 1%float 3%float f0_1 f0_5 4
           "InnerMaterial" "OuterMaterial" "Interface" "Outer"
           fresh fresh eq_refl (or_introl eq_refl)).
Defined.

(** C2 as the spec words it does not hold: on a kernel nobody has
    started, the rejected call has already asked the kernel three things
    and left it initialized. *)
Lemma rejected_call_has_touched_the_kernel :
  let run := Transfinite_Disk gmsh_present 2%float 1%float 3%float
               f0_1 f0_5 4 "InnerMaterial" "OuterMaterial"
               "Interface" "Outer" fresh in
  fst run = Raise (ValueError "rInner - a must be nonnegative.")
  /\ calls (snd run) = [IsInitialized false; Initialize; ModelGetCurrent]
  /\ initialized (snd run) = true
  /\ snd run <> fresh.
Proof.
  vm_compute. repeat split. discriminate.
Qed.

(* ------------------------------------------------------------------ *)
(** ** One sector *)
(* ------------------------------------------------------------------ *)

(** Settles the tag comparisons left in a goal by arithmetic. *)
Ltac decide_eqb :=
  repeat match goal with
  | |- context [Z.eqb ?x ?y] =>
      first [ replace (Z.eqb x y) with true
                by (symmetry; apply Z.eqb_eq; lia)
            | replace (Z.eqb x y) with false
                by (symmetry; apply Z.eqb_neq; lia) ]
  end.

Section Sector.
Context {F : Type} `{PyFloat F}.
Variables a rInner rOuter h_band h_outer : F.
Variables ndr nda p_center : Z.

Local Notation "'sector_at'" :=
  (sector a rInner rOuter h_band h_outer ndr nda p_center 4).
Local Notation "'calls_at'" :=
  (sector_calls a rInner rOuter h_band h_outer ndr nda p_center).
Local Notation "'bulk'" := (flt (fadd a rInner) rOuter).

(** The degenerate branch: the three-curve inner band is built, the outer
    band too, and [curves_ib[3]] is then out of range. *)
Lemma sector_degenerate i fr (k : gmsh F) :
  fgt (fsub rInner a) (of_int 0) = false ->
  feq rInner a = true ->
  exists k' evs,
    sector_at i fr k = (Raise IndexError, k')
    /\ calls k' = calls k ++ evs
    /\ sectors_built evs = 0%nat.
Proof.
  intros Hnd Hdeg. destruct k as [ini hm mp mc ml ms mg cs].
  unfold sector, bind. rewrite Hnd, Hdeg.
  destruct bulk; cbn -[Z.add]; unfold Gmsh.record; cbn -[Z.add];
    do 2 eexists; (split; [reflexivity |]); cbn -[Z.add];
    rewrite <- !app_assoc; (split; [reflexivity |]); reflexivity.
Qed.

Hypothesis Hnd : fgt (fsub rInner a) (of_int 0) = true.

(** With [rInner - a > 0] a sector runs to its end. *)
Lemma sector_nondegenerate i fr (k : gmsh F) :
  exists fr',
    sector_at i fr k =
    (Ok fr',
     mkGmsh (initialized k) (has_model k) (max_point k + 8)
       (max_curve k + curves_per_sector bulk)
       (max_loop k + patches_per_sector bulk)
       (max_surface k + patches_per_sector bulk) (max_group k)
       (calls k ++ calls_at (max_point k) (max_curve k) (max_loop k)
                            (max_surface k) i fr)).
Proof.
  destruct k as [ini hm mp mc ml ms mg cs].
  unfold sector_calls, sector, bind. rewrite Hnd.
  destruct bulk; cbn -[Z.add]; unfold ret, Gmsh.record; cbn -[Z.add];
    eexists; (apply f_equal2; [reflexivity |]); apply gmsh_eq; try lia;
    rewrite <- !app_assoc; reflexivity.
Qed.

Ltac open_sector :=
  unfold sector_calls, sector, bind; rewrite Hnd;
  destruct bulk; cbn -[Z.add Z.opp]; unfold curves_per_sector in *.

Lemma sector_creates_interface mp mc ml ms i fr :
  0 <= mc ->
  filter (creates_curve (mc + 2)) (calls_at mp mc ml ms i fr)
  = [AddCircleArc (mp + 3) p_center (mp + 4) (mc + 2)].
Proof.
  intros Hmc. open_sector; decide_eqb; cbn -[Z.add];
    f_equal; f_equal; lia.
Qed.

Lemma sector_creates_elsewhere mp mc ml ms i fr t :
  t <= mc \/ mc + curves_per_sector bulk < t ->
  filter (creates_curve t) (calls_at mp mc ml ms i fr) = [].
Proof.
  intros Ht. open_sector; decide_eqb; reflexivity.
Qed.

Lemma sector_loop_positive mp mc ml ms i fr :
  0 <= mc ->
  filter (loop_lists (mc + 2)) (calls_at mp mc ml ms i fr)
  = [AddCurveLoop [mc + 1; mc + 2; mc + 3; mc + 4] (ml + 1)].
Proof.
  intros Hmc. open_sector; decide_eqb; cbn -[Z.add];
    f_equal; f_equal; try lia; repeat (f_equal; try lia).
Qed.

Lemma sector_loop_negative mp mc ml ms i fr :
  0 <= mc ->
  filter (loop_lists (- (mc + 2))) (calls_at mp mc ml ms i fr)
  = [AddCurveLoop [mc + 5 + 2; mc + 5 + 3; mc + 5 + 4; - (mc + 2)] (ml + 3)].
Proof.
  intros Hmc. open_sector; decide_eqb; cbn -[Z.add Z.opp];
    f_equal; f_equal; try lia; repeat (f_equal; try lia).
Qed.

Lemma sector_loop_elsewhere mp mc ml ms i fr x :
  0 <= mc ->
  Z.abs x <= mc \/ mc + curves_per_sector bulk < Z.abs x ->
  filter (loop_lists x) (calls_at mp mc ml ms i fr) = [].
Proof.
  intros Hmc Hx. open_sector; decide_eqb; reflexivity.
Qed.

Lemma sector_band_surfaces mp mc ml ms i fr :
  In (AddPlaneSurface [ml + 1] (ms + 1)) (calls_at mp mc ml ms i fr)
  /\ In (AddPlaneSurface [ml + 3] (ms + 3)) (calls_at mp mc ml ms i fr).
Proof.
  open_sector.
  all: split; repeat first [ left; apply surface_eq; lia | right ].
Qed.

Lemma sector_request mp mc ml ms i fr :
  exists rad circ,
    filter is_request (calls_at mp mc ml ms i fr)
    = [SetTransfinite rad (mc + 2 :: circ)
         [(ms + 1, "Right"); (ms + 3, "Left")] ndr nda None].
Proof.
  open_sector; do 2 eexists; apply request_eq; try reflexivity; lia.
Qed.

End Sector.

(* ------------------------------------------------------------------ *)
(** ** The first sector, branch by branch *)
(* ------------------------------------------------------------------ *)

Section SectorBranches.
Context {F : Type} `{PyFloat F}.
Variables a rInner rOuter h_band h_outer : F.
Variables ndr nda p_center : Z.

Local Notation "'sector_at'" :=
  (sector a rInner rOuter h_band h_outer ndr nda p_center 4).
Local Notation "'calls_at'" :=
  (sector_calls a rInner rOuter h_band h_outer ndr nda p_center).
Local Notation "'bulk'" := (flt (fadd a rInner) rOuter).

Lemma point_eq (x y z s : F) (t t' : Z) :
  t = t' -> AddPoint x y z s t = AddPoint x y z s t'.
Proof. congruence. Qed.

Lemma placed_at_radius_incl (l l' : list (call F)) r p :
  (forall c, In c l -> In c l') ->
  placed_at_radius l r p -> placed_at_radius l' r p.
Proof.
  intros Hin (theta & size & Hp). exists theta, size. apply Hin, Hp.
Qed.

Section PositiveGap.
Hypothesis Hnd : fgt (fsub rInner a) (of_int 0) = true.

(** Lines 78-85: the third and the fourth point of a sector are placed
    at radius [rInner]. *)
Lemma sector_mid_points mp mc ml ms i fr :
  placed_at_radius (calls_at mp mc ml ms i fr) rInner (mp + 3)
  /\ placed_at_radius (calls_at mp mc ml ms i fr) rInner (mp + 4).
Proof.
  unfold sector_calls, sector, bind; rewrite Hnd;
    destruct bulk; cbn -[Z.add Z.opp].
  all: split; do 2 eexists;
    repeat first [ left; apply point_eq; lia | right ].
Qed.

End PositiveGap.

Section EqualRadii.
Hypothesis Hnd : fgt (fsub rInner a) (of_int 0) = false.
Hypothesis Hdeg : feq rInner a = true.

Ltac open_degenerate :=
  unfold sector_calls, sector, bind; rewrite Hnd, Hdeg;
  destruct bulk; cbn -[Z.add Z.opp].

(** The run of a sector with [rInner = a], in the terms of
    [sector_calls]. *)
Lemma degenerate_sector_run i fr (k : gmsh F) :
  exists k',
    sector_at i fr k = (Raise IndexError, k')
    /\ calls k' = calls k ++ calls_at (max_point k) (max_curve k)
                               (max_loop k) (max_surface k) i fr.
Proof.
  destruct k as [ini hm mp mc ml ms mg cs].
  unfold sector_calls, sector, bind. rewrite Hnd, Hdeg.
  destruct bulk; cbn -[Z.add]; unfold Gmsh.record; cbn -[Z.add];
    eexists; (split; [reflexivity |]); cbn -[Z.add];
    rewrite <- !app_assoc; reflexivity.
Qed.

Lemma degenerate_mid_points mp mc ml ms i fr :
  placed_at_radius (calls_at mp mc ml ms i fr) rInner (mp + 3)
  /\ placed_at_radius (calls_at mp mc ml ms i fr) rInner (mp + 4).
Proof.
  open_degenerate.
  all: split; do 2 eexists;
    repeat first [ left; apply point_eq; lia | right ].
Qed.

Lemma degenerate_creates_interface mp mc ml ms i fr :
  0 <= mc ->
  filter (creates_curve (mc + 2)) (calls_at mp mc ml ms i fr)
  = [AddCircleArc (mp + 3) p_center (mp + 4) (mc + 2)].
Proof.
  intros Hmc. open_degenerate; decide_eqb; cbn -[Z.add];
    f_equal; f_equal; lia.
Qed.

Lemma degenerate_loop_positive mp mc ml ms i fr :
  0 <= mc ->
  filter (loop_lists (mc + 2)) (calls_at mp mc ml ms i fr)
  = [AddCurveLoop [mc + 1; mc + 2; mc + 3] (ml + 1)].
Proof.
  intros Hmc. open_degenerate; decide_eqb; cbn -[Z.add];
    f_equal; f_equal; try lia; repeat (f_equal; try lia).
Qed.

Lemma degenerate_loop_negative mp mc ml ms i fr :
  0 <= mc ->
  filter (loop_lists (- (mc + 2))) (calls_at mp mc ml ms i fr)
  = [AddCurveLoop [mc + 4; mc + 5; mc + 6; - (mc + 2)] (ml + 2)].
Proof.
  intros Hmc. open_degenerate; decide_eqb; cbn -[Z.add Z.opp];
    f_equal; f_equal; try lia; repeat (f_equal; try lia).
Qed.

Lemma degenerate_band_surfaces mp mc ml ms i fr :
  In (AddPlaneSurface [ml + 1] (ms + 1)) (calls_at mp mc ml ms i fr)
  /\ In (AddPlaneSurface [ml + 2] (ms + 2)) (calls_at mp mc ml ms i fr).
Proof.
  open_degenerate.
  all: split; repeat first [ left; apply surface_eq; lia | right ].
Qed.

Lemma degenerate_no_request mp mc ml ms i fr :
  filter is_request (calls_at mp mc ml ms i fr) = [].
Proof. open_degenerate; reflexivity. Qed.

End EqualRadii.

Section NoBranch.
Hypothesis Hnd : fgt (fsub rInner a) (of_int 0) = false.
Hypothesis Hdeg : feq rInner a = false.

(** Neither inner-band branch runs: the first sector has no
    [arc_interface] to read. *)
Lemma undefined_sector_run i is_ os_ cib sib (k : gmsh F) :
  exists k' evs,
    sector_at i (mkFrame is_ os_ cib None sib) k
    = (Raise (UnboundLocalError "arc_interface"), k')
    /\ calls k' = calls k ++ evs
    /\ filter is_loop evs = []
    /\ filter is_request evs = [].
Proof.
  destruct k as [ini hm mp mc ml ms mg cs].
  unfold sector, bind. rewrite Hnd, Hdeg.
  cbn -[Z.add]; unfold Gmsh.record; cbn -[Z.add];
    do 2 eexists; (split; [reflexivity |]); cbn -[Z.add];
    rewrite <- !app_assoc; (split; [reflexivity |]); split; reflexivity.
Qed.

End NoBranch.

End SectorBranches.

(* ------------------------------------------------------------------ *)
(** ** A whole run with [rInner - a > 0] *)
(* ------------------------------------------------------------------ *)

Section WholeRun.
Context {F : Type} `{PyFloat F}.
Variables a rInner rOuter h_band h_outer : F.
Variable n_sectors : Z.
Variables InnerMaterialName OuterMaterialName : string.
Variables InterfaceName OuterBoundaryName : string.
Variables c1 c2 : Z.

Hypothesis Hh : feq h_band (of_int 0) = false.
Hypothesis Hc1 : ceil_int (fdiv (fmul (of_int 2) a) h_band) = Some c1.
Hypothesis Hc2 : ceil_int (fdiv (fmul lit_half math_pi) h_band) = Some c2.
Hypothesis Hnd : fgt (fsub rInner a) (of_int 0) = true.

Local Notation "'bulk'" := (flt (fadd a rInner) rOuter).
Local Notation "'nc'" := (curves_per_sector bulk).
Local Notation "'np'" := (patches_per_sector bulk).
Local Notation "'calls_at'" :=
  (sector_calls a rInner rOuter h_band h_outer (Z.max 4 c1) (Z.max 4 c2)).

Local Notation "'run_sector'" :=
  (sector a rInner rOuter h_band h_outer (Z.max 4 c1) (Z.max 4 c2)).

Ltac next_sector pc i f E :=
  match goal with
  | E' : _ = (Ok ?f', ?k') |- _ =>
      destruct (sector_nondegenerate a rInner rOuter h_band h_outer
                  (Z.max 4 c1) (Z.max 4 c2) pc Hnd i f' k') as [f E];
      cbn [initialized has_model max_point max_curve max_loop max_surface
           max_group calls] in E;
      revert E'
  end.

(** The four sectors in a row. *)
Lemma four_sectors pc f0 (k : gmsh F) :
  exists f1 f2 f3 f4,
    let mp := max_point k in
    let mc := max_curve k in
    let ml := max_loop k in
    let ms := max_surface k in
    for_each (range 4) (run_sector pc 4) f0 k
    = (Ok f4,
       mkGmsh (initialized k) (has_model k)
         (mp + 8 + 8 + 8 + 8) (mc + nc + nc + nc + nc)
         (ml + np + np + np + np) (ms + np + np + np + np) (max_group k)
         (calls k ++
          calls_at pc mp mc ml ms 0 f0 ++
          calls_at pc (mp + 8) (mc + nc) (ml + np) (ms + np) 1 f1 ++
          calls_at pc (mp + 8 + 8) (mc + nc + nc) (ml + np + np)
                   (ms + np + np) 2 f2 ++
          calls_at pc (mp + 8 + 8 + 8) (mc + nc + nc + nc)
                   (ml + np + np + np) (ms + np + np + np) 3 f3)).
Proof.
  destruct (sector_nondegenerate a rInner rOuter h_band h_outer
              (Z.max 4 c1) (Z.max 4 c2) pc Hnd 0 f0 k) as [f1 E0].
  next_sector pc 1 f2 E1. next_sector pc 2 f3 E2. next_sector pc 3 f4 E3.
  intros E2 E1 E0.
  exists f1, f2, f3, f4. cbv zeta.
  change (range 4) with [0; 1; 2; 3]. cbn [for_each].
  rewrite (bind_Ok _ E0), (bind_Ok _ E1), (bind_Ok _ E2), (bind_Ok _ E3).
  unfold ret. apply f_equal2; [reflexivity |].
  apply gmsh_eq; try reflexivity. now rewrite <- !app_assoc.
Qed.

(** The calls of a whole run: the centre point, the four sectors, and
    the group calls. *)
Lemma decompose_nondegenerate (k : gmsh F) :
  exists f0 f1 f2 f3 f4 center,
    let mp := max_point k + 1 in
    let mc := max_curve k in
    let ml := max_loop k in
    let ms := max_surface k in
    decompose a rInner rOuter h_band h_outer n_sectors InnerMaterialName
      OuterMaterialName InterfaceName OuterBoundaryName k
    = (Ok tt,
       mkGmsh (initialized k) (has_model k)
         (mp + 8 + 8 + 8 + 8) (mc + nc + nc + nc + nc)
         (ml + np + np + np + np) (ms + np + np + np + np)
         (max_group k + 1 + 1)
         (calls k ++
          [center] ++
          (calls_at mp mp mc ml ms 0 f0 ++
           calls_at mp (mp + 8) (mc + nc) (ml + np) (ms + np) 1 f1 ++
           calls_at mp (mp + 8 + 8) (mc + nc + nc) (ml + np + np)
                    (ms + np + np) 2 f2 ++
           calls_at mp (mp + 8 + 8 + 8) (mc + nc + nc + nc)
                    (ml + np + np + np) (ms + np + np + np) 3 f3) ++
          [AddPhysicalGroup 2 (inner_surfaces f4) (max_group k + 1);
           SetPhysicalName 2 (max_group k + 1) InnerMaterialName;
           AddPhysicalGroup 2 (outer_surfaces f4) (max_group k + 1 + 1);
           SetPhysicalName 2 (max_group k + 1 + 1) OuterMaterialName;
           GeoSynchronize]))
    /\ is_request center = false
    /\ (forall t, creates_curve t center = false)
    /\ (forall x, loop_lists x center = false).
Proof.
  destruct k as [ini hm mp mc ml ms mg cs].
  set (center := AddPoint (of_int 0) (of_int 0) (of_int 0)
                   (meshSizeAt a rInner h_band h_outer (of_int 0) (of_int 0))
                   (mp + 1)).
  set (f0 := mkFrame [] [] None None None).
  destruct (four_sectors (mp + 1) f0
              (mkGmsh ini hm (mp + 1) mc ml ms mg (cs ++ [center])))
    as (f1 & f2 & f3 & f4 & E).
  cbv zeta in E.
  cbn [initialized has_model max_point max_curve max_loop max_surface
       max_group calls] in E.
  exists f0, f1, f2, f3, f4, center. split; [| repeat split].
  cbv zeta.
  cbn [initialized has_model max_point max_curve max_loop max_surface
       max_group calls].
  unfold decompose.
  rewrite (bind_Ok _ (n_div_radial_ok _ _ _ _ Hh Hc1)).
  rewrite (bind_Ok _ (n_div_angular_ok _ _ _ Hh Hc2)).
  unfold bind at 1. unfold Gmsh.addPoint at 1.
  cbn [max_point initialized has_model max_curve max_loop max_surface
       max_group calls].
  fold center. rewrite (bind_Ok _ E).
  unfold bind, Gmsh.addPhysicalGroup, Gmsh.setPhysicalName,
    Gmsh.synchronize, Gmsh.record.
  cbn [initialized has_model max_point max_curve max_loop max_surface
       max_group calls].
  apply f_equal2; [reflexivity |]. apply gmsh_eq; try reflexivity.
  rewrite <- !app_assoc. reflexivity.
Qed.

End WholeRun.

(* ------------------------------------------------------------------ *)
(** ** The interface arc *)
(* ------------------------------------------------------------------ *)


(** Arithmetic on tags, with the sector's curve count kept folded. *)
Ltac tag_arith :=
  repeat match goal with
         | n := curves_per_sector _ |- _ => progress fold n
         end;
  lia.

(** One sector's request: its arc is found in that sector's calls and in
    no other's. *)
Ltac interface_case Hnd Hcurve Hloop Hsurf mpj mcj pick :=
  split; [lia |];
  split;
  [ do 3 eexists; rewrite Hcurve, !filter_app;
    rewrite (sector_creates_interface _ _ _ _ _ _ _ _ Hnd mpj mcj)
      by tag_arith;
    rewrite !(sector_creates_elsewhere _ _ _ _ _ _ _ _ Hnd) by tag_arith;
    cbn -[sector_calls]; reflexivity
  | do 4 eexists;
    split;
    [ rewrite Hloop, !filter_app;
      rewrite (sector_loop_positive _ _ _ _ _ _ _ _ Hnd mpj mcj)
        by tag_arith;
      rewrite !(sector_loop_elsewhere _ _ _ _ _ _ _ _ Hnd) by tag_arith;
      cbn -[sector_calls]; reflexivity
    | split;
      [ rewrite Hloop, !filter_app;
        rewrite (sector_loop_negative _ _ _ _ _ _ _ _ Hnd mpj mcj)
          by tag_arith;
        rewrite !(sector_loop_elsewhere _ _ _ _ _ _ _ _ Hnd) by tag_arith;
        cbn -[sector_calls]; reflexivity
      | split; [lia |];
        split; rewrite !in_app_iff;
        right; right; left; pick;
        [ exact (proj1 (Hsurf mpj mcj _ _ _ _))
        | exact (proj2 (Hsurf mpj mcj _ _ _ _)) ] ] ] ].

(** The arc of one sector's interface joins the sector's third and fourth
    point, which lie at radius [rInner]. *)
Ltac radius_case Hnd Hcurve Hmid mpj mcj pick :=
  exists (mpj + 3); eexists; exists (mpj + 4);
  split;
  [ rewrite Hcurve, !filter_app;
    rewrite (sector_creates_interface _ _ _ _ _ _ _ _ Hnd mpj mcj)
      by tag_arith;
    rewrite !(sector_creates_elsewhere _ _ _ _ _ _ _ _ Hnd) by tag_arith;
    cbn -[sector_calls]; reflexivity
  | split;
    (eapply placed_at_radius_incl;
     [| first [ eapply (proj1 (Hmid mpj mcj _ _ _ _))
              | eapply (proj2 (Hmid mpj mcj _ _ _ _)) ] ];
     let c := fresh "c" in
     let Hc := fresh "Hc" in
     intros c Hc; rewrite !in_app_iff; right; right; left; pick;
     exact Hc) ].

Section Interface.
Context {F : Type} `{PyFloat F}.
Variable ensure_gmsh_available : M F unit.

#[local] Opaque sector_calls.

Lemma curves_per_sector_bounds (b : bool) :
  9 <= curves_per_sector b <= 12.
Proof. destruct b; cbn; lia. Qed.

Lemma request_is_request (c : call F) t si so :
  request_of c = Some (t, si, so) -> is_request c = true.
Proof. destruct c; cbn; congruence. Qed.

Lemma lifecycle_not_request (c : call F) :
  is_lifecycle c = true -> is_request c = false.
Proof. now destruct c. Qed.

Lemma lifecycle_not_curve t (c : call F) :
  is_lifecycle c = true -> creates_curve t c = false.
Proof. now destruct c. Qed.

Lemma lifecycle_not_loop x (c : call F) :
  is_lifecycle c = true -> loop_lists x c = false.
Proof. now destruct c. Qed.

Lemma lifecycle_not_a_loop (c : call F) :
  is_lifecycle c = true -> is_loop c = false.
Proof. intros Hc. destruct c; try discriminate Hc; reflexivity. Qed.



End Interface.


(* ------------------------------------------------------------------ *)
(** ** The degenerate disk *)
(* ------------------------------------------------------------------ *)

Section Degenerate.
Context {F : Type} `{PyFloat F}.
Variable ensure_gmsh_available : M F unit.

(** C3 on the code: with [rInner = a] (and [rInner - a > 0] false) a
    call that passes the checks does not succeed.  The first sector
    builds its three-curve inner band and its outer band, and the
    request for structured constraints then reads [curves_ib[3]], which
    the three-curve list does not have: [IndexError], with no request
    made for any band patch. *)
Theorem degenerate_disk_raises_index_error
    a rInner rOuter h_band h_outer n_sectors
    InnerMaterialName OuterMaterialName InterfaceName OuterBoundaryName
    c1 c2 (k k1 : gmsh F) :
  ensure_gmsh_available k = (Ok tt, k1) ->
  flt (fsub rInner a) (of_int 0) = false ->
  fgt (fadd rInner a) rOuter = false ->
  feq h_band (of_int 0) = false ->
  ceil_int (fdiv (fmul (of_int 2) a) h_band) = Some c1 ->
  ceil_int (fdiv (fmul lit_half math_pi) h_band) = Some c2 ->
  fgt (fsub rInner a) (of_int 0) = false ->
  feq rInner a = true ->
  exists k2 evs,
    Transfinite_Disk ensure_gmsh_available a rInner rOuter h_band h_outer
      n_sectors InnerMaterialName OuterMaterialName InterfaceName
      OuterBoundaryName k = (Raise IndexError, k2)
    /\ calls k2 = calls k1 ++ evs
    /\ sectors_built evs = 0%nat.
Proof.
  intros He Hv1 Hv2 Hh Hc1 Hc2 Hnd Hdeg.
  set (center := AddPoint (of_int 0) (of_int 0) (of_int 0)
                   (meshSizeAt a rInner h_band h_outer (of_int 0) (of_int 0))
                   (max_point k1 + 1)).
  destruct (sector_degenerate a rInner rOuter h_band h_outer
              (Z.max 4 c1) (Z.max 4 c2) (max_point k1 + 1) 0
              (mkFrame [] [] None None None)
              (mkGmsh true true (max_point k1 + 1) (max_curve k1)
                 (max_loop k1) (max_surface k1) (max_group k1)
                 (calls (started k1) ++ [center])) Hnd Hdeg)
    as (k2 & evs & E & Ecalls & Ebuilt).
  exists k2, (startup_calls k1 ++ [center] ++ evs). split; [| split].
  - unfold Transfinite_Disk.
    rewrite (bind_Ok _ He), (bind_Ok _ (startup_spec k1)).
    rewrite (bind_Ok _ (parameter_checks_pass _ _ _ _ Hv1 Hv2)).
    unfold decompose.
    rewrite (bind_Ok _ (n_div_radial_ok _ _ _ _ Hh Hc1)).
    rewrite (bind_Ok _ (n_div_angular_ok _ _ _ Hh Hc2)).
    unfold bind at 1. unfold Gmsh.addPoint at 1.
    cbn [started max_point initialized has_model max_curve max_loop
         max_surface max_group calls].
    fold center. change (range 4) with [0; 1; 2; 3]. cbn [for_each].
    cbn [started calls] in E.
    rewrite (bind_Raise _ (bind_Raise _ E)). reflexivity.
  - rewrite Ecalls. cbn [calls started]. now rewrite <- !app_assoc.
  - unfold sectors_built in *. rewrite !count_app, Ebuilt.
    unfold count. rewrite startup_calls_filter by apply lifecycle_not_request.
    reflexivity.
Qed.

End Degenerate.

(** Witness: scenario B of the spec, a = 1.0, rInner = 1.0,
    rOuter = 3.0. *)
Lemma degenerate_disk_raises_index_error_witness :
  exists k2 evs,
    Transfinite_Disk gmsh_present 1%float 1%float 3%float f0_1 f0_5 4
      "InnerMaterial" "OuterMaterial" "Interface" "Outer" fresh
    = (Raise IndexError, k2)
    /\ calls k2 = calls (@fresh float) ++ evs
    /\ sectors_built evs = 0%nat.
Proof.
  apply (degenerate_disk_raises_index_error gmsh_present
           1%float 1%float 3%float f0_1 f0_5 4
           "InnerMaterial" "OuterMaterial" "Interface" "Outer"
           20 16 fresh fresh).
  - reflexivity.
  - vm_compute. reflexivity.
  - vm_compute. reflexivity.
  - vm_compute. reflexivity.
  - vm_compute. reflexivity.
  - vm_compute. reflexivity.
  - vm_compute. reflexivity.
  - vm_compute. reflexivity.
Defined.

(* ------------------------------------------------------------------ *)
(** ** The sector count *)
(* ------------------------------------------------------------------ *)

(** The [n_sectors] argument is overwritten before it is read. *)
Lemma n_sectors_argument_unused {F} `{PyFloat F} ens
    (a rInner rOuter h_band h_outer : F) n n' nm1 nm2 nm3 nm4 k :
  Transfinite_Disk ens a rInner rOuter h_band h_outer n nm1 nm2 nm3 nm4 k
  = Transfinite_Disk ens a rInner rOuter h_band h_outer n' nm1 nm2 nm3 nm4 k.
Proof. reflexivity. Qed.

(** C1 on the code: asked for three sectors on a valid disk
    (a = 0.1, rInner = 1, rOuter = 3), the run succeeds and has built
    four. *)
Theorem three_sectors_requested_four_built :
  let run := Transfinite_Disk gmsh_present f0_1 1%float 3%float f0_1 f0_5
               3 "InnerMaterial" "OuterMaterial" "Interface" "Outer"
               fresh in
  fst run = Ok tt /\ sectors_built (calls (snd run)) = 4%nat.
Proof. vm_compute. split; reflexivity. Qed.

(* ------------------------------------------------------------------ *)
(** ** What the requests carry, and the group calls *)
(* ------------------------------------------------------------------ *)

Section Planner.
Context {F : Type} `{PyFloat F}.
Variable ensure_gmsh_available : M F unit.

Lemma emits_bind_pure (P : call F -> Prop) {A B} (m : M F A)
    (f : A -> M F B) (r : result A) :
  (forall k, m k = (r, k)) ->
  (forall x, r = Ok x -> emits P (f x)) ->
  emits P (bind m f).
Proof.
  intros Hm Hf k. unfold bind. rewrite Hm. destruct r as [x | e].
  - apply (Hf x eq_refl).
  - exists []. cbn. split; [now rewrite app_nil_r | constructor].
Qed.

Lemma bind_assoc {A B C} (m : M F A) (f : A -> M F B) (g : B -> M F C) k :
  bind (bind m f) g k = bind m (fun x => bind (f x) g) k.
Proof. unfold bind. destruct (m k) as [[x | e] k1]; reflexivity. Qed.

(** A computation followed by a continuation: the calls of the first
    part come first, and the continuation runs only from its result. *)
Lemma emits_then (P : call F -> Prop) {A B} (m : M F A) (g : A -> M F B) :
  emits P m ->
  forall k, exists e1,
    Forall P e1
    /\ ((exists e, bind m g k = (Raise e, snd (m k))
                   /\ calls (snd (m k)) = calls k ++ e1)
        \/ (exists x k1, m k = (Ok x, k1)
                         /\ calls k1 = calls k ++ e1
                         /\ bind m g k = g x k1)).
Proof.
  intros Hm k. destruct (Hm k) as (e1 & E1 & F1). exists e1.
  split; [exact F1 |]. unfold bind.
  destruct (m k) as [[x | e] k1]; cbn in *.
  - right. exists x, k1. auto.
  - left. exists e. auto.
Qed.

Lemma sector_emits (P : call F -> Prop)
    a rInner rOuter h_band h_outer ndr nda pc n i fr :
  (forall c, is_request c = false -> is_group_call c = false ->
             is_lifecycle c = false -> P c) ->
  (forall rad circ surfs b, P (SetTransfinite rad circ surfs ndr nda b)) ->
  emits P (sector a rInner rOuter h_band h_outer ndr nda pc n i fr).
Proof.
  intros Hgeo Hreq. unfold sector, div_int, make_pt.
  emits_walk; try (apply Hgeo; reflexivity); apply Hreq.
Qed.

Lemma decompose_counts a rInner rOuter h_band h_outer n nm1 nm2 nm3 nm4 :
  emits (request_counts a h_band)
        (decompose a rInner rOuter h_band h_outer n nm1 nm2 nm3 nm4).
Proof.
  unfold decompose.
  eapply emits_bind_pure; [intros k; apply n_div_radial_spec |].
  intros ndr Hndr.
  eapply emits_bind_pure; [intros k; apply n_div_angular_spec |].
  intros nda Hnda.
  destruct (feq h_band (of_int 0)); [discriminate |].
  destruct (ceil_int (fdiv (fmul (of_int 2) a) h_band)) as [c1 |] eqn:E1;
    [| discriminate].
  destruct (ceil_int (fdiv (fmul lit_half math_pi) h_band)) as [c2 |] eqn:E2;
    [| discriminate].
  injection Hndr as <-. injection Hnda as <-.
  apply emits_bind; [apply emits_addPoint; intros; exact I | intros pc].
  cbv zeta.
  apply emits_bind.
  - apply emits_for_each. intros i fr. apply sector_emits.
    + intros c Hc _ _. destruct c; try discriminate; exact I.
    + intros. cbn. exists c1, c2. rewrite E1, E2. auto.
  - intros fr. emits_walk; exact I.
Qed.

(** C4, as the code has it: every structured request that a run of the
    disk builder makes carries [max(4, ceil(2a / h_band))] as its radial
    count and [max(4, ceil((0.5 * pi) / h_band))] as its angular count.
    No radius of the disk and no sector count enters the angular
    count. *)
Theorem requests_carry_planned_counts
    a rInner rOuter h_band h_outer n_sectors
    InnerMaterialName OuterMaterialName InterfaceName OuterBoundaryName
    (k : gmsh F) :
  exists evs,
    calls (snd (Transfinite_Disk ensure_gmsh_available a rInner rOuter
                  h_band h_outer n_sectors InnerMaterialName
                  OuterMaterialName InterfaceName OuterBoundaryName k))
    = calls (snd (ensure_gmsh_available k)) ++ evs
    /\ Forall (request_counts a h_band) evs.
Proof.
  unfold Transfinite_Disk, bind at 1.
  destruct (ensure_gmsh_available k) as [[[] | e] k1]; cbn [snd].
  - assert (Hem : emits (request_counts a h_band)
                    (bind startup (fun _ =>
                       bind (parameter_checks a rInner rOuter) (fun _ =>
                         decompose a rInner rOuter h_band h_outer n_sectors
                           InnerMaterialName OuterMaterialName InterfaceName
                           OuterBoundaryName)))).
    { apply emits_bind.
      - unfold startup. emits_walk; exact I.
      - intros _. apply emits_bind.
        + unfold parameter_checks. emits_walk.
        + intros _. apply decompose_counts. }
    apply Hem.
  - exists []. split; [now rewrite app_nil_r | constructor].
Qed.

End Planner.

Section Groups.
Context {F : Type} `{PyFloat F}.
Variable ensure_gmsh_available : M F unit.
Variables a rInner rOuter h_band h_outer : F.
Variable n_sectors : Z.
Variables InnerMaterialName OuterMaterialName : string.

Local Notation "'sectors_part'" :=
  (disk_sectors_part a rInner rOuter h_band h_outer).
Local Notation "'groups_part'" :=
  (disk_groups_part InnerMaterialName OuterMaterialName).
Local Notation "'before_groups'" :=
  (disk_before_groups a rInner rOuter h_band h_outer).

Lemma body_split nm3 nm4 k :
  (startup ;;; parameter_checks a rInner rOuter ;;;
   decompose a rInner rOuter h_band h_outer n_sectors InnerMaterialName
     OuterMaterialName nm3 nm4)%py k
  = bind before_groups groups_part k.
Proof.
  unfold disk_before_groups, disk_sectors_part, decompose, bind.
  destruct (startup k) as [[[] | e] k1]; [| reflexivity].
  destruct (parameter_checks a rInner rOuter k1) as [[[] | e] k2];
    [| reflexivity].
  destruct (n_div_radial a h_band k2) as [[ndr | e] k3]; [| reflexivity].
  destruct (n_div_angular h_band k3) as [[nda | e] k4]; [| reflexivity].
  destruct (Gmsh.addPoint (of_int 0) (of_int 0) (of_int 0)
              (meshSizeAt a rInner h_band h_outer (of_int 0) (of_int 0)) k4)
    as [[pc | e] k5]; [| reflexivity].
  destruct (for_each (range 4)
              (sector a rInner rOuter h_band h_outer ndr nda pc 4)
              (mkFrame [] [] None None None) k5) as [[fr | e] k6];
    reflexivity.
Qed.

Lemma before_groups_emits :
  emits (fun c => is_group_call c = false) before_groups.
Proof.
  unfold disk_before_groups, disk_sectors_part, startup, parameter_checks.
  apply emits_bind; [emits_walk; reflexivity | intros _].
  apply emits_bind; [emits_walk | intros _].
  apply emits_bind; [| intros ndr].
  { intros k. exists []. rewrite n_div_radial_spec. cbn.
    split; [now rewrite app_nil_r | constructor]. }
  apply emits_bind; [| intros nda].
  { intros k. exists []. rewrite n_div_angular_spec. cbn.
    split; [now rewrite app_nil_r | constructor]. }
  apply emits_bind; [apply emits_addPoint; reflexivity | intros pc].
  apply emits_for_each. intros i fr. apply sector_emits.
  - intros c _ Hc _. exact Hc.
  - reflexivity.
Qed.

Lemma no_group_calls (l : list (call F)) :
  Forall (fun c => is_group_call c = false) l -> filter is_group_call l = [].
Proof.
  induction 1 as [| c l Hc _ IH]; cbn; [reflexivity |]. now rewrite Hc.
Qed.

(** C10: the interface and outer-boundary names do not reach the
    kernel.  Two calls that differ only in those two arguments give
    the same result and the same kernel, call list included; and the
    group calls of any run are either none, or the two surface groups
    (dimension 2) with the inner and the outer material name, in that
    order. *)
Theorem boundary_names_have_no_effect
    InterfaceName OuterBoundaryName InterfaceName' OuterBoundaryName'
    (k : gmsh F) :
  Transfinite_Disk ensure_gmsh_available a rInner rOuter h_band h_outer
    n_sectors InnerMaterialName OuterMaterialName InterfaceName
    OuterBoundaryName k
  = Transfinite_Disk ensure_gmsh_available a rInner rOuter h_band h_outer
      n_sectors InnerMaterialName OuterMaterialName InterfaceName'
      OuterBoundaryName' k
  /\ exists evs,
       calls (snd (Transfinite_Disk ensure_gmsh_available a rInner rOuter
                     h_band h_outer n_sectors InnerMaterialName
                     OuterMaterialName InterfaceName OuterBoundaryName k))
       = calls (snd (ensure_gmsh_available k)) ++ evs
       /\ (filter is_group_call evs = []
           \/ exists inner outer t,
                filter is_group_call evs
                = [AddPhysicalGroup 2 inner t;
                   SetPhysicalName 2 t InnerMaterialName;
                   AddPhysicalGroup 2 outer (t + 1);
                   SetPhysicalName 2 (t + 1) OuterMaterialName]).
Proof.
  split; [reflexivity |].
  unfold Transfinite_Disk, bind at 1.
  destruct (ensure_gmsh_available k) as [[[] | e] k1]; cbn [snd].
  - rewrite body_split.
    destruct (emits_then _ before_groups groups_part before_groups_emits k1)
      as (e1 & F1 & [(e & E & Ec) | (fr & k2 & Em & Ec & E)]).
    + exists e1. rewrite E. cbn [snd]. split; [exact Ec |].
      left. now apply no_group_calls.
    + rewrite E. destruct k2 as [ini hm mp mc ml ms mg cs]. cbn in Ec.
      exists (e1 ++
              [AddPhysicalGroup 2 (inner_surfaces fr) (mg + 1);
               SetPhysicalName 2 (mg + 1) InnerMaterialName;
               AddPhysicalGroup 2 (outer_surfaces fr) (mg + 1 + 1);
               SetPhysicalName 2 (mg + 1 + 1) OuterMaterialName;
               GeoSynchronize]).
      split.
      * unfold disk_groups_part, bind. cbn. unfold Gmsh.record. cbn.
        rewrite Ec, <- !app_assoc. reflexivity.
      * right. exists (inner_surfaces fr), (outer_surfaces fr), (mg + 1).
        rewrite filter_app, (no_group_calls _ F1). reflexivity.
  - exists []. split; [now rewrite app_nil_r | now left].
Qed.

End Groups.

(** C4 as the spec words it does not hold.  For h_band = 0.1 the code
    asks for 16 angular divisions whatever the disk: for radii
    (0.1, 1, 3) and for radii (0.5, 2, 4) alike.  With the span of
    one of four sectors, the spec's formula gives 16 only for the
    reference radius 1; for each radius of the second disk
    (rInner - a, rInner, rInner + a, rOuter) it gives another count. *)
Lemma angular_count_ignores_the_radii :
  let dtheta := PrimFloat.div (PrimFloat.mul 2%float math_pi) 4%float in
  let requests (a rInner rOuter : float) :=
    filter is_request
      (calls (snd (Transfinite_Disk gmsh_present a rInner rOuter f0_1 f0_5
                     4 "InnerMaterial" "OuterMaterial" "Interface" "Outer"
                     fresh))) in
  fst (n_div_angular f0_1 fresh) = Ok 16
  /\ map (fun c => match c with
                   | SetTransfinite _ _ _ _ n _ => n
                   | _ => 0
                   end) (requests f0_1 1%float 3%float) = [16; 16; 16; 16]
  /\ map (fun c => match c with
                   | SetTransfinite _ _ _ _ n _ => n
                   | _ => 0
                   end) (requests f0_5 2%float 4%float) = [16; 16; 16; 16]
  /\ fst (spec_n_div_angular 1.5%float dtheta f0_1 fresh) = Ok 24
  /\ fst (spec_n_div_angular 2%float dtheta f0_1 fresh) = Ok 32
  /\ fst (spec_n_div_angular 2.5%float dtheta f0_1 fresh) = Ok 40
  /\ fst (spec_n_div_angular 4%float dtheta f0_1 fresh) = Ok 63.
Proof. vm_compute. repeat split. Qed.

End DiskFacts.

(* ================================================================== *)
(** * Facts about mesh.py *)
(* ================================================================== *)

Module MeshFacts.
Import Mesh.
Local Open Scope py_scope.

Section Lists.

Lemma index_of_absent x l :
  existsb (Z.eqb x) l = false -> index_of x l = None.
Proof.
  induction l as [| y l IH]; cbn; [reflexivity |].
  intros E. apply orb_false_elim in E as [E1 E2].
  rewrite Z.eqb_sym, E1, (IH E2). reflexivity.
Qed.

(** [x in l] finds an index for [l.index(x)]. *)
Lemma index_of_member x l :
  mem x l = true -> exists i, index_of x l = Some i.
Proof.
  unfold mem. induction l as [| y l IH]; cbn; [discriminate |].
  rewrite Z.eqb_sym. destruct (y =? x); [now exists O |].
  cbn. intros E. destruct (IH E) as [i ->]. now exists (S i).
Qed.

Lemma filter_head {A} (p : A -> bool) l x rest :
  filter p l = x :: rest -> p x = true.
Proof.
  intros E. assert (Hin : In x (filter p l)) by (rewrite E; now left).
  apply filter_In in Hin. tauto.
Qed.

(** Three corners cannot cover the IDs 2, 3, 4 and 5. *)
Lemma some_id_is_missing x y z :
  filter (fun v => negb (existsb (Z.eqb v) [x; y; z])) arange_2_21 <> [].
Proof.
  intros E.
  assert (Hall : forall v, In v arange_2_21 ->
                           existsb (Z.eqb v) [x; y; z] = true).
  { intros v Hv.
    destruct (existsb (Z.eqb v) [x; y; z]) eqn:Ev; [reflexivity |].
    assert (Hin : In v (filter (fun v => negb (existsb (Z.eqb v) [x; y; z]))
                          arange_2_21)).
    { apply filter_In. split; [exact Hv | now rewrite Ev]. }
    rewrite E in Hin. destruct Hin. }
  assert (H2 : existsb (Z.eqb 2) [x; y; z] = true)
    by (apply Hall; vm_compute; tauto).
  assert (H3 : existsb (Z.eqb 3) [x; y; z] = true)
    by (apply Hall; vm_compute; tauto).
  assert (H4 : existsb (Z.eqb 4) [x; y; z] = true)
    by (apply Hall; vm_compute; tauto).
  assert (H5 : existsb (Z.eqb 5) [x; y; z] = true)
    by (apply Hall; vm_compute; tauto).
  cbn [existsb] in H2, H3, H4, H5.
  rewrite !orb_false_r, !orb_true_iff, !Z.eqb_eq in H2, H3, H4, H5.
  lia.
Qed.

Lemma first_of_dim_next {F} d out v (k : gmsh F) :
  first_of_dim d out = Some v -> next_of_dim d out k = (Ok v, k).
Proof.
  induction out as [| [dim w] out IH]; cbn; [discriminate |].
  destruct (dim =? d); [now intros [= ->] | exact IH].
Qed.

End Lists.

Section Oracle.
Context {F : Type} `{PyFloat F}.
Variable revolve_out :
  gmsh F -> list (Z * Z) -> F -> F -> F -> F -> F -> F -> F -> list (Z * Z).
Variable bounding_box : gmsh F -> Z -> Z -> bbox F.
Variable boundary : gmsh F -> list (Z * Z) -> list (Z * Z).
Variable entity_type : gmsh F -> Z -> Z -> string.
Variable ensure_gmsh_available : M F unit.
Variable find_missing_numbers : list Z -> list Z -> M F (list Z * list Z).

Local Notation "'no_request'" := (fun c : call F => is_request c = false).

(** Lines 110-116 never raise; the kernel is asked for the box only when
    the wedge is not "inner". *)
Lemma arrangement_runs surface_type s_tag (k : gmsh F) :
  exists label evs,
    arrangement bounding_box surface_type s_tag k
    = (Ok label, mkGmsh (initialized k) (has_model k) (max_point k)
                   (max_curve k) (max_loop k) (max_surface k) (max_group k)
                   (calls k ++ evs))
    /\ evs = (if String.eqb surface_type "inner" then []
              else [GetBoundingBox 2 s_tag])
    /\ (label = "Right" \/ label = "Left")
    /\ (label = "Right" <->
        surface_type = "inner"
        \/ flt (fabs (fdiv (fadd (zmin (bounding_box k 2 s_tag))
                                 (zmax (bounding_box k 2 s_tag)))
                           (of_int 2))) lit_1em6 = true
           /\ fge (xmin (bounding_box k 2 s_tag)) (of_int 0) = true
           /\ fge (xmax (bounding_box k 2 s_tag)) (of_int 0) = true).
Proof.
  unfold arrangement.
  destruct (String.eqb_spec surface_type "inner") as [-> | Hne].
  - exists "Right", []. unfold ret. rewrite app_nil_r.
    destruct k; cbn. repeat split; auto.
  - unfold bind, getBoundingBox, ret, use_arr_of_bbox, Gmsh.record.
    set (b := bounding_box k 2 s_tag).
    destruct (flt (fabs (fdiv (fadd (zmin b) (zmax b)) (of_int 2))) lit_1em6);
      destruct (fge (xmin b) (of_int 0));
      destruct (fge (xmax b) (of_int 0)); cbn [andb];
      do 2 eexists; (split; [reflexivity |]); (split; [reflexivity |]);
      (split; [auto |]);
      (split; [intros E; first [discriminate E | right; auto]
              | intros [E | (E1 & E2 & E3)];
                first [contradiction | discriminate | reflexivity]]).
Qed.

Lemma classify_edge_runs dt e (k : gmsh F) :
  exists e1 k1 evs,
    classify_edge boundary entity_type dt e k = (Ok e1, k1)
    /\ calls k1 = calls k ++ evs
    /\ Forall no_request evs.
Proof.
  destruct dt as [dim_c tag_c]. unfold classify_edge.
  destruct (dim_c =? 1).
  - unfold bind, getType, getBoundary, ret, Gmsh.record.
    cbn [calls initialized has_model max_point max_curve max_loop
         max_surface max_group].
    match goal with
    | |- context [boundary ?k' ?d] =>
        destruct (boundary k' d) as [| [? ?] [| [? ?] [| ? ?]]]
    end.
    all: do 3 eexists; (split; [reflexivity |]); cbn [calls];
      rewrite <- app_assoc; (split; [reflexivity |]);
      repeat constructor.
  - exists e, k, []. unfold ret. rewrite app_nil_r. repeat split. constructor.
Qed.

Lemma classify_loop_runs bnd e (k : gmsh F) :
  exists e1 k1 evs,
    for_each bnd (classify_edge boundary entity_type) e k = (Ok e1, k1)
    /\ calls k1 = calls k ++ evs
    /\ Forall no_request evs.
Proof.
  revert e k. induction bnd as [| dt bnd IH]; intros e k.
  - exists e, k, []. unfold for_each, ret. rewrite app_nil_r.
    repeat split. constructor.
  - destruct (classify_edge_runs dt e k) as (e1 & k1 & ev1 & E1 & C1 & F1).
    destruct (IH e1 k1) as (e2 & k2 & ev2 & E2 & C2 & F2).
    exists e2, k2, (ev1 ++ ev2). cbn [for_each].
    rewrite (bind_Ok _ E1), E2. split; [reflexivity |].
    split; [now rewrite C2, C1, app_assoc | now apply Forall_app].
Qed.

(** Lines 145-158, branch by branch. *)
Lemma declare_surface_cases s_tag use_arr cps (kd : gmsh F) :
  if ((List.length cps =? 3)%nat && negb (mem 1 cps))%bool
  then
    match find_missing_numbers cps arange_2_21 kd with
    | (Raise e, kh) =>
        declare_surface find_missing_numbers s_tag use_arr cps kd
        = (Raise e, kh)
    | (Ok (_, []), kh) =>
        declare_surface find_missing_numbers s_tag use_arr cps kd
        = (Raise IndexError, kh)
    | (Ok (_, m0 :: _), kh) =>
        if mem m0 cps
        then exists cs,
               declare_surface find_missing_numbers s_tag use_arr cps kd
               = (Ok tt,
                  Gmsh.record (SetTransfiniteSurface s_tag None (Some cs)) kh)
        else declare_surface find_missing_numbers s_tag use_arr cps kd
             = (Raise (ValueError "x is not in list"), kh)
    end
  else
    exists cs,
      declare_surface find_missing_numbers s_tag use_arr cps kd
      = (Ok tt,
         Gmsh.record (SetTransfiniteSurface s_tag (Some use_arr) cs) kd).
Proof.
  unfold declare_surface.
  destruct (List.length cps =? 3)%nat; cbn [andb].
  2: { eexists. reflexivity. }
  destruct (mem 1 cps) eqn:H1; cbn [negb].
  { destruct (index_of_member 1 cps H1) as [i Ei].
    eexists. unfold list_index. rewrite Ei. reflexivity. }
  destruct (find_missing_numbers cps arange_2_21 kd)
    as [[[found [| m0 rest]] | e] kh] eqn:Ef.
  - rewrite (bind_Ok _ Ef). reflexivity.
  - rewrite (bind_Ok _ Ef). cbn [snd].
    destruct (mem m0 cps) eqn:Hm.
    + destruct (index_of_member m0 cps Hm) as [i Ei].
      eexists. unfold bind at 1. unfold index at 1. cbn [nth_error].
      unfold ret at 1. unfold list_index. rewrite Ei. reflexivity.
    + unfold bind at 1. unfold index at 1. cbn [nth_error].
      unfold ret at 1. unfold list_index.
      rewrite (index_of_absent _ _ Hm). reflexivity.
  - rewrite (bind_Raise _ Ef). reflexivity.
Qed.

(** C6, as the code has it: for every new surface of a sweep a label is
    computed, "Right" for a surface of an "inner" wedge; for any other
    wedge, "Right" exactly when the mean of its box's z-bounds is within
    1e-6 of zero and both the lower and the upper x-bound of the box are
    non-negative, and "Left" otherwise; the y-bounds of the box are never
    read.  Exactly one structured request is submitted for the surface
    before it is declared, and it carries the label.  The declaration
    that follows passes the same label as arrangement, unless the
    surface has exactly three corners and point 1 is none of them: in
    that branch the call raises what the helper raises, [IndexError]
    when the helper finds nothing missing, [ValueError] when the ID it
    resolves is not a corner, and otherwise declares the surface with no
    arrangement at all. *)
Theorem arrangement_label_rule
    n_div_radial n_div_curved bumpcoef surface_type s_tag (k : gmsh F) :
  exists label corners kd evs rad circ,
    sweep_surface bounding_box boundary entity_type find_missing_numbers
      n_div_radial n_div_curved bumpcoef surface_type s_tag tt k
    = declare_surface find_missing_numbers s_tag label corners kd
    /\ calls kd
       = calls k ++ evs ++
         [SetTransfinite rad circ [(s_tag, label)] n_div_radial n_div_curved
            (Some bumpcoef)]
    /\ Forall no_request evs
    /\ (label = "Right" \/ label = "Left")
    /\ (label = "Right" <->
        surface_type = "inner"
        \/ flt (fabs (fdiv (fadd (zmin (bounding_box k 2 s_tag))
                                 (zmax (bounding_box k 2 s_tag)))
                           (of_int 2))) lit_1em6 = true
           /\ fge (xmin (bounding_box k 2 s_tag)) (of_int 0) = true
           /\ fge (xmax (bounding_box k 2 s_tag)) (of_int 0) = true)
    /\ (if ((List.length corners =? 3)%nat && negb (mem 1 corners))%bool
        then
          match find_missing_numbers corners arange_2_21 kd with
          | (Raise e, kh) =>
              declare_surface find_missing_numbers s_tag label corners kd
              = (Raise e, kh)
          | (Ok (_, []), kh) =>
              declare_surface find_missing_numbers s_tag label corners kd
              = (Raise IndexError, kh)
          | (Ok (_, m0 :: _), kh) =>
              if mem m0 corners
              then exists cs,
                     declare_surface find_missing_numbers s_tag label
                       corners kd
                     = (Ok tt,
                        Gmsh.record
                          (SetTransfiniteSurface s_tag None (Some cs)) kh)
              else declare_surface find_missing_numbers s_tag label
                     corners kd
                   = (Raise (ValueError "x is not in list"), kh)
          end
        else
          exists cs,
            declare_surface find_missing_numbers s_tag label corners kd
            = (Ok tt,
               Gmsh.record
                 (SetTransfiniteSurface s_tag (Some label) cs) kd)).
Proof.
  destruct (arrangement_runs surface_type s_tag k)
    as (label & ev0 & E0 & Hev0 & Hlab & Hrule).
  set (k0 := mkGmsh (initialized k) (has_model k) (max_point k)
               (max_curve k) (max_loop k) (max_surface k) (max_group k)
               (calls k ++ ev0)) in *.
  set (kb := Gmsh.record (GetBoundary [(2, s_tag)]) k0).
  destruct (classify_loop_runs (boundary k0 [(2, s_tag)]) (mkEdges [] [] []) kb)
    as (e1 & k1 & ev1 & E1 & C1 & F1).
  exists label, (corner_points e1),
    (Gmsh.record (SetTransfinite (radial_curves e1) (curved_curves e1)
                    [(s_tag, label)] n_div_radial n_div_curved
                    (Some bumpcoef)) k1),
    (ev0 ++ GetBoundary [(2, s_tag)] :: ev1),
    (radial_curves e1), (curved_curves e1).
  split; [| split; [| split; [| split; [exact Hlab | split; [exact Hrule |]]]]].
  - unfold sweep_surface. rewrite (bind_Ok _ E0).
    unfold bind at 1. unfold getBoundary at 1. fold kb.
    rewrite (bind_Ok _ E1). reflexivity.
  - cbn [calls Gmsh.record]. rewrite C1. unfold kb, k0. cbn [calls Gmsh.record].
    rewrite <- !app_assoc. reflexivity.
  - apply Forall_app. split.
    + rewrite Hev0. destruct (String.eqb surface_type "inner");
        repeat constructor.
    + repeat constructor. exact F1.
  - apply declare_surface_cases.
Qed.

(** Whatever the helper answers: if the ID it resolves is not one of the
    corners, [corner_points.index] raises and no surface is declared. *)
Lemma absent_id_cannot_lead s_tag use_arr cps found m0 rest (k k1 : gmsh F) :
  List.length cps = 3%nat ->
  mem 1 cps = false ->
  find_missing_numbers cps arange_2_21 k = (Ok (found, m0 :: rest), k1) ->
  mem m0 cps = false ->
  declare_surface find_missing_numbers s_tag use_arr cps k
  = (Raise (ValueError "x is not in list"), k1).
Proof.
  intros Hlen H1 Hf Hm. unfold declare_surface.
  rewrite Hlen, H1. cbn [Nat.eqb].
  rewrite (bind_Ok _ Hf). cbn [snd].
  unfold bind, index, list_index. cbn.
  now rewrite (index_of_absent _ _ Hm).
Qed.

End Oracle.

Section Revolution.
Context {F : Type} `{PyFloat F}.
Variable revolve_out :
  gmsh F -> list (Z * Z) -> F -> F -> F -> F -> F -> F -> F -> list (Z * Z).
Variable bounding_box : gmsh F -> Z -> Z -> bbox F.
Variable boundary : gmsh F -> list (Z * Z) -> list (Z * Z).
Variable entity_type : gmsh F -> Z -> Z -> string.
Variable ensure_gmsh_available : M F unit.
Variable find_missing_numbers : list Z -> list Z -> M F (list Z * list Z).

Local Notation "'no_revolve'" := (fun c : call F => is_revolve c = false).

Hypothesis helper_no_revolve :
  forall ids range_ids, emits no_revolve (find_missing_numbers ids range_ids).

Lemma classify_edge_no_revolve dt e :
  emits no_revolve (classify_edge boundary entity_type dt e).
Proof.
  destruct dt as [dim_c tag_c]. unfold classify_edge.
  destruct (dim_c =? 1); [| apply emits_ret].
  apply emits_bind.
  { now apply emits_one with (c := fun _ => GetType 1 (Z.abs tag_c)). }
  intros etype. cbv zeta. apply emits_bind.
  { now apply emits_one with (c := fun _ => GetBoundary [(1, tag_c)]). }
  intros endpts.
  destruct endpts as [| [? ?] [| [? ?] [| ? ?]]]; apply emits_ret.
Qed.

Lemma declare_surface_no_revolve s_tag use_arr cps :
  emits no_revolve (declare_surface find_missing_numbers s_tag use_arr cps).
Proof.
  unfold declare_surface, list_index.
  destruct (List.length cps =? 3)%nat; [| emits_walk; reflexivity].
  destruct (mem 1 cps).
  - destruct (index_of 1 cps); emits_walk; reflexivity.
  - apply emits_bind; [apply helper_no_revolve | intros pair].
    cbv zeta. apply emits_bind; [apply emits_index | intros m0].
    destruct (index_of m0 cps); emits_walk; reflexivity.
Qed.

Lemma sweep_no_revolve out nr nc bump surface_type :
  emits no_revolve
    (_apply_transfinite_sweep bounding_box boundary entity_type
       find_missing_numbers out nr nc bump surface_type).
Proof.
  unfold _apply_transfinite_sweep. cbv zeta.
  apply emits_bind; [apply emits_synchronize; reflexivity | intros _].
  apply emits_for_each. intros s_tag []. unfold sweep_surface.
  apply emits_bind.
  { unfold arrangement. destruct (String.eqb surface_type "inner");
      [apply emits_ret |].
    apply emits_bind; [| intros b; apply emits_ret].
    now apply emits_one with (c := fun _ => GetBoundingBox 2 s_tag). }
  intros use_arr. apply emits_bind.
  { now apply emits_one with (c := fun _ => GetBoundary [(2, s_tag)]). }
  intros bnd. apply emits_bind.
  { apply emits_for_each. intros. apply classify_edge_no_revolve. }
  intros e. apply emits_bind;
    [apply emits_set_transfinite; reflexivity | intros _].
  apply declare_surface_no_revolve.
Qed.

Lemma index_0 {A} (x : A) l (k : gmsh F) : index (x :: l) 0 k = (Ok x, k).
Proof. reflexivity. Qed.

Lemma index_1 {A} (x y : A) l (k : gmsh F) :
  index (x :: y :: l) 1 k = (Ok y, k).
Proof. reflexivity. Qed.

Lemma index_2 {A} (x y z : A) l (k : gmsh F) :
  index (x :: y :: z :: l) 2 k = (Ok z, k).
Proof. reflexivity. Qed.

Lemma next_of_dim_none d out (k : gmsh F) :
  first_of_dim d out = None -> next_of_dim d out k = (Raise StopIteration, k).
Proof.
  induction out as [| [dim w] out IH]; cbn; [reflexivity |].
  destruct (dim =? d); [discriminate | exact IH].
Qed.

Lemma count_no_revolve (evs : list (call F)) :
  Forall no_revolve evs -> count is_revolve evs = 0%nat.
Proof.
  unfold count. induction 1 as [| c l Hc _ IH]; cbn; [reflexivity |].
  rewrite Hc. exact IH.
Qed.

(** C9, as the code has it: a call of [revolve_surface] with an axis
    and a centre of three coordinates asks the kernel for a revolution
    of the patch by [+angle_sweep]; when the answer lists a volume it
    asks for a second revolution of the same patch about the same axis
    by [-angle_sweep], and it asks for no other revolution.  When one of
    the answers lists no volume the call stops there with
    [StopIteration].  When both do, the call without the structured pass
    returns the first volume of the first answer and the first volume of
    the second, in that order, having made no other call; with the
    structured pass it runs the pass on the results of the first sweep
    and then on those of the second, and returns the same pair exactly
    when both passes return; when a pass raises, the call raises the
    same exception and returns nothing. *)
Theorem revolve_surface_sweeps_twice
    ax ay az rest_axis cx cy cz rest_center angle_sweep surface_loop
    n_div_radial n_div_curved bumpcoef surface_type apply_transfinite
    (k k1 : gmsh F) :
  let out_plus :=
    revolve_out k1 [(2, surface_loop)] ax ay az cx cy cz angle_sweep in
  let k2 :=
    Gmsh.record (Revolve [(2, surface_loop)] ax ay az cx cy cz angle_sweep
                   out_plus) k1 in
  let out_minus :=
    revolve_out k2 [(2, surface_loop)] ax ay az cx cy cz
      (fneg angle_sweep) in
  let k3 :=
    Gmsh.record (Revolve [(2, surface_loop)] ax ay az cx cy cz
                   (fneg angle_sweep) out_minus) k2 in
  let pass := fun out =>
    _apply_transfinite_sweep bounding_box boundary entity_type
      find_missing_numbers out n_div_radial n_div_curved bumpcoef
      surface_type in
  let passes := (pass out_plus ;;; pass out_minus) k3 in
  let run :=
    revolve_surface revolve_out bounding_box boundary entity_type
      ensure_gmsh_available find_missing_numbers
      (ax :: ay :: az :: rest_axis) (cx :: cy :: cz :: rest_center)
      angle_sweep surface_loop n_div_radial n_div_curved bumpcoef
      surface_type apply_transfinite k in
  ensure_gmsh_available k = (Ok tt, k1) ->
  match first_of_dim 3 out_plus with
  | None =>
      run = (Raise StopIteration, k2)
      /\ calls k2
         = calls k1 ++
           [Revolve [(2, surface_loop)] ax ay az cx cy cz angle_sweep
              out_plus]
  | Some vol_plus =>
      match first_of_dim 3 out_minus with
      | None =>
          run = (Raise StopIteration, k3)
          /\ calls k3
             = calls k1 ++
               [Revolve [(2, surface_loop)] ax ay az cx cy cz angle_sweep
                  out_plus;
                Revolve [(2, surface_loop)] ax ay az cx cy cz
                  (fneg angle_sweep) out_minus]
      | Some vol_minus =>
          exists evs,
            calls (snd run)
            = calls k1 ++
              [Revolve [(2, surface_loop)] ax ay az cx cy cz angle_sweep
                 out_plus;
               Revolve [(2, surface_loop)] ax ay az cx cy cz
                 (fneg angle_sweep) out_minus] ++ evs
            /\ count is_revolve evs = 0%nat
            /\ (if apply_transfinite
                then
                  snd run = snd passes
                  /\ fst run = match fst passes with
                               | Ok _ => Ok (vol_plus, vol_minus)
                               | Raise e => Raise e
                               end
                else run = (Ok (vol_plus, vol_minus), k3) /\ evs = [])
      end
  end.
Proof.
  intros out_plus k2 out_minus k3 pass passes run He.
  assert (Ek2 : calls k2 = calls k1 ++
                [Revolve [(2, surface_loop)] ax ay az cx cy cz angle_sweep
                   out_plus]) by reflexivity.
  assert (Ek3 : calls k3 = calls k1 ++
                [Revolve [(2, surface_loop)] ax ay az cx cy cz angle_sweep
                   out_plus;
                 Revolve [(2, surface_loop)] ax ay az cx cy cz
                   (fneg angle_sweep) out_minus]).
  { unfold k3, k2, Gmsh.record. cbn [calls]. now rewrite <- app_assoc. }
  assert (E1 : run =
               bind (next_of_dim 3 out_plus)
                 (fun vol_plus =>
                    ax <- index (ax :: ay :: az :: rest_axis) 0 ;;
                    ay <- index (ax :: ay :: az :: rest_axis) 1 ;;
                    az <- index (ax :: ay :: az :: rest_axis) 2 ;;
                    cx <- index (cx :: cy :: cz :: rest_center) 0 ;;
                    cy <- index (cx :: cy :: cz :: rest_center) 1 ;;
                    cz <- index (cx :: cy :: cz :: rest_center) 2 ;;
                    out_minus <- revolve revolve_out [(2, surface_loop)]
                                   ax ay az cx cy cz (fneg angle_sweep) ;;
                    vol_minus <- next_of_dim 3 out_minus ;;
                    (if apply_transfinite then
                       _apply_transfinite_sweep bounding_box boundary
                         entity_type find_missing_numbers out_plus
                         n_div_radial n_div_curved bumpcoef surface_type ;;;
                       _apply_transfinite_sweep bounding_box boundary
                         entity_type find_missing_numbers out_minus
                         n_div_radial n_div_curved bumpcoef surface_type
                     else ret tt) ;;;
                    ret (vol_plus, vol_minus)) k2).
  { unfold run, revolve_surface.
    rewrite (bind_Ok _ He).
    rewrite (bind_Ok _ (index_0 _ _ _)), (bind_Ok _ (index_1 _ _ _ _)),
            (bind_Ok _ (index_2 _ _ _ _ _)).
    rewrite (bind_Ok _ (index_0 _ _ _)), (bind_Ok _ (index_1 _ _ _ _)),
            (bind_Ok _ (index_2 _ _ _ _ _)).
    unfold bind at 1. unfold revolve at 1. reflexivity. }
  destruct (first_of_dim 3 out_plus) as [vol_plus |] eqn:Hp.
  2: { split; [| exact Ek2].
       rewrite E1. apply bind_Raise. now apply next_of_dim_none. }
  assert (E2 : run =
               bind (next_of_dim 3 out_minus)
                 (fun vol_minus =>
                    (if apply_transfinite then
                       pass out_plus ;;; pass out_minus
                     else ret tt) ;;;
                    ret (vol_plus, vol_minus)) k3).
  { rewrite E1.
    rewrite (bind_Ok _ (first_of_dim_next 3 out_plus vol_plus k2 Hp)).
    rewrite (bind_Ok _ (index_0 _ _ _)), (bind_Ok _ (index_1 _ _ _ _)),
            (bind_Ok _ (index_2 _ _ _ _ _)).
    rewrite (bind_Ok _ (index_0 _ _ _)), (bind_Ok _ (index_1 _ _ _ _)),
            (bind_Ok _ (index_2 _ _ _ _ _)).
    unfold bind at 1. unfold revolve at 1. reflexivity. }
  destruct (first_of_dim 3 out_minus) as [vol_minus |] eqn:Hm.
  2: { split; [| exact Ek3].
       rewrite E2. apply bind_Raise. now apply next_of_dim_none. }
  rewrite (bind_Ok _ (first_of_dim_next 3 out_minus vol_minus k3 Hm)) in E2.
  destruct apply_transfinite.
  - assert (Hpass : emits no_revolve (pass out_plus ;;; pass out_minus)).
    { apply emits_bind; [| intros _];
        apply sweep_no_revolve. }
    destruct (Hpass k3) as (evs & Ec & Fc).
    exists evs. fold passes in Ec.
    assert (Er : run = match passes with
                       | (Ok _, k4) => (Ok (vol_plus, vol_minus), k4)
                       | (Raise e, k4) => (Raise e, k4)
                       end).
    { rewrite E2. unfold bind at 1. fold passes.
      destruct passes as [[[] | e] k4]; reflexivity. }
    rewrite Er. clear Er E2 E1.
    destruct passes as [[[] | e] k4]; cbn [fst snd] in *.
    all: split; [rewrite Ec, Ek3, <- app_assoc; reflexivity |].
    all: split; [exact (count_no_revolve evs Fc) |].
    all: split; reflexivity.
  - exists []. rewrite E2. unfold bind, ret. cbn [fst snd].
    split; [now rewrite Ek3, app_nil_r |].
    split; [reflexivity |].
    split; reflexivity.
Qed.

End Revolution.

(** Witness: a patch with tag 7 revolved about the z axis by a quarter
    of [math.pi], with the structured pass, which returns on the
    stand-in kernel. *)
Lemma revolve_surface_sweeps_twice_witness :
  let angle := PrimFloat.div math_pi 4%float in
  let run :=
    revolve_surface toy_revolve_out toy_bounding_box toy_boundary
      toy_entity_type gmsh_present find_missing_numbers
      [0%float; 0%float; 1%float] [0%float; 0%float; 0%float]
      angle 7 4 16 1%float "outer" true fresh in
  let passes :=
    (_apply_transfinite_sweep toy_bounding_box toy_boundary toy_entity_type
       find_missing_numbers [(2, 50); (3, 1)] 4 16 1%float "outer" ;;;
     _apply_transfinite_sweep toy_bounding_box toy_boundary toy_entity_type
       find_missing_numbers [(2, 50); (3, 2)] 4 16 1%float "outer")
      (mkGmsh false false 0 0 0 0 0
         [Revolve [(2, 7)] 0%float 0%float 1%float 0%float 0%float 0%float
            angle [(2, 50); (3, 1)];
          Revolve [(2, 7)] 0%float 0%float 1%float 0%float 0%float 0%float
            (fneg angle) [(2, 50); (3, 2)]]) in
  (exists evs,
     calls (snd run)
     = calls (@fresh float) ++
       [Revolve [(2, 7)] 0%float 0%float 1%float 0%float 0%float 0%float
          angle [(2, 50); (3, 1)];
        Revolve [(2, 7)] 0%float 0%float 1%float 0%float 0%float 0%float
          (fneg angle) [(2, 50); (3, 2)]] ++ evs
     /\ count is_revolve evs = 0%nat
     /\ snd run = snd passes
     /\ fst run = match fst passes with
                  | Ok _ => Ok (1, 2)
                  | Raise e => Raise e
                  end)
  /\ fst passes = Ok tt
  /\ fst run = Ok (1, 2).
Proof.
  split.
  - pose proof (@revolve_surface_sweeps_twice float _ toy_revolve_out
             toy_bounding_box toy_boundary toy_entity_type gmsh_present
             find_missing_numbers
             (fun ids range_ids => emits_ret _ _)
             0%float 0%float 1%float [] 0%float 0%float 0%float []
             (PrimFloat.div math_pi 4%float) 7 4 16 1%float "outer" true
             fresh fresh eq_refl) as W.
    vm_compute in W. vm_compute. exact W.
  - split; vm_compute; reflexivity.
Defined.

(** C7 on the code's words and the spec's helper: a three-corner list
    without the centre handle never gets its surface declared.  The ID
    resolved as absent from the corners is, for that very reason, not in
    the list that [corner_points.index] searches: [ValueError], and the
    kernel is not called. *)
Theorem resolved_absent_id_raises {F} s_tag use_arr cps (k : gmsh F) :
  List.length cps = 3%nat ->
  mem 1 cps = false ->
  declare_surface find_missing_numbers s_tag use_arr cps k
  = (Raise (ValueError "x is not in list"), k).
Proof.
  intros Hlen H1.
  destruct cps as [| x [| y [| z [| w cps]]]]; try discriminate Hlen.
  destruct (filter (fun v => negb (existsb (Z.eqb v) [x; y; z])) arange_2_21)
    as [| m0 rest] eqn:E.
  { now apply some_id_is_missing in E. }
  apply (absent_id_cannot_lead find_missing_numbers s_tag use_arr [x; y; z]
           (filter (fun v => existsb (Z.eqb v) [x; y; z]) arange_2_21)
           m0 rest k k Hlen H1).
  - unfold find_missing_numbers, ret. now rewrite E.
  - apply filter_head in E. unfold mem.
    now destruct (existsb (Z.eqb m0) [x; y; z]).
Qed.

(** Witness: the corners 5, 6, 7. *)
Lemma resolved_absent_id_raises_witness :
  declare_surface find_missing_numbers 9 "Left" [5; 6; 7] (@fresh float)
  = (Raise (ValueError "x is not in list"), fresh).
Proof.
  apply (resolved_absent_id_raises 9 "Left" [5; 6; 7] (@fresh float)).
  - reflexivity.
  - reflexivity.
Defined.

(** C6 as the spec words it does not hold.  A flat box in the plane
    z = 0 with x in [0, 1] and y in [-2, -1] lies outside the
    non-negative quadrant, and its "outer" surface gets "Right".  A box
    reaching from z = -1 to z = 1 does not lie at the plane, and its
    "outer" surface gets "Right" too, the mean of the two bounds being
    zero.  A triangle on the points 5, 6 and 7 has its label "Right" in
    the request, and is then either not declared at all (the helper of
    the spec: [ValueError]) or declared without arrangement (a helper
    that resolves the corner 6). *)
Lemma label_reads_two_coordinates_and_may_be_dropped :
  let negative_y :=
    mkBbox 0%float (-2)%float 0%float 1%float (-1)%float 0%float in
  let thick :=
    mkBbox 0%float 0%float (-1)%float 1%float 1%float 1%float in
  let resolver (ids _ : list Z) : M float (list Z * list Z) :=
    ret ([], tl ids) in
  let raised :=
    sweep_surface toy_bounding_box triangle_boundary toy_entity_type
      find_missing_numbers 4 16 1%float "inner" 50 tt fresh in
  let declared :=
    sweep_surface toy_bounding_box triangle_boundary toy_entity_type
      resolver 4 16 1%float "inner" 50 tt fresh in
  (fst (arrangement (fun _ _ _ => negative_y) "outer" 7 fresh) = Ok "Right"
   /\ spec_outer_is_right negative_y = false
   /\ flt (ymax negative_y) (of_int 0) = true)
  /\ (fst (arrangement (fun _ _ _ => thick) "outer" 7 fresh) = Ok "Right"
      /\ spec_outer_is_right thick = false
      /\ flt (zmin thick) (fneg lit_1em6) = true
      /\ fgt (zmax thick) lit_1em6 = true)
  /\ (fst raised = Raise (ValueError "x is not in list")
      /\ filter is_request (calls (snd raised))
         = [SetTransfinite [11; 12; 13] [] [(50, "Right")] 4 16
              (Some 1%float)]
      /\ filter is_declaration (calls (snd raised)) = [])
  /\ (fst declared = Ok tt
      /\ filter is_request (calls (snd declared))
         = [SetTransfinite [11; 12; 13] [] [(50, "Right")] 4 16
              (Some 1%float)]
      /\ filter is_declaration (calls (snd declared))
         = [SetTransfiniteSurface 50 None (Some [6; 7; 5])]).
Proof. vm_compute. repeat split. Qed.

(** C9 as the spec words it does not hold for every call.  On a kernel
    whose revolution answers no volume, the call stops with
    [StopIteration] after a single revolution.  On a kernel whose side
    surfaces are triangles without point 1, both revolutions are made
    and answer the volumes 1 and 2, and the structured pass then raises
    [ValueError]: no handle is returned.  With an axis of two
    coordinates the call raises [IndexError] and no revolution is
    made. *)
Lemma returned_handles_depend_on_the_kernel :
  let angle := PrimFloat.div math_pi 4%float in
  let axis := [0%float; 0%float; 1%float] in
  let centre := [0%float; 0%float; 0%float] in
  let flat (_ : gmsh float) (_ : list (Z * Z)) (_ _ _ _ _ _ _ : float) :=
    [(2, 50)] in
  let no_volume :=
    revolve_surface flat toy_bounding_box toy_boundary
      toy_entity_type gmsh_present find_missing_numbers
      axis centre angle 7 4 16 1%float "inner" false fresh in
  let failed_pass :=
    revolve_surface toy_revolve_out toy_bounding_box triangle_boundary
      toy_entity_type gmsh_present find_missing_numbers
      axis centre angle 7 4 16 1%float "inner" true fresh in
  let short_axis :=
    revolve_surface toy_revolve_out toy_bounding_box toy_boundary
      toy_entity_type gmsh_present find_missing_numbers
      [0%float; 1%float] centre angle 7 4 16 1%float "inner" false fresh in
  (fst no_volume = Raise StopIteration
   /\ calls (snd no_volume)
      = [Revolve [(2, 7)] 0%float 0%float 1%float 0%float 0%float 0%float
           angle [(2, 50)]])
  /\ (fst failed_pass = Raise (ValueError "x is not in list")
      /\ filter is_revolve (calls (snd failed_pass))
         = [Revolve [(2, 7)] 0%float 0%float 1%float 0%float 0%float 0%float
              angle [(2, 50); (3, 1)];
            Revolve [(2, 7)] 0%float 0%float 1%float 0%float 0%float 0%float
              (fneg angle) [(2, 50); (3, 2)]])
  /\ (fst short_axis = Raise IndexError
      /\ calls (snd short_axis) = []).
Proof. vm_compute. repeat split. Qed.

End MeshFacts.

(* ================================================================== *)
(** * The division counts *)
(* ================================================================== *)

Module RoundFacts.

(** ** Locations and rounding to nearest *)

Lemma inbetween_bounds A B m l :
  0 < B -> inbetween A B m l -> m * B <= A < (m + 1) * B.
Proof.
  intros HB. destruct l as [| []]; cbv [inbetween]; nia.
Qed.

Lemma inbetween_scale A B A' B' m l :
  0 < B -> 0 < B' -> A * B' = A' * B ->
  inbetween A B m l -> inbetween A' B' m l.
Proof.
  intros HB HB' E. destruct l as [| []]; cbv [inbetween]; nia.
Qed.

Lemma new_location_spec B q r :
  0 < B -> 0 <= r < B ->
  inbetween (q * B + r) B q (new_location B r).
Proof.
  intros HB Hr. unfold new_location, new_location_even, new_location_odd.
  destruct (Z.even B) eqn:Ev.
  - destruct (Z.eqb_spec r 0) as [-> | Hne]; cbv [inbetween]; [lia |].
    destruct (Z.compare_spec (2 * r) B); cbv [inbetween]; nia.
  - destruct (Z.eqb_spec r 0) as [-> | Hne]; cbv [inbetween]; [lia |].
    assert (Hodd : Z.odd B = true) by (rewrite <- Z.negb_even, Ev; reflexivity).
    apply Z.odd_spec in Hodd. destruct Hodd as [j Hj].
    destruct (Z.compare_spec (2 * r + 1) B); cbv [inbetween]; nia.
Qed.

Lemma loc_of_record m l :
  loc_of_shr_record (shr_record_of_loc m l) = l.
Proof. destruct l as [| []]; reflexivity. Qed.

Lemma shr_m_of_loc m l : shr_m (shr_record_of_loc m l) = m.
Proof. destruct l as [| []]; reflexivity. Qed.

(** One shift to the right halves the number looked at. *)
Lemma shr_1_spec A B mrs :
  0 < B -> 0 <= shr_m mrs ->
  inbetween A B (shr_m mrs) (loc_of_shr_record mrs) ->
  0 <= shr_m (shr_1 mrs)
  /\ inbetween A (2 * B) (shr_m (shr_1 mrs)) (loc_of_shr_record (shr_1 mrs)).
Proof.
  intros HB Hm Hin. destruct mrs as [m r s]. cbn [shr_m] in *.
  pose proof (inbetween_bounds _ _ _ _ HB Hin) as Hb.
  destruct m as [| p | p]; [| | lia].
  - destruct r, s; cbv [shr_1 shr_m loc_of_shr_record orb inbetween] in *; nia.
  - destruct p as [p | p |].
    + destruct r, s;
        cbv [shr_1 shr_m loc_of_shr_record orb inbetween] in *;
        rewrite (Pos2Z.inj_xI p) in *; nia.
    + destruct r, s;
        cbv [shr_1 shr_m loc_of_shr_record orb inbetween] in *;
        rewrite (Pos2Z.inj_xO p) in *; nia.
    + destruct r, s;
        cbv [shr_1 shr_m loc_of_shr_record orb inbetween] in *; nia.
Qed.

Lemma pow2_xO p : 2 ^ Z.pos p~0 = 2 ^ Z.pos p * 2 ^ Z.pos p.
Proof. rewrite <- Z.pow_add_r by lia. f_equal. lia. Qed.

Lemma pow2_xI p : 2 ^ Z.pos p~1 = 2 * (2 ^ Z.pos p * 2 ^ Z.pos p).
Proof.
  rewrite <- Z.pow_add_r by lia. rewrite <- Z.pow_succ_r by lia.
  f_equal. lia.
Qed.

Lemma pow2_pos e : 0 <= e -> 0 < 2 ^ e.
Proof. intros He. apply Z.pow_pos_nonneg; lia. Qed.

(** [p] shifts to the right divide the number looked at by [2 ^ p]. *)
Lemma iter_shr_spec A p : forall B mrs,
  0 < B -> 0 <= shr_m mrs ->
  inbetween A B (shr_m mrs) (loc_of_shr_record mrs) ->
  0 <= shr_m (iter_pos shr_1 p mrs)
  /\ inbetween A (2 ^ Z.pos p * B) (shr_m (iter_pos shr_1 p mrs))
       (loc_of_shr_record (iter_pos shr_1 p mrs)).
Proof.
  induction p as [p IH | p IH |]; intros B mrs HB Hm Hin; cbn [iter_pos].
  - destruct (shr_1_spec A B mrs HB Hm Hin) as [H1 H2].
    destruct (IH (2 * B) _ ltac:(lia) H1 H2) as [H3 H4].
    pose proof (pow2_pos (Z.pos p) ltac:(lia)) as Hp.
    destruct (IH (2 ^ Z.pos p * (2 * B)) _ ltac:(nia) H3 H4) as [H5 H6].
    split; [exact H5 |].
    replace (2 ^ Z.pos p~1 * B) with (2 ^ Z.pos p * (2 ^ Z.pos p * (2 * B)));
      [exact H6 |].
    rewrite pow2_xI. ring.
  - destruct (IH B _ HB Hm Hin) as [H3 H4].
    pose proof (pow2_pos (Z.pos p) ltac:(lia)) as Hp.
    destruct (IH (2 ^ Z.pos p * B) _ ltac:(nia) H3 H4) as [H5 H6].
    split; [exact H5 |].
    replace (2 ^ Z.pos p~0 * B) with (2 ^ Z.pos p * (2 ^ Z.pos p * B));
      [exact H6 |].
    rewrite pow2_xO. ring.
  - change (2 ^ 1) with 2. apply shr_1_spec; assumption.
Qed.

Lemma round_nearest_even_spec A B m l :
  0 < B -> inbetween A B m l -> rne A B (round_nearest_even m l).
Proof.
  intros HB Hin. unfold rne.
  destruct l as [| []]; cbv [inbetween round_nearest_even] in *.
  - split; [nia |]. intros [E | E]; nia.
  - destruct (Z.even m) eqn:Ev.
    + split; [nia |]. intros _. exact Ev.
    + split; [nia |]. intros _.
      rewrite Z.even_add, Ev. reflexivity.
  - split; [nia |]. intros [E | E]; nia.
  - split; [nia |]. intros [E | E]; nia.
Qed.

Lemma rne_lower A B n k : 0 < B -> rne A B n -> k * B <= A -> k <= n.
Proof.
  intros HB [[H1 H2] _] Hk.
  destruct (Z_le_gt_dec k n) as [Hn | Hn]; [exact Hn | exfalso].
  assert (n * B <= (k - 1) * B) by (apply Z.mul_le_mono_nonneg_r; lia).
  lia.
Qed.

Lemma rne_upper A B n k : 0 < B -> rne A B n -> A <= k * B -> n <= k.
Proof.
  intros HB [[H1 H2] _] Hk.
  destruct (Z_le_gt_dec n k) as [Hn | Hn]; [exact Hn | exfalso].
  assert ((k + 1) * B <= n * B) by (apply Z.mul_le_mono_nonneg_r; lia).
  lia.
Qed.

Lemma rne_monotone A B n A' B' n' :
  0 < B -> 0 < B' -> rne A B n -> rne A' B' n' ->
  A * B' <= A' * B -> n <= n'.
Proof.
  intros HB HB' [[L U] T] [[L' U'] T'] Hle.
  destruct (Z_le_gt_dec n n') as [Hn | Hn]; [exact Hn | exfalso].
  assert (H1 : (2 * n' + 1) * B <= 2 * A) by nia.
  assert (H2 : 2 * A' <= (2 * n' + 1) * B') by nia.
  assert (H3 : (2 * n' + 1) * B * B' <= 2 * A * B') by nia.
  assert (H4 : 2 * A' * B <= (2 * n' + 1) * B' * B) by nia.
  assert (E1 : 2 * A = (2 * n' + 1) * B) by nia.
  assert (E2 : 2 * A' = (2 * n' + 1) * B') by nia.
  assert (En : n = n' + 1) by nia.
  assert (Ev : Z.even n = true) by (apply T; left; nia).
  assert (Ev' : Z.even n' = true) by (apply T'; right; nia).
  rewrite En, Z.even_add, Ev' in Ev. discriminate.
Qed.

(** ** Digits *)

Lemma digits_bounds p :
  2 ^ (Z.pos (digits2_pos p) - 1) <= Z.pos p < 2 ^ Z.pos (digits2_pos p).
Proof.
  induction p as [p IH | p IH |]; cbn [digits2_pos].
  - rewrite Pos2Z.inj_succ, (Pos2Z.inj_xI p).
    replace (Z.succ (Z.pos (digits2_pos p)) - 1)
      with (Z.succ (Z.pos (digits2_pos p) - 1)) by lia.
    rewrite !Z.pow_succ_r by lia.
    destruct IH as [IH1 IH2]. revert IH1 IH2.
    generalize (2 ^ (Z.pos (digits2_pos p) - 1)).
    generalize (2 ^ Z.pos (digits2_pos p)). intros; lia.
  - rewrite Pos2Z.inj_succ, (Pos2Z.inj_xO p).
    replace (Z.succ (Z.pos (digits2_pos p)) - 1)
      with (Z.succ (Z.pos (digits2_pos p) - 1)) by lia.
    rewrite !Z.pow_succ_r by lia.
    destruct IH as [IH1 IH2]. revert IH1 IH2.
    generalize (2 ^ (Z.pos (digits2_pos p) - 1)).
    generalize (2 ^ Z.pos (digits2_pos p)). intros; lia.
  - cbn. lia.
Qed.

Lemma digits_le p d : Z.pos p < 2 ^ d -> 0 <= d -> Z.pos (digits2_pos p) <= d.
Proof.
  intros Hp Hd. pose proof (digits_bounds p) as [Hl _].
  destruct (Z_le_gt_dec (Z.pos (digits2_pos p)) d) as [H | H]; [exact H |].
  exfalso.
  assert (2 ^ d <= 2 ^ (Z.pos (digits2_pos p) - 1))
    by (apply Z.pow_le_mono_r; lia).
  lia.
Qed.

Lemma fexp_eq e : fexp prec emax e = Z.max (e - 53) (-1074).
Proof. reflexivity. Qed.

(** ** Shifting to the exponent of the format *)

Lemma shr_spec A B m l e t :
  0 <= m -> 0 < B -> inbetween A B m l -> 0 <= t ->
  exists mrs,
    shr (shr_record_of_loc m l) e t = (mrs, e + t)
    /\ 0 <= shr_m mrs
    /\ inbetween A (2 ^ t * B) (shr_m mrs) (loc_of_shr_record mrs).
Proof.
  intros Hm HB Hin Ht. unfold shr.
  destruct t as [| p | p]; [| | lia].
  - exists (shr_record_of_loc m l). rewrite Z.add_0_r.
    rewrite shr_m_of_loc, loc_of_record.
    change (2 ^ 0) with 1. rewrite Z.mul_1_l. auto.
  - eexists. split; [reflexivity |].
    apply iter_shr_spec; [exact HB | now rewrite shr_m_of_loc |].
    now rewrite shr_m_of_loc, loc_of_record.
Qed.

Lemma round_nearest_even_nonneg m l : 0 <= m -> 0 <= round_nearest_even m l.
Proof.
  intros Hm. unfold round_nearest_even.
  destruct l as [| []]; try lia. destruct (Z.even m); lia.
Qed.

(** The second alignment of [binary_round_aux] loses nothing: a rounded
    mantissa of at most 53 bits stays, and [2 ^ 53] becomes [2 ^ 52] one
    exponent higher. *)
Lemma renormalize_spec sx n g :
  0 <= n <= 2 ^ 53 -> -1074 <= g ->
  match
    (let '(mrs, e2) := shr_fexp prec emax n g loc_Exact in
     match shr_m mrs with
     | Z0 => S754_zero sx
     | Zpos m =>
         if Z.leb e2 (emax - prec) then S754_finite sx m e2
         else S754_infinity sx
     | _ => S754_nan
     end)
  with
  | S754_zero s => s = sx /\ n = 0
  | S754_finite s m e2 => s = sx /\ g <= e2 /\ Z.pos m * 2 ^ (e2 - g) = n
  | S754_infinity s => s = sx
  | S754_nan => False
  end.
Proof.
  intros [Hn0 Hn] Hg. unfold shr_fexp. rewrite fexp_eq.
  destruct n as [| pn | pn]; [| | lia].
  - cbn [Zdigits2 shr_record_of_loc]. rewrite Z.add_0_l.
    destruct (Z.max (g - 53) (-1074) - g) as [| p | p] eqn:Et; try lia.
    all: cbn [shr shr_m]; auto.
  - destruct (Z.eq_dec (Z.pos pn) (2 ^ 53)) as [E | Hlt].
    + injection E as ->. cbn [Zdigits2 digits2_pos Pos.succ].
      replace (Z.max (54 + g - 53) (-1074) - g) with 1 by lia.
      cbn [shr shr_record_of_loc iter_pos shr_1 shr_m].
      destruct (Z.leb (g + 1) (emax - prec)); [| reflexivity].
      split; [reflexivity |]. split; [lia |].
      replace (g + 1 - g) with 1 by lia. reflexivity.
    + assert (Hd : Z.pos (digits2_pos pn) <= 53)
        by (apply digits_le; lia).
      cbn [Zdigits2 shr_record_of_loc].
      destruct (Z.max (Z.pos (digits2_pos pn) + g - 53) (-1074) - g)
        as [| p | p] eqn:Et; try lia.
      all: cbn [shr shr_m].
      all: destruct (Z.leb g (emax - prec)); [| reflexivity].
      all: split; [reflexivity |]; split; [lia |].
      all: rewrite Z.sub_diag; cbn; lia.
Qed.

(** ** [binary_round_aux] rounds to nearest, ties to even *)

Lemma binary_round_aux_spec sx q e' loc A B :
  0 <= q -> 0 < B -> inbetween A B q loc ->
  e' <= fexp prec emax (Zdigits2 q + e') ->
  exists g n,
    g = fexp prec emax (Zdigits2 q + e')
    /\ -1074 <= g
    /\ rne A (2 ^ (g - e') * B) n
    /\ A < 2 ^ 53 * (2 ^ (g - e') * B)
    /\ (g = -1074 \/ 2 ^ 52 * (2 ^ (g - e') * B) <= A)
    /\ match binary_round_aux prec emax sx q e' loc with
       | S754_zero s => s = sx /\ n = 0
       | S754_finite s m e2 =>
           s = sx /\ g <= e2 /\ Z.pos m * 2 ^ (e2 - g) = n
       | S754_infinity s => s = sx
       | S754_nan => False
       end.
Proof.
  intros Hq HB Hin Ht.
  set (g := fexp prec emax (Zdigits2 q + e')) in *.
  assert (Hg : -1074 <= g) by (unfold g; rewrite fexp_eq; lia).
  destruct (shr_spec A B q loc e' (g - e') Hq HB Hin ltac:(lia))
    as (mrs & Es & Hm & Hin1).
  replace (e' + (g - e')) with g in Es by lia.
  set (B1 := 2 ^ (g - e') * B) in *.
  assert (HB1 : 0 < B1).
  { unfold B1. pose proof (pow2_pos (g - e') ltac:(lia)). nia. }
  set (n := round_nearest_even (shr_m mrs) (loc_of_shr_record mrs)).
  assert (Hrne : rne A B1 n) by (apply round_nearest_even_spec; assumption).
  assert (Hn0 : 0 <= n) by (apply round_nearest_even_nonneg; exact Hm).
  pose proof (inbetween_bounds _ _ _ _ HB Hin) as [Hlo Hhi].
  assert (Hbounds : A < 2 ^ 53 * B1 /\ (g = -1074 \/ 2 ^ 52 * B1 <= A)).
  { unfold B1. destruct q as [| p | p]; [| | lia].
    - cbn [Zdigits2] in g. unfold g in *. rewrite fexp_eq in *.
      split; [| left; lia].
      pose proof (pow2_pos (Z.max (0 + e' - 53) (-1074) - e') ltac:(lia)).
      nia.
    - cbn [Zdigits2] in g.
      pose proof (digits_bounds p) as [Hdl Hdu].
      set (d := Z.pos (digits2_pos p)) in *.
      assert (Hd : 0 < d) by (unfold d; lia).
      assert (Hgd : d + e' - 53 <= g) by (unfold g; rewrite fexp_eq; lia).
      split.
      + assert (2 ^ d <= 2 ^ (53 + (g - e')))
          by (apply Z.pow_le_mono_r; lia).
        rewrite Z.pow_add_r in * by lia. nia.
      + destruct (Z.eq_dec g (-1074)) as [E | Hne]; [left; exact E | right].
        assert (Eg : g = d + e' - 53)
          by (unfold g in *; rewrite fexp_eq in *; lia).
        assert (E2 : 2 ^ 52 * 2 ^ (g - e') = 2 ^ (d - 1)).
        { rewrite <- Z.pow_add_r by lia. f_equal. lia. }
        nia. }
  destruct Hbounds as [Hup Hnorm].
  assert (Hn : n <= 2 ^ 53).
  { apply (rne_upper A B1 n (2 ^ 53) HB1 Hrne). lia. }
  exists g, n. split; [reflexivity |]. split; [exact Hg |].
  split; [exact Hrne |]. split; [exact Hup |]. split; [exact Hnorm |].
  unfold binary_round_aux. unfold shr_fexp at 1. fold g. rewrite Es.
  fold n. apply renormalize_spec; [lia | exact Hg].
Qed.

(** ** Division *)

Lemma fexp_monotone e1 e2 :
  e1 <= e2 -> fexp prec emax e1 <= fexp prec emax e2.
Proof. rewrite !fexp_eq. lia. Qed.

Lemma pow2_lt_inv a b : 0 <= b -> 2 ^ a < 2 ^ b -> a < b.
Proof.
  intros Hb H. destruct (Z_lt_ge_dec a b) as [Hl | Hg]; [exact Hl | exfalso].
  assert (2 ^ b <= 2 ^ a) by (apply Z.pow_le_mono_r; lia). lia.
Qed.

(** Lines of [SFdiv_core_binary]: the quotient is computed with enough
    bits for the alignment of [binary_round_aux] to shift to the right. *)
Lemma SFdiv_core_spec mx ex my ey :
  exists q e' loc,
    SFdiv_core_binary prec emax (Z.pos mx) ex (Z.pos my) ey = (q, e', loc)
    /\ 0 <= q
    /\ e' <= ex - ey
    /\ Z.min (-1074) (ex - ey) <= e'
    /\ e' <= fexp prec emax (Zdigits2 q + e')
    /\ inbetween (Z.pos mx * 2 ^ (ex - ey - e')) (Z.pos my) q loc.
Proof.
  unfold SFdiv_core_binary. cbn [Zdigits2].
  set (d1 := Z.pos (digits2_pos mx)).
  set (d2 := Z.pos (digits2_pos my)).
  set (D := d1 + ex - (d2 + ey)).
  set (e' := Z.min (fexp prec emax D) (ex - ey)).
  set (s := ex - ey - e').
  assert (Hs : 0 <= s) by (unfold s, e'; lia).
  assert (He' : e' <= fexp prec emax D) by (unfold e'; lia).
  assert (Hm' : match s with
                | Z.pos _ => Z.shiftl (Z.pos mx) s
                | 0 => Z.pos mx
                | Z.neg _ => 0
                end = Z.pos mx * 2 ^ s).
  { destruct s as [| p | p] eqn:Es; [| | lia].
    - change (2 ^ 0) with 1. lia.
    - apply Z.shiftl_mul_pow2. lia. }
  rewrite Hm'.
  pose proof (Z_div_mod (Z.pos mx * 2 ^ s) (Z.pos my) ltac:(lia)) as Hdiv.
  destruct (Z.div_eucl (Z.pos mx * 2 ^ s) (Z.pos my)) as [q r].
  destruct Hdiv as [Eq Hr].
  pose proof (pow2_pos s Hs) as Hps.
  assert (Hq : 0 <= q) by nia.
  exists q, e', (new_location (Z.pos my) r).
  split; [reflexivity |]. split; [exact Hq |].
  split; [unfold e'; lia |].
  split; [unfold e'; rewrite fexp_eq; lia |].
  split.
  2: { fold s. rewrite Eq, (Z.mul_comm (Z.pos my) q).
       apply new_location_spec; lia. }
  pose proof (digits_bounds mx) as [Hx1 Hx2]. fold d1 in Hx1, Hx2.
  pose proof (digits_bounds my) as [Hy1 Hy2]. fold d2 in Hy1, Hy2.
  assert (Hd1 : 0 < d1) by (unfold d1; lia).
  assert (Hd2 : 0 < d2) by (unfold d2; lia).
  assert (HDe : D - e' = d1 + s - d2) by (unfold D, s; lia).
  destruct q as [| pq | pq]; [| | lia].
  - (* the quotient is below one *)
    cbn [Zdigits2]. rewrite Z.add_0_l.
    assert (Hlt : 2 ^ (d1 - 1 + s) < 2 ^ d2).
    { rewrite Z.pow_add_r by lia. nia. }
    apply pow2_lt_inv in Hlt; [| lia].
    rewrite fexp_eq in *. lia.
  - cbn [Zdigits2].
    pose proof (digits_bounds pq) as [Hq1 Hq2].
    set (dq := Z.pos (digits2_pos pq)) in *.
    apply Z.le_trans with (1 := He'). apply fexp_monotone.
    enough (d1 + s - d2 <= dq) by lia.
    destruct (Z_lt_ge_dec (d1 - 1 + s - d2) 0) as [Hk | Hk];
      [unfold dq; lia |].
    enough (d1 - 1 + s - d2 < dq) by lia.
    apply pow2_lt_inv; [unfold dq; lia |].
    apply Z.le_lt_trans with (2 := Hq2).
    assert (E : 2 ^ (d1 - 1 + s) = 2 ^ (d1 - 1 + s - d2) * 2 ^ d2).
    { rewrite <- Z.pow_add_r by lia. f_equal. lia. }
    assert (Hm : 2 ^ (d1 - 1 + s) <= Z.pos mx * 2 ^ s).
    { rewrite Z.pow_add_r by lia. nia. }
    pose proof (pow2_pos (d1 - 1 + s - d2) ltac:(lia)) as Hpk.
    destruct (Z_le_gt_dec (2 ^ (d1 - 1 + s - d2)) (Z.pos pq)) as [H | H];
      [exact H | exfalso].
    assert (Z.pos pq + 1 <= 2 ^ (d1 - 1 + s - d2)) by lia.
    assert (Z.pos my * (Z.pos pq + 1) <= Z.pos my * 2 ^ (d1 - 1 + s - d2))
      by (apply Z.mul_le_mono_nonneg_l; lia).
    assert (Z.pos my * 2 ^ (d1 - 1 + s - d2)
            <= 2 ^ d2 * 2 ^ (d1 - 1 + s - d2))
      by (apply Z.mul_le_mono_nonneg_r; lia).
    lia.
Qed.

(** The quotient of two finite doubles, seen from the scaled numerator
    [X = mx * 2 ^ (ex + 4096)] and the scaled divisor
    [H = my * 2 ^ (ey + 1074)]: it is the nearest multiple [n] of
    [2 ^ g], where [g] is the exponent that the size of the quotient
    calls for. *)
Lemma SFdiv_finite_spec sx mx ex sy my ey :
  -1074 <= ex <= 971 -> -1074 <= ey <= 971 ->
  let X := Z.pos mx * 2 ^ (ex + 4096) in
  let H := Z.pos my * 2 ^ (ey + 1074) in
  exists g n,
    -1074 <= g
    /\ rne X (H * 2 ^ (g + 3022)) n
    /\ X < 2 ^ 53 * (H * 2 ^ (g + 3022))
    /\ (g = -1074 \/ 2 ^ 52 * (H * 2 ^ (g + 3022)) <= X)
    /\ match SFdiv prec emax (S754_finite sx mx ex) (S754_finite sy my ey) with
       | S754_zero s => s = xorb sx sy /\ n = 0
       | S754_finite s m e2 =>
           s = xorb sx sy /\ g <= e2 /\ Z.pos m * 2 ^ (e2 - g) = n
       | S754_infinity s => s = xorb sx sy
       | S754_nan => False
       end.
Proof.
  intros Hex Hey X H.
  destruct (SFdiv_core_spec mx ex my ey)
    as (q & e' & loc & Ec & Hq & He1 & He2 & Ht & Hin).
  assert (Hs : 0 <= ex - ey - e') by lia.
  pose proof (pow2_pos (ex - ey - e') Hs) as Hps.
  pose proof (pow2_pos (ey + e' + 4096) ltac:(lia)) as Hpb.
  assert (Hin' : inbetween X (Z.pos my * 2 ^ (ey + e' + 4096)) q loc).
  { apply (inbetween_scale (Z.pos mx * 2 ^ (ex - ey - e')) (Z.pos my));
      [lia | nia | | exact Hin].
    unfold X.
    replace (ex + 4096) with ((ex - ey - e') + (ey + e' + 4096)) by lia.
    rewrite (Z.pow_add_r 2 (ex - ey - e') (ey + e' + 4096)) by lia. ring. }
  destruct (binary_round_aux_spec (xorb sx sy) q e' loc X
              (Z.pos my * 2 ^ (ey + e' + 4096)) Hq ltac:(nia) Hin' Ht)
    as (g & n & Eg & Hg & Hrne & Hup & Hnorm & Hres).
  assert (Hge : e' <= g) by (rewrite Eg; exact Ht).
  assert (EB : 2 ^ (g - e') * (Z.pos my * 2 ^ (ey + e' + 4096))
               = H * 2 ^ (g + 3022)).
  { unfold H. rewrite Z.mul_comm, <- !Z.mul_assoc. f_equal.
    rewrite <- !Z.pow_add_r by lia. f_equal. lia. }
  rewrite EB in *.
  exists g, n. split; [exact Hg |]. split; [exact Hrne |].
  split; [exact Hup |]. split; [exact Hnorm |].
  unfold SFdiv. rewrite Ec. exact Hres.
Qed.

(** With the same numerator, the smaller divisor gives the larger
    quotient, also after rounding. *)
Lemma rounded_quotient_monotone X H H' g g' n n' :
  0 <= X -> 0 < H' <= H ->
  -1074 <= g -> -1074 <= g' ->
  rne X (H * 2 ^ (g + 3022)) n ->
  rne X (H' * 2 ^ (g' + 3022)) n' ->
  X < 2 ^ 53 * (H * 2 ^ (g + 3022)) ->
  X < 2 ^ 53 * (H' * 2 ^ (g' + 3022)) ->
  (g = -1074 \/ 2 ^ 52 * (H * 2 ^ (g + 3022)) <= X) ->
  (g' = -1074 \/ 2 ^ 52 * (H' * 2 ^ (g' + 3022)) <= X) ->
  n * 2 ^ (g + 1074) <= n' * 2 ^ (g' + 1074).
Proof.
  intros HX HH Hg Hg' Hr Hr' Hu Hu' Hn Hn'.
  pose proof (pow2_pos (g + 3022) ltac:(lia)) as Hp.
  pose proof (pow2_pos (g' + 3022) ltac:(lia)) as Hp'.
  pose proof (pow2_pos (g + 1074) ltac:(lia)) as Hq.
  pose proof (pow2_pos (g' + 1074) ltac:(lia)) as Hq'.
  assert (HB : 0 < H * 2 ^ (g + 3022)) by nia.
  assert (HB' : 0 < H' * 2 ^ (g' + 3022)) by nia.
  assert (Hgg : g <= g').
  { destruct Hn as [-> | Hn]; [exact Hg' |].
    assert (Hlt : 2 ^ 52 * (H * 2 ^ (g + 3022))
                  < 2 ^ 53 * (H * 2 ^ (g' + 3022))).
    { apply Z.le_lt_trans with (1 := Hn).
      apply Z.lt_le_trans with (1 := Hu').
      apply Z.mul_le_mono_nonneg_l; [lia |].
      apply Z.mul_le_mono_nonneg_r; lia. }
    assert (Hlt2 : 2 ^ (g + 3022) < 2 ^ (g' + 3022 + 1)).
    { rewrite (Z.pow_add_r 2 (g' + 3022) 1) by lia. change (2 ^ 1) with 2.
      change (2 ^ 53) with (2 * 2 ^ 52) in Hlt. nia. }
    apply pow2_lt_inv in Hlt2; lia. }
  destruct (Z.eq_dec g g') as [<- | Hne].
  - assert (n <= n').
    { apply (rne_monotone X (H * 2 ^ (g + 3022)) n
               X (H' * 2 ^ (g + 3022)) n' HB HB' Hr Hr').
      apply Z.mul_le_mono_nonneg_l; [assumption |].
      apply Z.mul_le_mono_nonneg_r; lia. }
    apply Z.mul_le_mono_nonneg_r; lia.
  - destruct Hn' as [-> | Hn']; [lia |].
    assert (H1 : 2 ^ 52 <= n')
      by (apply (rne_lower X _ n' (2 ^ 52) HB' Hr'); lia).
    assert (H2 : n <= 2 ^ 53)
      by (apply (rne_upper X _ n (2 ^ 53) HB Hr); lia).
    apply Z.le_trans with (2 ^ 53 * 2 ^ (g + 1074));
      [apply Z.mul_le_mono_nonneg_r; lia |].
    apply Z.le_trans with (2 ^ 52 * 2 ^ (g' + 1074));
      [| apply Z.mul_le_mono_nonneg_r; lia].
    rewrite <- !Z.pow_add_r by lia. apply Z.pow_le_mono_r; lia.
Qed.

(** ** Doubles *)

Lemma valid_finite s m e :
  valid_binary (S754_finite s m e) = true ->
  -1074 <= e <= 971
  /\ Z.pos m < 2 ^ 53
  /\ (e = -1074 \/ 2 ^ 52 <= Z.pos m).
Proof.
  unfold SpecFloat.valid_binary, bounded, canonical_mantissa.
  rewrite andb_true_iff, Z.eqb_eq, Z.leb_le, fexp_eq.
  change (emax - prec) with 971. intros [Hc He].
  pose proof (digits_bounds m) as [Hl Hu].
  set (d := Z.pos (digits2_pos m)) in *.
  assert (Hd : d <= 53) by lia.
  split; [lia |]. split.
  - apply Z.lt_le_trans with (1 := Hu). apply Z.pow_le_mono_r; lia.
  - destruct (Z.eq_dec e (-1074)) as [E | Hne]; [left; exact E | right].
    assert (E : d = 53) by lia. rewrite E in Hl. exact Hl.
Qed.

(** [int(ceil(x))] is the ceiling of the value. *)
Lemma ceil_scaled x c :
  Binary64.ceil x = Some c ->
  c = - ((- scaled (Prim2SF x)) / 2 ^ 1074).
Proof.
  unfold Binary64.ceil. pose proof (Prim2SF_valid x) as Hv.
  destruct (Prim2SF x) as [s | s | | s m e]; try discriminate.
  - intros [= <-]. reflexivity.
  - apply valid_finite in Hv. destruct Hv as [He _].
    intros [= <-]. unfold scaled.
    destruct (Z.leb_spec 0 e) as [Hpos | Hneg].
    + rewrite (Z.pow_add_r 2 e 1074) by lia. rewrite Z.mul_assoc.
      destruct s.
      * rewrite Z.opp_involutive, Z.div_mul; [reflexivity |].
        apply Z.pow_nonzero; lia.
      * rewrite <- Z.mul_opp_l, Z.div_mul;
          [symmetry; apply Z.opp_involutive |].
        apply Z.pow_nonzero; lia.
    + assert (E : 2 ^ 1074 = 2 ^ (- e) * 2 ^ (e + 1074)).
      { rewrite <- Z.pow_add_r by lia. f_equal. lia. }
      rewrite E.
      destruct s.
      * rewrite Z.opp_involutive, Z.div_mul_cancel_r;
          [reflexivity | apply Z.pow_nonzero; lia
          | apply Z.pow_nonzero; lia].
      * rewrite <- Z.mul_opp_l, Z.div_mul_cancel_r;
          [reflexivity | apply Z.pow_nonzero; lia
          | apply Z.pow_nonzero; lia].
Qed.

Lemma ceil_monotone x y c d :
  Binary64.ceil x = Some c -> Binary64.ceil y = Some d ->
  scaled (Prim2SF x) <= scaled (Prim2SF y) -> c <= d.
Proof.
  intros Ex Ey Hle. rewrite (ceil_scaled x c Ex), (ceil_scaled y d Ey).
  apply Z.opp_le_mono. rewrite !Z.opp_involutive.
  apply Z.div_le_mono; [| lia]. apply pow2_pos. lia.
Qed.

(** On valid positive doubles, the comparison of [SpecFloat] is the
    comparison of the values. *)
Lemma SFleb_scaled m1 e1 m2 e2 :
  valid_binary (S754_finite false m1 e1) = true ->
  valid_binary (S754_finite false m2 e2) = true ->
  SFleb (S754_finite false m1 e1) (S754_finite false m2 e2) = true ->
  Z.pos m1 * 2 ^ (e1 + 1074) <= Z.pos m2 * 2 ^ (e2 + 1074).
Proof.
  intros V1 V2. apply valid_finite in V1, V2.
  destruct V1 as (He1 & Hu1 & Hn1). destruct V2 as (He2 & Hu2 & Hn2).
  unfold SFleb, SFcompare.
  destruct (Z.compare_spec e1 e2) as [<- | Hlt | Hgt].
  - change (Pos.compare_cont Eq m1 m2) with (Pos.compare m1 m2).
    destruct (Pos.compare_spec m1 m2) as [-> | H | H]; intros E;
      try discriminate E.
    + lia.
    + apply Z.mul_le_mono_nonneg_r; [| lia].
      pose proof (pow2_pos (e1 + 1074) ltac:(lia)). lia.
  - intros _. destruct Hn2 as [-> | Hn2]; [lia |].
    pose proof (pow2_pos (e1 + 1074) ltac:(lia)) as Hp1.
    pose proof (pow2_pos (e2 + 1074) ltac:(lia)) as Hp2.
    apply Z.le_trans with (2 ^ 53 * 2 ^ (e1 + 1074));
      [apply Z.mul_le_mono_nonneg_r; lia |].
    apply Z.le_trans with (2 ^ 52 * 2 ^ (e2 + 1074));
      [| apply Z.mul_le_mono_nonneg_r; lia].
    rewrite <- !Z.pow_add_r by lia. apply Z.pow_le_mono_r; lia.
  - discriminate.
Qed.

(** The quotient of two valid finite doubles that has a ceiling: its
    value is the rounded quotient of [SFdiv_finite_spec]. *)
Lemma quotient_scaled sx mx ex sy my ey :
  valid_binary (S754_finite sx mx ex) = true ->
  valid_binary (S754_finite sy my ey) = true ->
  let q := SFdiv prec emax (S754_finite sx mx ex) (S754_finite sy my ey) in
  let X := Z.pos mx * 2 ^ (ex + 4096) in
  let H := Z.pos my * 2 ^ (ey + 1074) in
  q <> S754_nan -> (forall s, q <> S754_infinity s) ->
  exists g n,
    -1074 <= g
    /\ rne X (H * 2 ^ (g + 3022)) n
    /\ X < 2 ^ 53 * (H * 2 ^ (g + 3022))
    /\ (g = -1074 \/ 2 ^ 52 * (H * 2 ^ (g + 3022)) <= X)
    /\ scaled q = (if xorb sx sy then - (n * 2 ^ (g + 1074))
                   else n * 2 ^ (g + 1074)).
Proof.
  intros V1 V2 q X H Hnan Hinf.
  apply valid_finite in V1, V2.
  destruct V1 as (Hex & _). destruct V2 as (Hey & _).
  destruct (SFdiv_finite_spec sx mx ex sy my ey Hex Hey)
    as (g & n & Hg & Hrne & Hup & Hnorm & Hres).
  fold q in Hres. fold X H in Hrne, Hup, Hnorm.
  exists g, n. split; [exact Hg |]. split; [exact Hrne |].
  split; [exact Hup |]. split; [exact Hnorm |].
  destruct q as [s | s | | s m e2].
  - destruct Hres as [_ ->]. cbn [scaled]. destruct (xorb sx sy); lia.
  - exfalso. exact (Hinf s eq_refl).
  - contradiction.
  - destruct Hres as (-> & Hge & <-). unfold scaled.
    replace (e2 + 1074) with ((e2 - g) + (g + 1074)) by lia.
    rewrite (Z.pow_add_r 2 (e2 - g) (g + 1074)) by lia.
    rewrite Z.mul_assoc. reflexivity.
Qed.

Lemma zero_is_zero : Prim2SF (Binary64.of_Z 0) = S754_zero false.
Proof. reflexivity. Qed.

Lemma ceiling_le s1 s2 m1 m2 :
  m1 = - ((- s1) / 2 ^ 1074) -> m2 = - ((- s2) / 2 ^ 1074) ->
  s1 <= s2 -> m1 <= m2.
Proof.
  intros -> -> Hle. apply Z.opp_le_mono. rewrite !Z.opp_involutive.
  apply Z.div_le_mono; [| lia]. apply pow2_pos. lia.
Qed.

Lemma ceiling_nonpos s m :
  m = - ((- s) / 2 ^ 1074) -> s <= 0 -> m <= 0.
Proof.
  intros -> Hs. apply Z.opp_nonpos_nonneg.
  apply Z.div_pos; [lia |]. apply pow2_pos. lia.
Qed.

(** The quotient of a finite double by a positive finite double, when it
    has a ceiling. *)
Lemma quotient_by_positive sx mx ex my ey c :
  valid_binary (S754_finite sx mx ex) = true ->
  valid_binary (S754_finite false my ey) = true ->
  let q := SF64div (S754_finite sx mx ex) (S754_finite false my ey) in
  match q with
  | S754_zero _ => Some 0
  | S754_infinity _ => None
  | S754_nan => None
  | S754_finite s m e =>
      let v := if 0 <=? e then Z.pos m * 2 ^ e
               else if s then Z.pos m / 2 ^ (- e)
               else - ((- Z.pos m) / 2 ^ (- e)) in
      Some (if s then - v else v)
  end = Some c ->
  exists g n,
    -1074 <= g /\ 0 <= n
    /\ rne (Z.pos mx * 2 ^ (ex + 4096))
           (Z.pos my * 2 ^ (ey + 1074) * 2 ^ (g + 3022)) n
    /\ Z.pos mx * 2 ^ (ex + 4096)
       < 2 ^ 53 * (Z.pos my * 2 ^ (ey + 1074) * 2 ^ (g + 3022))
    /\ (g = -1074
        \/ 2 ^ 52 * (Z.pos my * 2 ^ (ey + 1074) * 2 ^ (g + 3022))
           <= Z.pos mx * 2 ^ (ex + 4096))
    /\ scaled q = (if sx then - (n * 2 ^ (g + 1074))
                   else n * 2 ^ (g + 1074)).
Proof.
  intros Vx Vh q E.
  assert (Hnan : q <> S754_nan) by (intros N; rewrite N in E; discriminate).
  assert (Hinf : forall s, q <> S754_infinity s)
    by (intros s N; rewrite N in E; discriminate).
  destruct (quotient_scaled sx mx ex false my ey Vx Vh Hnan Hinf)
    as (g & n & Hg & Hrne & Hup & Hnorm & Hval).
  rewrite xorb_false_r in Hval.
  exists g, n. split; [exact Hg |]. split; [| auto].
  pose proof (valid_finite _ _ _ Vx) as (Hex & _).
  pose proof (valid_finite _ _ _ Vh) as (Hey & _).
  pose proof (pow2_pos (ex + 4096) ltac:(lia)).
  pose proof (pow2_pos (ey + 1074) ltac:(lia)).
  pose proof (pow2_pos (g + 3022) ltac:(lia)).
  assert (HB : 0 < Z.pos my * 2 ^ (ey + 1074) * 2 ^ (g + 3022))
    by (repeat apply Z.mul_pos_pos; lia).
  apply (rne_lower _ _ n 0 HB Hrne). rewrite Z.mul_0_l.
  apply Z.mul_nonneg_nonneg; lia.
Qed.

(** Lines 54-55 in binary64: the ceiling of a quotient does not fall
    when the positive divisor gets smaller, unless both ceilings are
    non-positive. *)
Lemma quotient_ceiling_monotone (x h1 h2 : float) m1 m2 :
  PrimFloat.ltb (Binary64.of_Z 0) h2 = true ->
  PrimFloat.leb h2 h1 = true ->
  Binary64.ceil (PrimFloat.div x h1) = Some m1 ->
  Binary64.ceil (PrimFloat.div x h2) = Some m2 ->
  m1 <= m2 \/ (m1 <= 0 /\ m2 <= 0).
Proof.
  intros Hpos Hle E1 E2.
  rewrite ltb_spec, zero_is_zero in Hpos. rewrite leb_spec in Hle.
  pose proof (ceil_scaled _ _ E1) as C1.
  pose proof (ceil_scaled _ _ E2) as C2.
  unfold Binary64.ceil in E1, E2.
  rewrite div_spec in E1, E2, C1, C2.
  pose proof (Prim2SF_valid x) as Vx.
  pose proof (Prim2SF_valid h1) as V1.
  pose proof (Prim2SF_valid h2) as V2.
  destruct (Prim2SF h2) as [s2 | [|] | | [|] my2 ey2]; try discriminate Hpos.
  - (* h2 = +inf, so h1 = +inf *)
    destruct (Prim2SF h1) as [s1 | [|] | | s1 my1 ey1]; try discriminate Hle.
    destruct (Prim2SF x) as [sx | sx | | sx mx ex]; try discriminate E1.
    + left. apply (ceiling_le _ _ _ _ C1 C2). apply Z.le_refl.
    + left. apply (ceiling_le _ _ _ _ C1 C2). apply Z.le_refl.
  - destruct (Prim2SF h1) as [s1 | [|] | | [|] my1 ey1]; try discriminate Hle.
    + (* h1 = +inf *)
      destruct (Prim2SF x) as [sx | sx | | sx mx ex]; try discriminate E1.
      * left. apply (ceiling_le _ _ _ _ C1 C2). apply Z.le_refl.
      * destruct (quotient_by_positive sx mx ex my2 ey2 m2 Vx V2 E2)
          as (g & n & Hg & Hn & _ & _ & _ & Hval).
        rewrite Hval in C2.
        pose proof (pow2_pos (g + 1074) ltac:(lia)) as Hp.
        destruct sx.
        -- right. split.
           ++ apply (ceiling_nonpos _ _ C1). apply Z.le_refl.
           ++ apply (ceiling_nonpos _ _ C2). nia.
        -- left. apply (ceiling_le _ _ _ _ C1 C2).
           change (scaled (SF64div (S754_finite false mx ex)
                             (S754_infinity false))) with 0.
           nia.
    + (* both finite *)
      destruct (Prim2SF x) as [sx | sx | | sx mx ex]; try discriminate E1.
      * left. apply (ceiling_le _ _ _ _ C1 C2). apply Z.le_refl.
      * destruct (quotient_by_positive sx mx ex my1 ey1 m1 Vx V1 E1)
          as (g1 & n1 & Hg1 & Hn1 & Hr1 & Hu1 & Hw1 & Hval1).
        destruct (quotient_by_positive sx mx ex my2 ey2 m2 Vx V2 E2)
          as (g2 & n2 & Hg2 & Hn2 & Hr2 & Hu2 & Hw2 & Hval2).
        rewrite Hval1 in C1. rewrite Hval2 in C2.
        pose proof (pow2_pos (g1 + 1074) ltac:(lia)) as Hp1.
        pose proof (pow2_pos (g2 + 1074) ltac:(lia)) as Hp2.
        destruct sx.
        -- right. split.
           ++ apply (ceiling_nonpos _ _ C1). nia.
           ++ apply (ceiling_nonpos _ _ C2). nia.
        -- left. apply (ceiling_le _ _ _ _ C1 C2).
           pose proof (valid_finite _ _ _ Vx) as (Hex & _).
           pose proof (valid_finite _ _ _ V2) as (Hey2 & _).
           pose proof (pow2_pos (ex + 4096) ltac:(lia)) as Hpx.
           pose proof (pow2_pos (ey2 + 1074) ltac:(lia)) as Hpy.
           apply (rounded_quotient_monotone
                    (Z.pos mx * 2 ^ (ex + 4096))
                    (Z.pos my1 * 2 ^ (ey1 + 1074))
                    (Z.pos my2 * 2 ^ (ey2 + 1074)) g1 g2 n1 n2);
             try assumption; [nia |].
           split; [nia |]. apply SFleb_scaled; assumption.
Qed.

End RoundFacts.

Module PlannerFacts.
Import CoreDisk.

(** C8, as the code has it, in binary64: wherever the two counts are
    computed (a non-zero band size and quotients that have a ceiling),
    both are at least 4; and for positive band sizes [0 < h2 <= h1] with
    everything else fixed, the counts for [h2] are at least the counts
    for [h1].  The quotients are the correctly rounded doubles of lines
    54-55, not the exact ones. *)
Theorem division_counts_bounded_and_monotone
    (a h1 h2 : float) m1 m2 p1 p2 (k : gmsh float) :
  feq h1 (of_int 0) = false ->
  feq h2 (of_int 0) = false ->
  ceil_int (fdiv (fmul (of_int 2) a) h1) = Some m1 ->
  ceil_int (fdiv (fmul (of_int 2) a) h2) = Some m2 ->
  ceil_int (fdiv (fmul lit_half math_pi) h1) = Some p1 ->
  ceil_int (fdiv (fmul lit_half math_pi) h2) = Some p2 ->
  exists r1 r2 g1 g2,
    n_div_radial a h1 k = (Ok r1, k)
    /\ n_div_radial a h2 k = (Ok r2, k)
    /\ n_div_angular h1 k = (Ok g1, k)
    /\ n_div_angular h2 k = (Ok g2, k)
    /\ 4 <= r1 /\ 4 <= r2 /\ 4 <= g1 /\ 4 <= g2
    /\ (flt (of_int 0) h2 = true -> fle h2 h1 = true ->
        r1 <= r2 /\ g1 <= g2).
Proof.
  intros Z1 Z2 E1 E2 G1 G2.
  exists (Z.max 4 m1), (Z.max 4 m2), (Z.max 4 p1), (Z.max 4 p2).
  rewrite (DiskFacts.n_div_radial_ok a h1 m1 k Z1 E1).
  rewrite (DiskFacts.n_div_radial_ok a h2 m2 k Z2 E2).
  rewrite (DiskFacts.n_div_angular_ok h1 p1 k Z1 G1).
  rewrite (DiskFacts.n_div_angular_ok h2 p2 k Z2 G2).
  repeat (split; [reflexivity || lia |]).
  intros Hpos Hle.
  pose proof (RoundFacts.quotient_ceiling_monotone _ h1 h2 m1 m2
                Hpos Hle E1 E2) as Hr.
  pose proof (RoundFacts.quotient_ceiling_monotone _ h1 h2 p1 p2
                Hpos Hle G1 G2) as Hg.
  lia.
Qed.

(** Witness: a = 1 with band sizes 0.5 and 0.1, in binary64; the
    counts are 4 and 4 for the larger size, 20 and 16 for the smaller. *)
Lemma division_counts_bounded_and_monotone_witness :
  (exists r1 r2 g1 g2,
     n_div_radial 1%float f0_5 (@fresh float) = (Ok r1, fresh)
     /\ n_div_radial 1%float f0_1 (@fresh float) = (Ok r2, fresh)
     /\ n_div_angular f0_5 (@fresh float) = (Ok g1, fresh)
     /\ n_div_angular f0_1 (@fresh float) = (Ok g2, fresh)
     /\ 4 <= r1 /\ 4 <= r2 /\ 4 <= g1 /\ 4 <= g2
     /\ (flt (of_int 0) f0_1 = true -> fle f0_1 f0_5 = true ->
         r1 <= r2 /\ g1 <= g2))
  /\ flt (of_int 0) f0_1 = true
  /\ fle f0_1 f0_5 = true
  /\ n_div_radial 1%float f0_5 (@fresh float) = (Ok 4, fresh)
  /\ n_div_radial 1%float f0_1 (@fresh float) = (Ok 20, fresh)
  /\ n_div_angular f0_5 (@fresh float) = (Ok 4, fresh)
  /\ n_div_angular f0_1 (@fresh float) = (Ok 16, fresh).
Proof.
  split.
  - apply (division_counts_bounded_and_monotone
             1%float f0_5 f0_1 4 20 4 16 fresh).
    + reflexivity.
    + reflexivity.
    + vm_compute. reflexivity.
    + vm_compute. reflexivity.
    + vm_compute. reflexivity.
    + vm_compute. reflexivity.
  - repeat split; vm_compute; reflexivity.
Defined.

(** C8 as the spec words it does not hold over all band sizes the code
    accepts: with a = 1, going from h_band = 0.1 down to h_band = -0.1
    takes the radial count from 20 to 4 and the angular count from 16
    to 4. *)
Lemma negative_band_size_lowers_the_counts :
  let h1 := f0_1 in
  let h2 := PrimFloat.opp f0_1 in
  flt h2 h1 = true
  /\ fst (n_div_radial 1%float h1 fresh) = Ok 20
  /\ fst (n_div_radial 1%float h2 fresh) = Ok 4
  /\ fst (n_div_angular h1 fresh) = Ok 16
  /\ fst (n_div_angular h2 fresh) = Ok 4.
Proof. vm_compute. repeat split. Qed.

End PlannerFacts.

(* ================================================================== *)
(** * What a computation adds to the call list, in order *)
(* ================================================================== *)

Section Logs.
Context {F : Type} {X : Type}.
Variable view : list (call F) -> list X.
Hypothesis view_app : forall l1 l2, view (l1 ++ l2) = view l1 ++ view l2.

Lemma view_nil : view [] = [].
Proof.
  pose proof (view_app [] []) as E. cbn in E.
  apply (f_equal (@List.length X)) in E. rewrite length_app in E.
  destruct (view []); [reflexivity | cbn in E; lia].
Qed.

Lemma logs_ret {A} (Q : A -> Prop) a : Q a -> logs view [] Q (ret a).
Proof.
  intros Hq k. exists []. cbn. rewrite app_nil_r, view_nil.
  split; [reflexivity |]. split; [exists []; reflexivity |].
  intros r [= <-]. auto.
Qed.

Lemma logs_raise {A} (Q : A -> Prop) L e : logs view L Q (@raise F A e).
Proof.
  intros k. exists []. cbn. rewrite app_nil_r, view_nil.
  split; [reflexivity |]. split; [exists L; reflexivity |].
  intros r E; discriminate.
Qed.

Lemma logs_bind {A B} (Q1 : A -> Prop) (Q2 : B -> Prop) L1 L2
    (m : M F A) (f : A -> M F B) :
  logs view L1 Q1 m -> (forall a, Q1 a -> logs view L2 Q2 (f a)) ->
  logs view (L1 ++ L2) Q2 (bind m f).
Proof.
  intros Hm Hf k. destruct (Hm k) as (e1 & E1 & (r1 & P1) & R1). unfold bind.
  destruct (m k) as [[a | e] k1]; cbn [fst snd] in *.
  - destruct (R1 a eq_refl) as [V1 Qa].
    destruct (Hf a Qa k1) as (e2 & E2 & (r2 & P2) & R2).
    exists (e1 ++ e2). split; [now rewrite E2, E1, app_assoc |].
    rewrite view_app, V1. split.
    + exists r2. now rewrite P2, app_assoc.
    + intros r Er. destruct (R2 r Er) as [V2 Qr]. now rewrite V2.
  - exists e1. split; [exact E1 |]. split.
    + exists (r1 ++ L2). now rewrite P1, app_assoc.
    + intros r Er; discriminate.
Qed.

Lemma logs_post {A} (Q Q' : A -> Prop) L (m : M F A) :
  (forall r, Q r -> Q' r) -> logs view L Q m -> logs view L Q' m.
Proof.
  intros HQ Hm k. destruct (Hm k) as (evs & E & P & R).
  exists evs. split; [exact E |]. split; [exact P |].
  intros r Er. destruct (R r Er). auto.
Qed.

Lemma logs_eq {A} (Q : A -> Prop) L L' (m : M F A) :
  L = L' -> logs view L Q m -> logs view L' Q m.
Proof. now intros <-. Qed.

Lemma logs_for_each {A S} (g : A -> list X) xs (body : A -> S -> M F S) s :
  (forall x s', logs view (g x) (fun _ => True) (body x s')) ->
  logs view (flat_map g xs) (fun _ => True) (for_each xs body s).
Proof.
  intros Hb. revert s. induction xs as [| x xs IH]; intros s; cbn.
  - now apply logs_ret.
  - eapply logs_bind; [apply Hb | intros s' _; apply IH].
Qed.

Lemma view_none (l : list (call F)) :
  Forall (fun c => view [c] = []) l -> view l = [].
Proof.
  induction 1 as [| c l Hc _ IH]; [apply view_nil |].
  change (c :: l) with ([c] ++ l). now rewrite view_app, Hc, IH.
Qed.

(** A computation whose calls the view does not show. *)
Lemma logs_hidden {A} (m : M F A) :
  emits (fun c => view [c] = []) m -> logs view [] (fun _ => True) m.
Proof.
  intros Hm k. destruct (Hm k) as (evs & E & Fc). exists evs.
  rewrite (view_none _ Fc). split; [exact E |].
  split; [exists []; reflexivity | auto].
Qed.

Lemma logs_silent {A} (m : M F A) :
  silent m -> logs view [] (fun _ => True) m.
Proof.
  intros Hm k. exists []. rewrite Hm, app_nil_r, view_nil.
  split; [reflexivity |]. split; [exists []; reflexivity | auto].
Qed.

Lemma logs_one {A} (m : M F A) (c : gmsh F -> call F) L :
  (forall k, calls (snd (m k)) = calls k ++ [c k]) ->
  (forall k, view [c k] = L) ->
  logs view L (fun _ => True) m.
Proof.
  intros E V k. exists [c k]. rewrite V.
  split; [apply E |]. split; [exists []; now rewrite app_nil_r | auto].
Qed.

End Logs.

Section Views.
Context {F : Type}.

Lemma revolved_app (l1 l2 : list (call F)) :
  revolved (l1 ++ l2) = revolved l1 ++ revolved l2.
Proof.
  induction l1 as [| c l1 IH]; [reflexivity |].
  destruct c; cbn; now rewrite ?IH.
Qed.

Lemma revolved_none (c : call F) : is_revolve c = false -> revolved [c] = [].
Proof. now destruct c. Qed.

Lemma filter_none (p : call F -> bool) c : p c = false -> filter p [c] = [].
Proof. intros E. cbn. now rewrite E. Qed.

Lemma emits_impl (P P' : call F -> Prop) {A} (m : M F A) :
  (forall c, P c -> P' c) -> emits P m -> emits P' m.
Proof.
  intros HP Hm k. destruct (Hm k) as (evs & E & Fc). exists evs.
  split; [exact E |]. eapply Forall_impl; [| exact Fc]. exact HP.
Qed.

Lemma count_none (p : call F -> bool) l :
  Forall (fun c => p c = false) l -> count p l = 0%nat.
Proof.
  unfold count. induction 1 as [| c l Hc _ IH]; cbn; [reflexivity |].
  now rewrite Hc.
Qed.

End Views.

(* ================================================================== *)
(** * More facts about mesh.py *)
(* ================================================================== *)

Module SweepFacts.
Import Mesh.
Local Open Scope py_scope.

Section Lists.

Lemma mem_In x l : mem x l = true <-> In x l.
Proof.
  unfold mem. rewrite existsb_exists. split.
  - intros (y & Hy & E). apply Z.eqb_eq in E. now subst.
  - intros Hin. exists x. split; [exact Hin | apply Z.eqb_refl].
Qed.

Lemma add_corner_NoDup pt l : NoDup l -> NoDup (add_corner pt l).
Proof.
  intros Hl. unfold add_corner. destruct (mem pt l) eqn:E; [exact Hl |].
  apply NoDup_app; [exact Hl | repeat constructor; intros [] |].
  intros x Hx [<- | []]. apply mem_In in Hx. congruence.
Qed.

Lemma add_corner_length pt l :
  (List.length (add_corner pt l) <= List.length l + 1)%nat.
Proof.
  unfold add_corner. destruct (mem pt l); [lia |].
  rewrite length_app. cbn. lia.
Qed.

Lemma tags_of_dim_cons d dt out :
  tags_of_dim d (dt :: out) = tags_of_dim d [dt] ++ tags_of_dim d out.
Proof. unfold tags_of_dim. cbn. now destruct (fst dt =? d). Qed.

(** [l.index(x)] finds the first occurrence. *)
Lemma index_of_split x l i :
  index_of x l = Some i ->
  exists back,
    l = firstn i l ++ x :: back /\ skipn i l = x :: back
    /\ ~ In x (firstn i l).
Proof.
  revert i. induction l as [| y l IH]; intros i; cbn; [discriminate |].
  destruct (Z.eqb_spec y x) as [-> | Hne].
  - intros [= <-]. exists l. cbn. auto.
  - destruct (index_of x l) as [j |]; [| discriminate].
    intros [= <-]. destruct (IH j eq_refl) as (back & E1 & E2 & Hn).
    exists back. cbn. rewrite <- E1. repeat split; auto.
    intros [E | Hin]; auto.
Qed.

Lemma index_of_present x l : mem x l = true -> exists i, index_of x l = Some i.
Proof.
  induction l as [| y l IH]; cbn; [discriminate |].
  rewrite Z.eqb_sym. destruct (y =? x); [eauto |]. cbn.
  intros E. destruct (IH E) as [i ->]. cbn. eauto.
Qed.

Lemma first_of_dim_stop {F} d out (k : gmsh F) :
  first_of_dim d out = None -> next_of_dim d out k = (Raise StopIteration, k).
Proof.
  induction out as [| [dim w] out IH]; cbn; [reflexivity |].
  destruct (dim =? d); [discriminate | exact IH].
Qed.

Lemma emits_next_of_dim {F} (P : call F -> Prop) d out :
  emits P (next_of_dim d out).
Proof.
  induction out as [| [dim w] out IH]; cbn; [apply emits_raise |].
  destruct (dim =? d); [apply emits_ret | exact IH].
Qed.

Lemma emits_silent {F} (P : call F -> Prop) {A} (m : M F A) :
  silent m -> emits P m.
Proof.
  intros Hm k. exists []. rewrite Hm, app_nil_r. split; [reflexivity |].
  constructor.
Qed.

Lemma flat_map_unit {A B} (g : A -> B) l :
  flat_map (fun x => [g x]) l = map g l.
Proof. induction l as [| x l IH]; cbn; [reflexivity | now rewrite IH]. Qed.

Lemma flat_map_nil {A B} (l : list A) :
  flat_map (fun _ => @nil B) l = [].
Proof. induction l as [| x l IH]; cbn; auto. Qed.

End Lists.

Section Classification.
Context {F : Type} `{PyFloat F}.
Variable boundary : gmsh F -> list (Z * Z) -> list (Z * Z).
Variable entity_type : gmsh F -> Z -> Z -> string.

Local Notation "'classify'" := (classify_edge boundary entity_type).

Lemma classify_edge_corners dt e (k : gmsh F) :
  exists e1 k1,
    classify dt e k = (Ok e1, k1)
    /\ (NoDup (corner_points e) -> NoDup (corner_points e1))
    /\ (List.length (corner_points e1)
        <= List.length (corner_points e)
           + 2 * List.length (tags_of_dim 1 [dt]))%nat
    /\ (List.length (radial_curves e1) + List.length (curved_curves e1)
        <= List.length (radial_curves e) + List.length (curved_curves e)
           + List.length (tags_of_dim 1 [dt]))%nat.
Proof.
  destruct dt as [dim_c tag_c]. unfold classify_edge, tags_of_dim.
  cbn [filter fst]. destruct (dim_c =? 1); cbn [map List.length].
  - unfold bind, getType, getBoundary, ret, Gmsh.record.
    cbn [calls initialized has_model max_point max_curve max_loop
         max_surface max_group].
    match goal with
    | |- context [String.eqb ?t "Circle"] =>
        destruct (String.eqb t "Circle"); [| destruct (String.eqb t "Line")]
    end.
    all: match goal with
         | |- context [boundary ?k' ?d] =>
             destruct (boundary k' d) as [| [? pa] [| [? pb] [| ? ?]]]
         end.
    all: do 2 eexists; (split; [reflexivity |]);
      cbn [corner_points radial_curves curved_curves];
      rewrite ?length_app; cbn [List.length];
      (split; [auto using add_corner_NoDup |]); split; try lia.
    all: match goal with
         | |- context [add_corner ?b (add_corner ?a ?l)] =>
             pose proof (add_corner_length b (add_corner a l));
             pose proof (add_corner_length a l); lia
         end.
  - exists e, k. unfold ret. repeat split; auto; lia.
Qed.

(** The loop over the boundary of a surface (lines 124-137) never
    raises.  Its corner list has no repetition: an endpoint shared by two
    edges is kept once.  Each edge adds at most two corners, and goes to at
    most one of the two curve lists. *)
Theorem corner_points_are_distinct bnd (k : gmsh F) :
  exists e k1,
    for_each bnd classify (mkEdges [] [] []) k = (Ok e, k1)
    /\ NoDup (corner_points e)
    /\ (List.length (corner_points e)
        <= 2 * List.length (tags_of_dim 1 bnd))%nat
    /\ (List.length (radial_curves e) + List.length (curved_curves e)
        <= List.length (tags_of_dim 1 bnd))%nat.
Proof.
  assert (G : forall bnd e0 (k : gmsh F), exists e k1,
    for_each bnd classify e0 k = (Ok e, k1)
    /\ (NoDup (corner_points e0) -> NoDup (corner_points e))
    /\ (List.length (corner_points e)
        <= List.length (corner_points e0)
           + 2 * List.length (tags_of_dim 1 bnd))%nat
    /\ (List.length (radial_curves e) + List.length (curved_curves e)
        <= List.length (radial_curves e0) + List.length (curved_curves e0)
           + List.length (tags_of_dim 1 bnd))%nat).
  { clear bnd k. induction bnd as [| dt bnd IH]; intros e0 k.
    - exists e0, k. cbn. unfold ret. repeat split; auto; lia.
    - destruct (classify_edge_corners dt e0 k) as (e1 & k1 & E1 & N1 & C1 & R1).
      destruct (IH e1 k1) as (e2 & k2 & E2 & N2 & C2 & R2).
      exists e2, k2. cbn [for_each]. rewrite (bind_Ok _ E1), E2.
      rewrite (tags_of_dim_cons 1 dt bnd), length_app.
      repeat split; auto; lia. }
  destruct (G bnd (mkEdges [] [] []) k) as (e & k1 & E & N & C & R).
  exists e, k1. cbn in N, C, R. repeat split; auto. apply N. constructor.
Qed.

Section Stable.
Variable ty : Z -> string.
Hypothesis Hty : forall (k : gmsh F) t, entity_type k 1 t = ty t.

Local Notation "'lines'" :=
  (filter (fun t => String.eqb (ty (Z.abs t)) "Line")).
Local Notation "'circles'" :=
  (filter (fun t => String.eqb (ty (Z.abs t)) "Circle")).

Lemma classify_edge_sorts dt e (k : gmsh F) :
  exists e1 k1,
    classify dt e k = (Ok e1, k1)
    /\ radial_curves e1 = radial_curves e ++ lines (tags_of_dim 1 [dt])
    /\ curved_curves e1 = curved_curves e ++ circles (tags_of_dim 1 [dt]).
Proof.
  destruct dt as [dim_c tag_c]. unfold classify_edge, tags_of_dim.
  cbn [filter fst]. destruct (dim_c =? 1); cbn [map filter snd].
  - unfold bind, getType, getBoundary, ret, Gmsh.record.
    cbn [calls initialized has_model max_point max_curve max_loop
         max_surface max_group].
    rewrite Hty.
    destruct (String.eqb_spec (ty (Z.abs tag_c)) "Circle") as [E | NE].
    + rewrite E. cbn [String.eqb Ascii.eqb Bool.eqb andb].
      match goal with
      | |- context [boundary ?k' ?d] =>
          destruct (boundary k' d) as [| [? pa] [| [? pb] [| ? ?]]]
      end.
      all: do 2 eexists; (split; [reflexivity |]);
        cbn [corner_points radial_curves curved_curves];
        now rewrite app_nil_r.
    + destruct (String.eqb (ty (Z.abs tag_c)) "Line").
      all: match goal with
           | |- context [boundary ?k' ?d] =>
               destruct (boundary k' d) as [| [? pa] [| [? pb] [| ? ?]]]
           end.
      all: do 2 eexists; (split; [reflexivity |]);
        cbn [corner_points radial_curves curved_curves];
        now rewrite ?app_nil_r.
  - exists e, k. unfold ret. now rewrite !app_nil_r.
Qed.

(** On a kernel whose type answers do not change while the loop runs,
    the loop over the boundary (lines 124-137) sorts the edges by type:
    the radial list is the edges of type "Line" and the curved list the
    edges of type "Circle", each in boundary order and with the sign the
    boundary gave it; the type is asked for the unsigned tag.  Edges of
    any other type, and boundary entries that are not curves, are in
    neither list. *)
Theorem edges_are_sorted_by_type bnd (k : gmsh F) :
  exists e k1,
    for_each bnd classify (mkEdges [] [] []) k = (Ok e, k1)
    /\ radial_curves e = lines (tags_of_dim 1 bnd)
    /\ curved_curves e = circles (tags_of_dim 1 bnd).
Proof.
  assert (G : forall bnd e0 (k : gmsh F), exists e k1,
    for_each bnd classify e0 k = (Ok e, k1)
    /\ radial_curves e = radial_curves e0 ++ lines (tags_of_dim 1 bnd)
    /\ curved_curves e = curved_curves e0 ++ circles (tags_of_dim 1 bnd)).
  { clear bnd k. induction bnd as [| dt bnd IH]; intros e0 k.
    - exists e0, k. cbn. unfold ret. now rewrite !app_nil_r.
    - destruct (classify_edge_sorts dt e0 k) as (e1 & k1 & E1 & R1 & C1).
      destruct (IH e1 k1) as (e2 & k2 & E2 & R2 & C2).
      exists e2, k2. cbn [for_each]. rewrite (bind_Ok _ E1), E2.
      rewrite (tags_of_dim_cons 1 dt bnd), !filter_app.
      rewrite R2, R1, C2, C1, <- !app_assoc. auto. }
  destruct (G bnd (mkEdges [] [] []) k) as (e & k1 & E & R & C).
  exists e, k1. auto.
Qed.

End Stable.
End Classification.

(** Witness: a boundary of two lines, one of them reversed, and a point,
    on the stand-in kernel, where every curve is a line. *)
Lemma edges_are_sorted_by_type_witness :
  exists e k1,
    for_each [(1, 3); (1, -4); (0, 1)]
      (classify_edge toy_boundary toy_entity_type) (mkEdges [] [] []) fresh
    = (Ok e, k1)
    /\ radial_curves e
       = filter (fun t => String.eqb "Line" "Line")
           (tags_of_dim 1 [(1, 3); (1, -4); (0, 1)])
    /\ curved_curves e
       = filter (fun t => String.eqb "Line" "Circle")
           (tags_of_dim 1 [(1, 3); (1, -4); (0, 1)]).
Proof.
  apply (edges_are_sorted_by_type toy_boundary toy_entity_type
           (fun _ => "Line") (fun _ _ => eq_refl)
           [(1, 3); (1, -4); (0, 1)] fresh).
Defined.

Section Declaration.
Context {F : Type} `{PyFloat F}.
Variable find_missing_numbers : list Z -> list Z -> M F (list Z * list Z).

(** Lines 145-151: when point 1 (the centre of the disk) is one of the
    three corners of a surface, the surface is declared with the corners
    rotated so that point 1 comes first, the cyclic order kept, and with
    its arrangement label; the helper that resolves missing IDs is not
    consulted and nothing is raised. *)
Theorem centre_corner_is_put_first s_tag use_arr cps (k : gmsh F) :
  List.length cps = 3%nat ->
  mem 1 cps = true ->
  exists front back,
    cps = front ++ 1 :: back
    /\ ~ In 1 front
    /\ declare_surface find_missing_numbers s_tag use_arr cps k
       = (Ok tt,
          Gmsh.record (SetTransfiniteSurface s_tag (Some use_arr)
                         (Some (1 :: back ++ front))) k).
Proof.
  intros Hlen H1.
  destruct (index_of_present 1 cps H1) as [i Ei].
  destruct (index_of_split 1 cps i Ei) as (back & E1 & E2 & Hn).
  exists (firstn i cps), back. split; [exact E1 |]. split; [exact Hn |].
  unfold declare_surface. rewrite Hlen, H1. cbn [Nat.eqb].
  unfold list_index. rewrite Ei. unfold bind, ret, rotate.
  now rewrite E2.
Qed.


End Declaration.

(** Witness: the corners 5, 1, 7 become 1, 7, 5. *)
Lemma centre_corner_is_put_first_witness :
  exists front back,
    [5; 1; 7] = front ++ 1 :: back
    /\ ~ In 1 front
    /\ declare_surface find_missing_numbers 9 "Left" [5; 1; 7] (@fresh float)
       = (Ok tt,
          Gmsh.record (SetTransfiniteSurface 9 (Some "Left")
                         (Some (1 :: back ++ front))) fresh).
Proof.
  apply (centre_corner_is_put_first find_missing_numbers 9 "Left" [5; 1; 7]
           (@fresh float)).
  - reflexivity.
  - reflexivity.
Defined.


Section Sweeps.
Context {F : Type} `{PyFloat F}.
Variable revolve_out :
  gmsh F -> list (Z * Z) -> F -> F -> F -> F -> F -> F -> F -> list (Z * Z).
Variable bounding_box : gmsh F -> Z -> Z -> bbox F.
Variable boundary : gmsh F -> list (Z * Z) -> list (Z * Z).
Variable entity_type : gmsh F -> Z -> Z -> string.
Variable ensure_gmsh_available : M F unit.
Variable find_missing_numbers : list Z -> list Z -> M F (list Z * list Z).

Local Notation "'revolve_patch'" :=
  (revolve_surface revolve_out bounding_box boundary entity_type
     ensure_gmsh_available find_missing_numbers).
Local Notation "'pass'" :=
  (_apply_transfinite_sweep bounding_box boundary entity_type
     find_missing_numbers).

(** Lines 60-68: an axis or a centre with fewer than three coordinates
    is found out when the first sweep reads them:
    [IndexError], before the kernel has been asked for anything. *)
Theorem short_axis_raises_before_any_sweep
    revolve_axis revolve_center angle_sweep surface_loop
    n_div_radial n_div_curved bumpcoef surface_type apply_transfinite
    (k k1 : gmsh F) :
  ensure_gmsh_available k = (Ok tt, k1) ->
  (List.length revolve_axis < 3 \/ List.length revolve_center < 3)%nat ->
  revolve_patch revolve_axis revolve_center angle_sweep surface_loop
    n_div_radial n_div_curved bumpcoef surface_type apply_transfinite k
  = (Raise IndexError, k1).
Proof.
  intros He Hshort. unfold revolve_surface. rewrite (bind_Ok _ He).
  destruct revolve_axis as [| ax [| ay [| az rest]]];
    try reflexivity.
  destruct revolve_center as [| cx [| cy [| cz rest']]];
    try reflexivity.
  cbn in Hshort. lia.
Qed.

(** Lines 60-83: a sweep whose result holds no volume stops the call
    with [StopIteration].  When it is the positive sweep, the negative
    one is not attempted; when it is the negative sweep, both revolutions
    have been made.  Either way the revolved entities stay in the kernel
    and the structured pass is not run. *)
Theorem sweep_without_volume_stops
    ax ay az rest_axis cx cy cz rest_center angle_sweep surface_loop
    n_div_radial n_div_curved bumpcoef surface_type apply_transfinite
    (k k1 : gmsh F) :
  let out_plus :=
    revolve_out k1 [(2, surface_loop)] ax ay az cx cy cz angle_sweep in
  let k2 :=
    Gmsh.record (Revolve [(2, surface_loop)] ax ay az cx cy cz angle_sweep
                   out_plus) k1 in
  let out_minus :=
    revolve_out k2 [(2, surface_loop)] ax ay az cx cy cz
      (fneg angle_sweep) in
  let k3 :=
    Gmsh.record (Revolve [(2, surface_loop)] ax ay az cx cy cz
                   (fneg angle_sweep) out_minus) k2 in
  ensure_gmsh_available k = (Ok tt, k1) ->
  first_of_dim 3 out_plus = None \/ first_of_dim 3 out_minus = None ->
  revolve_patch (ax :: ay :: az :: rest_axis) (cx :: cy :: cz :: rest_center)
    angle_sweep surface_loop n_div_radial n_div_curved bumpcoef
    surface_type apply_transfinite k
  = (Raise StopIteration,
     match first_of_dim 3 out_plus with
     | None => k2
     | Some _ => k3
     end).
Proof.
  intros out_plus k2 out_minus k3 He Hnone. unfold revolve_surface.
  rewrite (bind_Ok _ He).
  do 6 (unfold bind at 1; unfold index at 1; cbn [nth_error]; unfold ret at 1).
  unfold bind at 1. unfold revolve at 1. fold out_plus. fold k2.
  destruct (first_of_dim 3 out_plus) as [vol_plus |] eqn:Ep.
  - destruct Hnone as [Hn | Hn]; [discriminate |].
    rewrite (bind_Ok _ (MeshFacts.first_of_dim_next 3 out_plus vol_plus k2 Ep)).
    do 6 (unfold bind at 1; unfold index at 1; cbn [nth_error];
          unfold ret at 1).
    unfold bind at 1. unfold revolve at 1. fold out_minus. fold k3.
    now rewrite (bind_Raise _ (first_of_dim_stop 3 out_minus k3 Hn)).
  - now rewrite (bind_Raise _ (first_of_dim_stop 3 out_plus k2 Ep)).
Qed.

Hypothesis helper_silent :
  forall ids range_ids, silent (find_missing_numbers ids range_ids).

Section Emitted.
Variable P : call F -> Prop.
Hypothesis boundary_ok : forall dimtags, P (GetBoundary dimtags).
Hypothesis type_ok : forall dim tag, P (GetType dim tag).

Lemma classify_edge_emits dt e :
  emits P (classify_edge boundary entity_type dt e).
Proof.
  destruct dt as [dim_c tag_c]. unfold classify_edge.
  destruct (dim_c =? 1); [| apply emits_ret].
  apply emits_bind.
  { apply emits_one with (c := fun _ => GetType 1 (Z.abs tag_c));
      [reflexivity | intros; apply type_ok]. }
  intros etype. cbv zeta. apply emits_bind.
  { apply emits_one with (c := fun _ => GetBoundary [(1, tag_c)]);
      [reflexivity | intros; apply boundary_ok]. }
  intros endpts.
  destruct endpts as [| [? ?] [| [? ?] [| ? ?]]]; apply emits_ret.
Qed.

Lemma declare_surface_emits s_tag use_arr cps :
  (forall arr corners, P (SetTransfiniteSurface s_tag arr corners)) ->
  emits P (declare_surface find_missing_numbers s_tag use_arr cps).
Proof.
  intros Hp. unfold declare_surface, list_index.
  destruct (List.length cps =? 3)%nat; [| emits_walk; apply Hp].
  destruct (mem 1 cps).
  - destruct (index_of 1 cps); emits_walk; apply Hp.
  - apply emits_bind; [apply emits_silent, helper_silent | intros pair].
    cbv zeta. apply emits_bind; [apply emits_index | intros m0].
    destruct (index_of m0 cps); emits_walk; apply Hp.
Qed.

(** What one surface of the pass asks of the kernel once its arrangement
    label is known. *)
Lemma sweep_surface_rest nr nc bump s_tag use_arr :
  (forall rad circ, P (SetTransfinite rad circ [(s_tag, use_arr)] nr nc
                         (Some bump))) ->
  (forall arr corners, P (SetTransfiniteSurface s_tag arr corners)) ->
  emits P
    (bnd <- getBoundary boundary [(2, s_tag)] ;;
     e <- for_each bnd (classify_edge boundary entity_type)
            (mkEdges [] [] []) ;;
     set_transfinite (radial_curves e) (curved_curves e) [(s_tag, use_arr)]
       nr nc (Some bump) ;;;
     declare_surface find_missing_numbers s_tag use_arr (corner_points e)).
Proof.
  intros Hreq Hdecl. apply emits_bind.
  { apply emits_one with (c := fun _ => GetBoundary [(2, s_tag)]);
      [reflexivity | intros; apply boundary_ok]. }
  intros bnd. apply emits_bind.
  { apply emits_for_each. intros. apply classify_edge_emits. }
  intros e. apply emits_bind;
    [apply emits_set_transfinite, Hreq | intros _].
  now apply declare_surface_emits.
Qed.

Lemma sweep_surface_emits nr nc bump surface_type s_tag :
  P (GetBoundingBox 2 s_tag) ->
  (forall rad circ surfs b, P (SetTransfinite rad circ surfs nr nc b)) ->
  (forall arr corners, P (SetTransfiniteSurface s_tag arr corners)) ->
  emits P (sweep_surface bounding_box boundary entity_type
             find_missing_numbers nr nc bump surface_type s_tag tt).
Proof.
  intros Hbox Hreq Hdecl. unfold sweep_surface. apply emits_bind.
  { unfold arrangement. destruct (String.eqb surface_type "inner");
      [apply emits_ret |].
    apply emits_bind; [| intros b; apply emits_ret].
    apply emits_one with (c := fun _ => GetBoundingBox 2 s_tag);
      [reflexivity | intros; apply Hbox]. }
  intros use_arr. apply sweep_surface_rest; auto.
Qed.

Lemma pass_emits out nr nc bump surface_type :
  P GeoSynchronize ->
  (forall s_tag, P (GetBoundingBox 2 s_tag)) ->
  (forall rad circ surfs b, P (SetTransfinite rad circ surfs nr nc b)) ->
  (forall s_tag arr corners, P (SetTransfiniteSurface s_tag arr corners)) ->
  emits P (pass out nr nc bump surface_type).
Proof.
  intros Hs Hbox Hreq Hdecl. unfold _apply_transfinite_sweep. cbv zeta.
  apply emits_bind; [now apply emits_synchronize | intros _].
  apply emits_for_each. intros s_tag []. now apply sweep_surface_emits.
Qed.

End Emitted.

(** Lines 105-158: the structured pass synchronizes the kernel exactly
    once, before anything else; after that it only asks questions
    (boxes, boundaries, types), submits structured requests and declares
    surfaces.  It creates nothing and revolves nothing, whether it
    returns or raises. *)
Theorem pass_synchronizes_first_and_once
    sweep_results n_div_radial n_div_curved bumpcoef surface_type
    (k : gmsh F) :
  exists evs,
    calls (snd (pass sweep_results n_div_radial n_div_curved bumpcoef
                  surface_type k))
    = calls k ++ GeoSynchronize :: evs
    /\ Forall (fun c => is_query c || is_request c || is_declaration c = true)
              evs
    /\ count is_sync evs = 0%nat.
Proof.
  unfold _apply_transfinite_sweep. cbv zeta.
  unfold bind at 1. unfold Gmsh.synchronize at 1.
  set (k1 := Gmsh.record GeoSynchronize k).
  assert (Hloop : emits (fun c => is_query c || is_request c
                                  || is_declaration c = true)
                    (for_each (tags_of_dim 2 sweep_results)
                       (sweep_surface bounding_box boundary entity_type
                          find_missing_numbers n_div_radial n_div_curved
                          bumpcoef surface_type) tt)).
  { apply emits_for_each. intros s_tag [].
    apply sweep_surface_emits; reflexivity. }
  destruct (Hloop k1) as (evs & E & Fc). exists evs.
  split; [| split; [exact Fc |]].
  - rewrite E. unfold k1, Gmsh.record. cbn [calls].
    now rewrite <- app_assoc.
  - apply count_none. eapply Forall_impl; [| exact Fc].
    intros c. now destruct c.
Qed.

Lemma sweep_surface_boxes nr nc bump surface_type s_tag :
  logs (filter is_bbox_query)
       (if String.eqb surface_type "inner" then []
        else [GetBoundingBox 2 s_tag])
       (fun _ => True)
       (sweep_surface bounding_box boundary entity_type
          find_missing_numbers nr nc bump surface_type s_tag tt).
Proof.
  assert (Hrest : forall use_arr,
    logs (filter is_bbox_query) [] (fun _ : unit => True)
      (bnd <- getBoundary boundary [(2, s_tag)] ;;
       e <- for_each bnd (classify_edge boundary entity_type)
              (mkEdges [] [] []) ;;
       set_transfinite (radial_curves e) (curved_curves e)
         [(s_tag, use_arr)] nr nc (Some bump) ;;;
       declare_surface find_missing_numbers s_tag use_arr
         (corner_points e))).
  { intros use_arr. apply logs_hidden; [apply filter_app |].
    apply sweep_surface_rest; reflexivity. }
  unfold sweep_surface, arrangement.
  destruct (String.eqb surface_type "inner").
  - apply (logs_bind _ (@filter_app _ _) (fun _ => True) _ [] []).
    + now apply logs_ret; [apply filter_app |].
    + intros use_arr _. apply Hrest.
  - apply (logs_bind _ (@filter_app _ _) (fun _ => True) _
             [GetBoundingBox 2 s_tag] []).
    + apply (logs_bind _ (@filter_app _ _) (fun _ => True) _
               [GetBoundingBox 2 s_tag] []).
      * now apply logs_one with (c := fun _ => GetBoundingBox 2 s_tag).
      * intros b _. now apply logs_ret; [apply filter_app |].
    + intros use_arr _. apply Hrest.
Qed.

Lemma pass_boxes sweep_results n_div_radial n_div_curved bumpcoef
    surface_type :
  logs (filter is_bbox_query)
       (if String.eqb surface_type "inner" then []
        else map (GetBoundingBox 2) (tags_of_dim 2 sweep_results))
       (fun _ => True)
       (pass sweep_results n_div_radial n_div_curved bumpcoef surface_type).
Proof.
  unfold _apply_transfinite_sweep. cbv zeta.
  apply (logs_bind _ (@filter_app _ _) (fun _ => True) _ [] _).
  - apply logs_hidden; [apply filter_app |].
    now apply emits_synchronize.
  - intros _ _.
    eapply logs_eq;
      [| apply (logs_for_each _ (@filter_app _ _)
                  (fun s_tag => if String.eqb surface_type "inner" then []
                                else [GetBoundingBox 2 s_tag]));
         intros s_tag []; apply sweep_surface_boxes].
    destruct (String.eqb surface_type "inner");
      [apply flat_map_nil | apply flat_map_unit].
Qed.

(** Lines 110-116, over a whole pass: for an "inner" wedge the kernel is
    never asked for a bounding box.  For any other wedge type it is asked
    for the box of each new surface of the sweep result, one query per
    surface and in the order of the result; a pass that raises has asked
    for the boxes of the surfaces it reached. *)
Theorem pass_asks_one_box_per_outer_surface
    sweep_results n_div_radial n_div_curved bumpcoef surface_type
    (k : gmsh F) :
  let run :=
    pass sweep_results n_div_radial n_div_curved bumpcoef surface_type k in
  let boxes :=
    if String.eqb surface_type "inner" then []
    else map (GetBoundingBox 2) (tags_of_dim 2 sweep_results) in
  exists evs,
    calls (snd run) = calls k ++ evs
    /\ (exists rest, boxes = filter is_bbox_query evs ++ rest)
    /\ (forall r, fst run = Ok r -> filter is_bbox_query evs = boxes).
Proof.
  intros run boxes.
  destruct (pass_boxes sweep_results n_div_radial n_div_curved bumpcoef
              surface_type k) as (evs & E & P & R).
  exists evs. split; [exact E |]. split; [exact P |].
  intros r Er. exact (proj1 (R r Er)).
Qed.

Local Notation "'no_revolve'" := (fun c : call F => is_revolve c = false).

Lemma revolve_patch_revolutions
    revolve_axis revolve_center angle_sweep surface_loop
    n_div_radial n_div_curved bumpcoef surface_type apply_transfinite :
  silent ensure_gmsh_available ->
  logs revolved [[(2, surface_loop)]; [(2, surface_loop)]] (fun _ => True)
    (revolve_patch revolve_axis revolve_center angle_sweep surface_loop
       n_div_radial n_div_curved bumpcoef surface_type apply_transfinite).
Proof.
  intros Hens.
  assert (Hidx : forall l i,
            logs revolved [] (fun _ : F => True) (index l i : M F F)).
  { intros. apply logs_hidden; [apply revolved_app | apply emits_index]. }
  assert (Hnext : forall out,
            logs revolved [] (fun _ : Z => True)
              (next_of_dim 3 out : M F Z)).
  { intros. apply logs_hidden; [apply revolved_app |].
    apply emits_next_of_dim. }
  assert (Hrev : forall ax ay az cx cy cz angle,
            logs revolved [[(2, surface_loop)]] (fun _ => True)
              (revolve revolve_out [(2, surface_loop)] ax ay az cx cy cz
                 angle)).
  { intros. now apply logs_one
      with (c := fun k => Revolve [(2, surface_loop)] ax ay az cx cy cz angle
                            (revolve_out k [(2, surface_loop)] ax ay az
                               cx cy cz angle)). }
  assert (Hpass : forall out,
            logs revolved [] (fun _ : unit => True)
              (pass out n_div_radial n_div_curved bumpcoef surface_type)).
  { intros. apply logs_hidden; [apply revolved_app |].
    apply pass_emits; reflexivity. }
  unfold revolve_surface.
  apply (logs_bind _ revolved_app (fun _ => True) _ [] _);
    [now apply logs_silent; [apply revolved_app |] | intros _ _].
  do 6 (apply (logs_bind _ revolved_app (fun _ => True) _ [] _);
        [apply Hidx | intros ? _]).
  apply (logs_bind _ revolved_app (fun _ => True) _ [[(2, surface_loop)]]
           [[(2, surface_loop)]]); [apply Hrev | intros out_plus _].
  apply (logs_bind _ revolved_app (fun _ => True) _ [] _);
    [apply Hnext | intros vol_plus _].
  do 6 (apply (logs_bind _ revolved_app (fun _ => True) _ [] _);
        [apply Hidx | intros ? _]).
  apply (logs_bind _ revolved_app (fun _ => True) _ [[(2, surface_loop)]]
           []); [apply Hrev | intros out_minus _].
  apply (logs_bind _ revolved_app (fun _ => True) _ [] _);
    [apply Hnext | intros vol_minus _].
  apply (logs_bind _ revolved_app (fun _ => True) _ [] []).
  - destruct apply_transfinite.
    + apply (logs_bind _ revolved_app (fun _ => True) _ [] []);
        [apply Hpass | intros _ _; apply Hpass].
    + now apply logs_ret; [apply revolved_app |].
  - intros _ _. now apply logs_ret; [apply revolved_app |].
Qed.

Lemma wedge_volumes_logged
    inner_surf outer_surf inner_bulk_surf outer_bulk_surf
    revolve_axis revolve_center angle_sweep n_div_radial n_div_curved
    bumpcoef :
  silent ensure_gmsh_available ->
  logs revolved
       (planned_revolutions inner_surf outer_surf inner_bulk_surf
          outer_bulk_surf)
       (wedge_shape inner_bulk_surf outer_bulk_surf)
       (create_wedge_volumes revolve_out bounding_box boundary entity_type
          ensure_gmsh_available find_missing_numbers inner_surf outer_surf
          inner_bulk_surf outer_bulk_surf revolve_axis revolve_center
          angle_sweep n_div_radial n_div_curved bumpcoef).
Proof.
  intros Hens.
  assert (Hsync : logs revolved [] (fun _ : unit => True)
                   (Gmsh.synchronize : M F unit)).
  { apply logs_hidden; [apply revolved_app |].
    now apply emits_synchronize. }
  pose proof (fun s st b =>
    revolve_patch_revolutions revolve_axis revolve_center angle_sweep s
      n_div_radial n_div_curved bumpcoef st b Hens) as Hpatch.
  set (twice := fun s : option Z =>
                  match s with
                  | Some t => [t; t]
                  | None => []
                  end).
  set (sweeps := map (fun t : Z => [(2, t)])).
  apply (logs_eq revolved _
           ([] ++ sweeps [inner_surf; inner_surf] ++ [] ++
            sweeps [outer_surf; outer_surf] ++ [] ++
            sweeps (twice inner_bulk_surf) ++
            sweeps (twice outer_bulk_surf) ++ [] ++ [])).
  { unfold planned_revolutions, sweeps. fold twice.
    rewrite !map_app, !app_nil_r. reflexivity. }
  unfold create_wedge_volumes.
  apply (logs_bind _ revolved_app (fun _ => True));
    [now apply logs_silent; [apply revolved_app |] | intros _ _].
  apply (logs_bind _ revolved_app (fun _ => True));
    [apply Hpatch | intros vol_i _].
  apply (logs_bind _ revolved_app (fun _ => True));
    [apply Hsync | intros _ _].
  apply (logs_bind _ revolved_app (fun _ => True));
    [apply Hpatch | intros vol_o _].
  apply (logs_bind _ revolved_app (fun _ => True));
    [apply Hsync | intros _ _].
  apply (logs_bind _ revolved_app
           (fun v : option Z * option Z =>
              present (fst v) = present inner_bulk_surf
              /\ present (snd v) = present inner_bulk_surf)).
  { destruct inner_bulk_surf as [s |].
    - apply (logs_bind _ revolved_app (fun _ => True) _
               [[(2, s)]; [(2, s)]] []); [apply Hpatch | intros v _].
      apply (logs_bind _ revolved_app (fun _ => True) _ [] []);
        [apply Hsync | intros _ _].
      now apply logs_ret; [apply revolved_app |].
    - now apply logs_ret; [apply revolved_app |]. }
  intros vol_ib [Hib1 Hib2].
  apply (logs_bind _ revolved_app
           (fun v : option Z * option Z =>
              present (fst v) = present outer_bulk_surf
              /\ present (snd v) = present outer_bulk_surf)).
  { destruct outer_bulk_surf as [s |].
    - apply (logs_bind _ revolved_app (fun _ => True) _
               [[(2, s)]; [(2, s)]] []); [apply Hpatch | intros v _].
      now apply logs_ret; [apply revolved_app |].
    - now apply logs_ret; [apply revolved_app |]. }
  intros vol_ob [Hob1 Hob2].
  apply (logs_bind _ revolved_app (fun _ => True));
    [apply Hsync | intros _ _].
  cbv zeta. apply logs_ret; [apply revolved_app |].
  cbn. auto.
Qed.

(** Lines 161-240: [create_wedge_volumes] revolves the inner band patch,
    then the outer band patch, then the inner bulk patch and the outer
    bulk patch when they are given, each twice, and nothing else.  When
    it returns, all of these revolutions have been made, and the result is
    two lists of four entries: the two band volumes of each side, followed
    by the two bulk volumes, which are [None] exactly when the bulk patch
    was not given.  When it raises, the revolutions made are an initial
    part of that plan. *)
Theorem wedge_volumes_follow_the_plan
    inner_surf outer_surf inner_bulk_surf outer_bulk_surf
    revolve_axis revolve_center angle_sweep n_div_radial n_div_curved
    bumpcoef (k : gmsh F) :
  silent ensure_gmsh_available ->
  let run :=
    create_wedge_volumes revolve_out bounding_box boundary entity_type
      ensure_gmsh_available find_missing_numbers inner_surf outer_surf
      inner_bulk_surf outer_bulk_surf revolve_axis revolve_center
      angle_sweep n_div_radial n_div_curved bumpcoef k in
  let plan :=
    planned_revolutions inner_surf outer_surf inner_bulk_surf
      outer_bulk_surf in
  exists evs,
    calls (snd run) = calls k ++ evs
    /\ (exists rest, plan = revolved evs ++ rest)
    /\ (forall r, fst run = Ok r ->
          revolved evs = plan
          /\ wedge_shape inner_bulk_surf outer_bulk_surf r).
Proof.
  intros Hens run plan.
  exact (wedge_volumes_logged inner_surf outer_surf inner_bulk_surf
           outer_bulk_surf revolve_axis revolve_center angle_sweep
           n_div_radial n_div_curved bumpcoef Hens k).
Qed.

End Sweeps.

(** Witness: an axis given with two coordinates. *)
Lemma short_axis_raises_before_any_sweep_witness :
  revolve_surface toy_revolve_out toy_bounding_box toy_boundary
    toy_entity_type gmsh_present find_missing_numbers
    [0%float; 1%float] [0%float; 0%float; 0%float]
    (PrimFloat.div math_pi 4%float) 7 4 16 1%float "inner" true fresh
  = (Raise IndexError, fresh).
Proof.
  apply (short_axis_raises_before_any_sweep toy_revolve_out toy_bounding_box
           toy_boundary toy_entity_type gmsh_present find_missing_numbers
           [0%float; 1%float] [0%float; 0%float; 0%float]
           (PrimFloat.div math_pi 4%float) 7 4 16 1%float "inner" true
           fresh fresh).
  - reflexivity.
  - left. cbn. lia.
Defined.

(** Witness: a kernel whose revolutions answer a side surface and no
    volume. *)
Lemma sweep_without_volume_stops_witness :
  let angle := PrimFloat.div math_pi 4%float in
  let flat (_ : gmsh float) (_ : list (Z * Z)) (_ _ _ _ _ _ _ : float) :=
    [(2, 50)] in
  revolve_surface flat toy_bounding_box toy_boundary toy_entity_type
    gmsh_present find_missing_numbers
    [0%float; 0%float; 1%float] [0%float; 0%float; 0%float]
    angle 7 4 16 1%float "inner" true fresh
  = (Raise StopIteration,
     Gmsh.record (Revolve [(2, 7)] 0%float 0%float 1%float 0%float 0%float
                    0%float angle [(2, 50)]) fresh).
Proof.
  intros angle flat.
  apply (sweep_without_volume_stops flat toy_bounding_box toy_boundary
           toy_entity_type gmsh_present find_missing_numbers
           0%float 0%float 1%float [] 0%float 0%float 0%float []
           angle 7 4 16 1%float "inner" true fresh fresh).
  - reflexivity.
  - left. reflexivity.
Defined.

(** Witness: the pass over the result of a sweep on the stand-in
    kernel. *)
Lemma pass_synchronizes_first_and_once_witness :
  exists evs,
    calls (snd (_apply_transfinite_sweep toy_bounding_box toy_boundary
                  toy_entity_type find_missing_numbers [(2, 50); (3, 1)]
                  4 16 1%float "outer" fresh))
    = calls (@fresh float) ++ GeoSynchronize :: evs
    /\ Forall (fun c => is_query c || is_request c || is_declaration c = true)
              evs
    /\ count is_sync evs = 0%nat.
Proof.
  apply (pass_synchronizes_first_and_once toy_bounding_box toy_boundary
           toy_entity_type find_missing_numbers
           (fun ids range_ids k => eq_refl)
           [(2, 50); (3, 1)] 4 16 1%float "outer" fresh).
Defined.

(** Witness: the pass over two new surfaces of an "outer" wedge. *)
Lemma pass_asks_one_box_per_outer_surface_witness :
  let run :=
    _apply_transfinite_sweep toy_bounding_box toy_boundary toy_entity_type
      find_missing_numbers [(2, 50); (3, 1); (2, 51)] 4 16 1%float "outer"
      fresh in
  exists evs,
    calls (snd run) = calls (@fresh float) ++ evs
    /\ (exists rest,
          [GetBoundingBox 2 50; GetBoundingBox 2 51]
          = filter is_bbox_query evs ++ rest)
    /\ (forall r, fst run = Ok r ->
          filter is_bbox_query evs
          = [GetBoundingBox 2 50; GetBoundingBox 2 51]).
Proof.
  apply (pass_asks_one_box_per_outer_surface toy_bounding_box toy_boundary
           toy_entity_type find_missing_numbers
           (fun ids range_ids k => eq_refl)
           [(2, 50); (3, 1); (2, 51)] 4 16 1%float "outer" fresh).
Defined.

(** Witness: the band patches 1 and 2 and the inner bulk patch 3 of a
    sector on the stand-in kernel, without an outer bulk patch; the call
    returns. *)
Lemma wedge_volumes_follow_the_plan_witness :
  let run :=
    create_wedge_volumes toy_revolve_out toy_bounding_box toy_boundary
      toy_entity_type gmsh_present find_missing_numbers 1 2 (Some 3) None
      [0%float; 0%float; 1%float] [0%float; 0%float; 0%float]
      (PrimFloat.div math_pi 4%float) 4 16 1%float fresh in
  (exists evs,
     calls (snd run) = calls (@fresh float) ++ evs
     /\ (exists rest,
           planned_revolutions 1 2 (Some 3) None = revolved evs ++ rest)
     /\ (forall r, fst run = Ok r ->
           revolved evs = planned_revolutions 1 2 (Some 3) None
           /\ wedge_shape (Some 3) None r))
  /\ fst run
     = Ok ([Some 1; Some 2; Some 25; Some 26],
           [Some 12; Some 13; None; None]).
Proof.
  intros run. split.
  - apply (wedge_volumes_follow_the_plan toy_revolve_out toy_bounding_box
             toy_boundary toy_entity_type gmsh_present find_missing_numbers
             (fun ids range_ids k => eq_refl)
             1 2 (Some 3) None
             [0%float; 0%float; 1%float] [0%float; 0%float; 0%float]
             (PrimFloat.div math_pi 4%float) 4 16 1%float fresh
             (fun k => eq_refl)).
  - vm_compute. reflexivity.
Defined.

End SweepFacts.

(* ================================================================== *)
(** * More facts about core_disk.py *)
(* ================================================================== *)

Module DiskRuns.
Import CoreDisk.
Import DiskFacts.
Local Open Scope py_scope.

(** Equality of tag lists up to arithmetic. *)
Ltac list_arith := repeat (apply f_equal2; [lia |]); reflexivity.

Section Views.
Context {F : Type} `{PyFloat F}.

Lemma surface_tags_app (l1 l2 : list (call F)) :
  surface_tags (l1 ++ l2) = surface_tags l1 ++ surface_tags l2.
Proof.
  induction l1 as [| c l1 IH]; [reflexivity |].
  destruct c; cbn; now rewrite ?IH.
Qed.

Lemma point_tags_app (l1 l2 : list (call F)) :
  point_tags (l1 ++ l2) = point_tags l1 ++ point_tags l2.
Proof.
  induction l1 as [| c l1 IH]; [reflexivity |].
  destruct c; cbn; now rewrite ?IH.
Qed.

Lemma point_places_app (l1 l2 : list (call F)) :
  point_places (l1 ++ l2) = point_places l1 ++ point_places l2.
Proof.
  induction l1 as [| c l1 IH]; [reflexivity |].
  destruct c; cbn; now rewrite ?IH.
Qed.

Lemma group_members_app (l1 l2 : list (call F)) :
  group_members (l1 ++ l2) = group_members l1 ++ group_members l2.
Proof.
  induction l1 as [| c l1 IH]; [reflexivity |].
  destruct c; cbn; now rewrite ?IH.
Qed.

Lemma startup_calls_all (P : call F -> Prop) (k : gmsh F) :
  (forall c, is_lifecycle c = true -> P c) -> Forall P (startup_calls k).
Proof.
  intros Hp. apply Forall_forall. intros c Hc. apply Hp.
  pose proof (startup_calls_lifecycle k) as Hl.
  rewrite forallb_forall in Hl. now apply Hl.
Qed.

Lemma startup_calls_view {X} (view : list (call F) -> list X) (k : gmsh F) :
  (forall l1 l2, view (l1 ++ l2) = view l1 ++ view l2) ->
  (forall c, is_lifecycle c = true -> view [c] = []) ->
  view (startup_calls k) = [].
Proof.
  intros Happ Hp. apply (view_none view Happ). now apply startup_calls_all.
Qed.

Lemma parameter_checks_state a rInner rOuter (k : gmsh F) :
  snd (parameter_checks a rInner rOuter k) = k.
Proof.
  unfold parameter_checks, bind.
  destruct (flt (fsub rInner a) (of_int 0)); [reflexivity |].
  cbn. now destruct (fgt (fadd rInner a) rOuter).
Qed.

(** A computation followed by a continuation: what the first part adds
    to the call list, and how the whole goes on. *)
Lemma emits_cases (P : call F -> Prop) {A B} (m : M F A) (g : A -> M F B) :
  emits P m ->
  forall k, exists e1 k1,
    calls k1 = calls k ++ e1
    /\ Forall P e1
    /\ ((exists e, bind m g k = (Raise e, k1))
        \/ (exists x, bind m g k = g x k1)).
Proof.
  intros Hm k. destruct (Hm k) as (e1 & E1 & F1). unfold bind.
  destruct (m k) as [[x | e] k1]; cbn [snd] in E1; exists e1, k1;
    (split; [exact E1 |]); (split; [exact F1 |]).
  - right. exists x. reflexivity.
  - left. exists e. reflexivity.
Qed.

End Views.

(* ------------------------------------------------------------------ *)
(** ** Runs that stop early *)
(* ------------------------------------------------------------------ *)

Section Failures.
Context {F : Type} `{PyFloat F}.
Variable ensure_gmsh_available : M F unit.

(** Lines 54-55 on radii that pass the checks: a band size of zero
    raises [ZeroDivisionError]; a quotient that is a NaN raises
    [ValueError] and one that is infinite [OverflowError], when it is
    converted to an integer.  Each of these happens after the startup
    block and before the first point: the kernel is left as the startup
    block left it. *)
Theorem count_failure_precedes_geometry
    a rInner rOuter h_band h_outer n_sectors
    InnerMaterialName OuterMaterialName InterfaceName OuterBoundaryName
    (k k1 : gmsh F) :
  ensure_gmsh_available k = (Ok tt, k1) ->
  flt (fsub rInner a) (of_int 0) = false ->
  fgt (fadd rInner a) rOuter = false ->
  feq h_band (of_int 0) = true
  \/ ceil_int (fdiv (fmul (of_int 2) a) h_band) = None
  \/ ceil_int (fdiv (fmul lit_half math_pi) h_band) = None ->
  exists e,
    Transfinite_Disk ensure_gmsh_available a rInner rOuter h_band h_outer
      n_sectors InnerMaterialName OuterMaterialName InterfaceName
      OuterBoundaryName k = (Raise e, started k1)
    /\ (e = ZeroDivisionError
        \/ e = ValueError "cannot convert float NaN to integer"
        \/ e = OverflowError)
    /\ (feq h_band (of_int 0) = true <-> e = ZeroDivisionError).
Proof.
  intros He Hv1 Hv2 Hbad. unfold Transfinite_Disk.
  rewrite (bind_Ok _ He), (bind_Ok _ (startup_spec k1)).
  rewrite (bind_Ok _ (parameter_checks_pass _ _ _ _ Hv1 Hv2)).
  unfold decompose. unfold bind at 1. rewrite n_div_radial_spec.
  destruct (feq h_band (of_int 0)) eqn:Eh.
  { exists ZeroDivisionError. cbv beta iota. split; [reflexivity |].
    split; [now left |]. split; auto. }
  destruct Hbad as [Hz | Hbad]; [discriminate |].
  destruct (ceil_int (fdiv (fmul (of_int 2) a) h_band)) as [n1 |] eqn:E1;
    cbv beta iota.
  - destruct Hbad as [Hn | Hn]; [discriminate |].
    unfold bind at 1. rewrite n_div_angular_spec, Eh, Hn. cbv beta iota.
    eexists. split; [reflexivity |].
    destruct (is_nan (fdiv (fmul lit_half math_pi) h_band));
      split; auto; split; discriminate.
  - eexists. split; [reflexivity |].
    destruct (is_nan (fdiv (fmul (of_int 2) a) h_band));
      split; auto; split; discriminate.
Qed.

End Failures.

(** Witness: a band size of zero on the valid radii a = 0.1, rInner = 1,
    rOuter = 3. *)
Lemma count_failure_precedes_geometry_witness :
  exists e,
    Transfinite_Disk gmsh_present f0_1 1%float 3%float 0%float f0_5 4
      "InnerMaterial" "OuterMaterial" "Interface" "Outer" fresh
    = (Raise e, started fresh)
    /\ (e = ZeroDivisionError
        \/ e = ValueError "cannot convert float NaN to integer"
        \/ e = OverflowError)
    /\ (feq 0%float (of_int 0) = true <-> e = ZeroDivisionError).
Proof.
  apply (count_failure_precedes_geometry gmsh_present
           f0_1 1%float 3%float 0%float f0_5 4
           "InnerMaterial" "OuterMaterial" "Interface" "Outer" fresh fresh).
  - reflexivity.
  - vm_compute. reflexivity.
  - vm_compute. reflexivity.
  - left. vm_compute. reflexivity.
Defined.

Section Undefined.
Context {F : Type} `{PyFloat F}.
Variable ensure_gmsh_available : M F unit.

(** Neither inner-band branch runs: the outer-band curves are made, and
    the name [arc_interface] is then read without ever having been
    assigned. *)
Lemma sector_undefined a rInner rOuter h_band h_outer ndr nda pc i fr
    (k : gmsh F) :
  fgt (fsub rInner a) (of_int 0) = false ->
  feq rInner a = false ->
  arc_interface fr = None ->
  exists k' evs,
    sector a rInner rOuter h_band h_outer ndr nda pc 4 i fr k
    = (Raise (UnboundLocalError "arc_interface"), k')
    /\ calls k' = calls k ++ evs
    /\ count is_point evs = 8%nat
    /\ count is_curve evs = 3%nat
    /\ count is_loop evs = 0%nat
    /\ count is_surface evs = 0%nat
    /\ sectors_built evs = 0%nat.
Proof.
  intros Hnd Hdeg Hai. destruct k as [ini hm mp mc ml ms mg cs].
  destruct fr as [isf osf cib ai sib]. cbn in Hai. subst ai.
  unfold sector, bind. rewrite Hnd, Hdeg.
  cbn -[Z.add]; unfold Gmsh.record; cbn -[Z.add].
  do 2 eexists. split; [reflexivity |]. cbn -[Z.add].
  rewrite <- !app_assoc. split; [reflexivity |]. repeat split.
Qed.

(** Lines 91-128 on a radius for which [rInner - a] is neither negative
    nor positive while [rInner == a] is false; for doubles, a NaN
    [rInner].  Such a radius passes both parameter checks.  The call
    then creates the centre point, the eight points and the three
    outer-band curves of the first sector, and raises
    [UnboundLocalError] for [arc_interface]: no loop, no surface and no
    structured request has been made. *)
Theorem undefined_radius_raises_unbound_local
    a rInner rOuter h_band h_outer n_sectors
    InnerMaterialName OuterMaterialName InterfaceName OuterBoundaryName
    c1 c2 (k k1 : gmsh F) :
  ensure_gmsh_available k = (Ok tt, k1) ->
  flt (fsub rInner a) (of_int 0) = false ->
  fgt (fadd rInner a) rOuter = false ->
  feq h_band (of_int 0) = false ->
  ceil_int (fdiv (fmul (of_int 2) a) h_band) = Some c1 ->
  ceil_int (fdiv (fmul lit_half math_pi) h_band) = Some c2 ->
  fgt (fsub rInner a) (of_int 0) = false ->
  feq rInner a = false ->
  exists k2 evs,
    Transfinite_Disk ensure_gmsh_available a rInner rOuter h_band h_outer
      n_sectors InnerMaterialName OuterMaterialName InterfaceName
      OuterBoundaryName k = (Raise (UnboundLocalError "arc_interface"), k2)
    /\ calls k2 = calls k1 ++ evs
    /\ count is_point evs = 9%nat
    /\ count is_curve evs = 3%nat
    /\ count is_loop evs = 0%nat
    /\ count is_surface evs = 0%nat
    /\ sectors_built evs = 0%nat.
Proof.
  intros He Hv1 Hv2 Hh Hc1 Hc2 Hnd Hdeg.
  set (center := AddPoint (of_int 0) (of_int 0) (of_int 0)
                   (meshSizeAt a rInner h_band h_outer (of_int 0) (of_int 0))
                   (max_point k1 + 1)).
  destruct (sector_undefined a rInner rOuter h_band h_outer
              (Z.max 4 c1) (Z.max 4 c2) (max_point k1 + 1) 0
              (mkFrame [] [] None None None)
              (mkGmsh true true (max_point k1 + 1) (max_curve k1)
                 (max_loop k1) (max_surface k1) (max_group k1)
                 (calls (started k1) ++ [center])) Hnd Hdeg eq_refl)
    as (k2 & evs & E & Ecalls & Np & Nc & Nl & Ns & Nr).
  exists k2, (startup_calls k1 ++ [center] ++ evs).
  split; [| split].
  - unfold Transfinite_Disk.
    rewrite (bind_Ok _ He), (bind_Ok _ (startup_spec k1)).
    rewrite (bind_Ok _ (parameter_checks_pass _ _ _ _ Hv1 Hv2)).
    unfold decompose.
    rewrite (bind_Ok _ (n_div_radial_ok _ _ _ _ Hh Hc1)).
    rewrite (bind_Ok _ (n_div_angular_ok _ _ _ Hh Hc2)).
    unfold bind at 1. unfold Gmsh.addPoint at 1.
    cbn [started max_point initialized has_model max_curve max_loop
         max_surface max_group calls].
    fold center. change (range 4) with [0; 1; 2; 3]. cbn [for_each].
    cbn [started calls] in E.
    rewrite (bind_Raise _ (bind_Raise _ E)). reflexivity.
  - rewrite Ecalls. cbn [calls started]. now rewrite <- !app_assoc.
  - unfold sectors_built in *. rewrite !count_app, Np, Nc, Nl, Ns, Nr.
    unfold count.
    rewrite !startup_calls_filter by (intros c; now destruct c).
    repeat split.
Qed.

End Undefined.

(** Witness: rInner a NaN, with a = 0.1 and rOuter = 3. *)
Lemma undefined_radius_raises_unbound_local_witness :
  exists k2 evs,
    Transfinite_Disk gmsh_present f0_1 nan 3%float f0_1 f0_5 4
      "InnerMaterial" "OuterMaterial" "Interface" "Outer" fresh
    = (Raise (UnboundLocalError "arc_interface"), k2)
    /\ calls k2 = calls (@fresh float) ++ evs
    /\ count is_point evs = 9%nat
    /\ count is_curve evs = 3%nat
    /\ count is_loop evs = 0%nat
    /\ count is_surface evs = 0%nat
    /\ sectors_built evs = 0%nat.
Proof.
  apply (undefined_radius_raises_unbound_local gmsh_present
           f0_1 nan 3%float f0_1 f0_5 4
           "InnerMaterial" "OuterMaterial" "Interface" "Outer"
           2 16 fresh fresh).
  - reflexivity.
  - vm_compute. reflexivity.
  - vm_compute. reflexivity.
  - vm_compute. reflexivity.
  - vm_compute. reflexivity.
  - vm_compute. reflexivity.
  - vm_compute. reflexivity.
  - vm_compute. reflexivity.
Defined.

(* ------------------------------------------------------------------ *)
(** ** Runs that succeed *)
(* ------------------------------------------------------------------ *)

Section SectorViews.
Context {F : Type} `{PyFloat F}.
Variables a rInner rOuter h_band h_outer : F.
Variables ndr nda p_center : Z.

Local Notation "'sector_at'" :=
  (sector a rInner rOuter h_band h_outer ndr nda p_center 4).
Local Notation "'calls_at'" :=
  (sector_calls a rInner rOuter h_band h_outer ndr nda p_center).
Local Notation "'bulk'" := (flt (fadd a rInner) rOuter).

Hypothesis Hnd : fgt (fsub rInner a) (of_int 0) = true.

Ltac open_calls :=
  unfold sector_calls, sector, bind; rewrite Hnd;
  destruct bulk; cbn -[Z.add Z.opp].

Lemma sector_surface_tags mp mc ml ms i fr :
  surface_tags (calls_at mp mc ml ms i fr)
  = [ms + 1; ms + 2; ms + 3] ++ (if bulk then [ms + 4] else []).
Proof. open_calls; list_arith. Qed.

Lemma sector_point_tags mp mc ml ms i fr :
  point_tags (calls_at mp mc ml ms i fr)
  = [mp + 1; mp + 2; mp + 3; mp + 4; mp + 5; mp + 6; mp + 7; mp + 8].
Proof. open_calls; list_arith. Qed.

Lemma sector_group_members mp mc ml ms i fr :
  group_members (calls_at mp mc ml ms i fr) = [].
Proof. open_calls; reflexivity. Qed.

Lemma sector_points_count mp mc ml ms i fr :
  count is_point (calls_at mp mc ml ms i fr) = 8%nat.
Proof. unfold count. open_calls; reflexivity. Qed.

Lemma sector_curves_count mp mc ml ms i fr :
  count is_curve (calls_at mp mc ml ms i fr) = (if bulk then 12 else 9)%nat.
Proof. unfold count. open_calls; reflexivity. Qed.

Lemma sector_loops_count mp mc ml ms i fr :
  count is_loop (calls_at mp mc ml ms i fr) = (if bulk then 4 else 3)%nat.
Proof. unfold count. open_calls; reflexivity. Qed.

Lemma sector_surfaces_count mp mc ml ms i fr :
  count is_surface (calls_at mp mc ml ms i fr) = (if bulk then 4 else 3)%nat.
Proof. unfold count. open_calls; reflexivity. Qed.

Lemma sector_places_length mp mc ml ms i fr :
  List.length (point_places (calls_at mp mc ml ms i fr)) = 8%nat.
Proof. open_calls; reflexivity. Qed.

(** The four points on the closing ray of a sector and the four on the
    opening ray of the next are made from the same radii and the same
    angle. *)
Lemma sector_seam mp mc ml ms fr mp' mc' ml' ms' fr' i :
  odds (point_places (calls_at mp mc ml ms i fr))
  = evens (point_places (calls_at mp' mc' ml' ms' (i + 1) fr')).
Proof. open_calls; reflexivity. Qed.

(** A sector runs to its end; the surfaces it adds to the two
    accumulators. *)
Lemma sector_run i fr (k : gmsh F) :
  exists fr',
    sector_at i fr k =
    (Ok fr',
     mkGmsh (initialized k) (has_model k) (max_point k + 8)
       (max_curve k + curves_per_sector bulk)
       (max_loop k + patches_per_sector bulk)
       (max_surface k + patches_per_sector bulk) (max_group k)
       (calls k ++ calls_at (max_point k) (max_curve k) (max_loop k)
                            (max_surface k) i fr))
    /\ inner_surfaces fr'
       = inner_surfaces fr ++ [max_surface k + 1; max_surface k + 2]
    /\ outer_surfaces fr'
       = outer_surfaces fr
         ++ [max_surface k + 3]
         ++ (if bulk then [max_surface k + 4] else []).
Proof.
  destruct k as [ini hm mp mc ml ms mg cs].
  unfold sector_calls, sector, bind. rewrite Hnd.
  destruct bulk; cbn -[Z.add]; unfold ret, Gmsh.record; cbn -[Z.add];
    eexists;
    (split;
     [ (apply f_equal2; [reflexivity |]); apply gmsh_eq; try lia;
       rewrite <- !app_assoc; reflexivity |]);
    cbn [inner_surfaces outer_surfaces];
    rewrite <- ?app_assoc; cbn [app];
    (split; (apply f_equal2; [reflexivity |]); list_arith).
Qed.

End SectorViews.

Section SuccessfulRun.
Context {F : Type} `{PyFloat F}.
Variable ensure_gmsh_available : M F unit.
Variables a rInner rOuter h_band h_outer : F.
Variable n_sectors : Z.
Variables InnerMaterialName OuterMaterialName : string.
Variables InterfaceName OuterBoundaryName : string.
Variables c1 c2 : Z.

Hypothesis Hh : feq h_band (of_int 0) = false.
Hypothesis Hc1 : ceil_int (fdiv (fmul (of_int 2) a) h_band) = Some c1.
Hypothesis Hc2 : ceil_int (fdiv (fmul lit_half math_pi) h_band) = Some c2.
Hypothesis Hnd : fgt (fsub rInner a) (of_int 0) = true.

Local Notation "'bulk'" := (flt (fadd a rInner) rOuter).
Local Notation "'nc'" := (curves_per_sector bulk).
Local Notation "'np'" := (patches_per_sector bulk).
Local Notation "'more'" := (fun m : Z => if bulk then [m + 4] else []).
Local Notation "'calls_at'" :=
  (sector_calls a rInner rOuter h_band h_outer (Z.max 4 c1) (Z.max 4 c2)).
Local Notation "'run_sector'" :=
  (sector a rInner rOuter h_band h_outer (Z.max 4 c1) (Z.max 4 c2)).

#[local] Opaque sector_calls.

Ltac next_run pc i f E I O :=
  match goal with
  | E' : _ = (Ok ?f', ?k') |- _ =>
      destruct (sector_run a rInner rOuter h_band h_outer
                  (Z.max 4 c1) (Z.max 4 c2) pc Hnd i f' k')
        as (f & E & I & O);
      cbn [initialized has_model max_point max_curve max_loop max_surface
           max_group calls] in E, I, O;
      revert E'
  end.

(** The four sectors in a row, with what they leave in the two
    accumulators. *)
Lemma four_sectors_run pc f0 (k : gmsh F) :
  exists f1 f2 f3 f4,
    let mp := max_point k in
    let mc := max_curve k in
    let ml := max_loop k in
    let ms := max_surface k in
    for_each (range 4) (run_sector pc 4) f0 k
    = (Ok f4,
       mkGmsh (initialized k) (has_model k)
         (mp + 8 + 8 + 8 + 8) (mc + nc + nc + nc + nc)
         (ml + np + np + np + np) (ms + np + np + np + np) (max_group k)
         (calls k ++
          calls_at pc mp mc ml ms 0 f0 ++
          calls_at pc (mp + 8) (mc + nc) (ml + np) (ms + np) 1 f1 ++
          calls_at pc (mp + 8 + 8) (mc + nc + nc) (ml + np + np)
                   (ms + np + np) 2 f2 ++
          calls_at pc (mp + 8 + 8 + 8) (mc + nc + nc + nc)
                   (ml + np + np + np) (ms + np + np + np) 3 f3))
    /\ inner_surfaces f4
       = inner_surfaces f0 ++
         [ms + 1; ms + 2; ms + np + 1; ms + np + 2;
          ms + np + np + 1; ms + np + np + 2;
          ms + np + np + np + 1; ms + np + np + np + 2]
    /\ outer_surfaces f4
       = outer_surfaces f0 ++
         [ms + 3] ++ more ms ++
         [ms + np + 3] ++ more (ms + np) ++
         [ms + np + np + 3] ++ more (ms + np + np) ++
         [ms + np + np + np + 3] ++ more (ms + np + np + np).
Proof.
  destruct (sector_run a rInner rOuter h_band h_outer
              (Z.max 4 c1) (Z.max 4 c2) pc Hnd 0 f0 k)
    as (f1 & E0 & I0 & O0).
  next_run pc 1 f2 E1 I1 O1. next_run pc 2 f3 E2 I2 O2.
  next_run pc 3 f4 E3 I3 O3.
  intros E2 E1 E0.
  exists f1, f2, f3, f4. cbv zeta. split; [| split].
  - change (range 4) with [0; 1; 2; 3]. cbn [for_each].
    rewrite (bind_Ok _ E0), (bind_Ok _ E1), (bind_Ok _ E2), (bind_Ok _ E3).
    unfold ret. apply f_equal2; [reflexivity |].
    apply gmsh_eq; try reflexivity. now rewrite <- !app_assoc.
  - rewrite I3, I2, I1, I0, <- !app_assoc. reflexivity.
  - rewrite O3, O2, O1, O0, <- !app_assoc. reflexivity.
Qed.

(** The calls of a whole run and the members of its two groups. *)
Lemma decompose_run (k : gmsh F) :
  exists f0 f1 f2 f3 inner outer center,
    let mp := max_point k + 1 in
    let mc := max_curve k in
    let ml := max_loop k in
    let ms := max_surface k in
    decompose a rInner rOuter h_band h_outer n_sectors InnerMaterialName
      OuterMaterialName InterfaceName OuterBoundaryName k
    = (Ok tt,
       mkGmsh (initialized k) (has_model k)
         (mp + 8 + 8 + 8 + 8) (mc + nc + nc + nc + nc)
         (ml + np + np + np + np) (ms + np + np + np + np)
         (max_group k + 1 + 1)
         (calls k ++
          [center] ++
          (calls_at mp mp mc ml ms 0 f0 ++
           calls_at mp (mp + 8) (mc + nc) (ml + np) (ms + np) 1 f1 ++
           calls_at mp (mp + 8 + 8) (mc + nc + nc) (ml + np + np)
                    (ms + np + np) 2 f2 ++
           calls_at mp (mp + 8 + 8 + 8) (mc + nc + nc + nc)
                    (ml + np + np + np) (ms + np + np + np) 3 f3) ++
          [AddPhysicalGroup 2 inner (max_group k + 1);
           SetPhysicalName 2 (max_group k + 1) InnerMaterialName;
           AddPhysicalGroup 2 outer (max_group k + 1 + 1);
           SetPhysicalName 2 (max_group k + 1 + 1) OuterMaterialName;
           GeoSynchronize]))
    /\ inner
       = [ms + 1; ms + 2; ms + np + 1; ms + np + 2;
          ms + np + np + 1; ms + np + np + 2;
          ms + np + np + np + 1; ms + np + np + np + 2]
    /\ outer
       = [ms + 3] ++ more ms ++
         [ms + np + 3] ++ more (ms + np) ++
         [ms + np + np + 3] ++ more (ms + np + np) ++
         [ms + np + np + np + 3] ++ more (ms + np + np + np)
    /\ center
       = AddPoint (of_int 0) (of_int 0) (of_int 0)
           (meshSizeAt a rInner h_band h_outer (of_int 0) (of_int 0))
           (max_point k + 1).
Proof.
  destruct k as [ini hm mp mc ml ms mg cs].
  set (center := AddPoint (of_int 0) (of_int 0) (of_int 0)
                   (meshSizeAt a rInner h_band h_outer (of_int 0) (of_int 0))
                   (mp + 1)).
  set (f0 := mkFrame [] [] None None None).
  destruct (four_sectors_run (mp + 1) f0
              (mkGmsh ini hm (mp + 1) mc ml ms mg (cs ++ [center])))
    as (f1 & f2 & f3 & f4 & E & I & O).
  cbv zeta in E, I, O.
  cbn [initialized has_model max_point max_curve max_loop max_surface
       max_group calls] in E, I, O.
  exists f0, f1, f2, f3, (inner_surfaces f4), (outer_surfaces f4), center.
  cbv zeta.
  cbn [initialized has_model max_point max_curve max_loop max_surface
       max_group calls].
  split; [| split; [exact I | split; [exact O | reflexivity]]].
  unfold decompose.
  rewrite (bind_Ok _ (n_div_radial_ok _ _ _ _ Hh Hc1)).
  rewrite (bind_Ok _ (n_div_angular_ok _ _ _ Hh Hc2)).
  unfold bind at 1. unfold Gmsh.addPoint at 1.
  cbn [max_point initialized has_model max_curve max_loop max_surface
       max_group calls].
  fold center. rewrite (bind_Ok _ E).
  unfold bind, Gmsh.addPhysicalGroup, Gmsh.setPhysicalName,
    Gmsh.synchronize, Gmsh.record.
  cbn [initialized has_model max_point max_curve max_loop max_surface
       max_group calls].
  apply f_equal2; [reflexivity |]. apply gmsh_eq; try reflexivity.
  rewrite <- !app_assoc. reflexivity.
Qed.

End SuccessfulRun.

Section Outcomes.
Context {F : Type} `{PyFloat F}.
Variable ensure_gmsh_available : M F unit.
Variables a rInner rOuter h_band h_outer : F.
Variable n_sectors : Z.
Variables InnerMaterialName OuterMaterialName : string.
Variables InterfaceName OuterBoundaryName : string.
Variables c1 c2 : Z.
Variables k k1 : gmsh F.

Hypothesis He : ensure_gmsh_available k = (Ok tt, k1).
Hypothesis Hv1 : flt (fsub rInner a) (of_int 0) = false.
Hypothesis Hv2 : fgt (fadd rInner a) rOuter = false.
Hypothesis Hh : feq h_band (of_int 0) = false.
Hypothesis Hc1 : ceil_int (fdiv (fmul (of_int 2) a) h_band) = Some c1.
Hypothesis Hc2 : ceil_int (fdiv (fmul lit_half math_pi) h_band) = Some c2.
Hypothesis Hnd : fgt (fsub rInner a) (of_int 0) = true.

Local Notation "'bulk'" := (flt (fadd a rInner) rOuter).
Local Notation "'run'" :=
  (Transfinite_Disk ensure_gmsh_available a rInner rOuter h_band h_outer
     n_sectors InnerMaterialName OuterMaterialName InterfaceName
     OuterBoundaryName k).

#[local] Opaque sector_calls.

(** The run, from the kernel that the check for Gmsh leaves. *)
Lemma successful_run :
  exists f0 f1 f2 f3 inner outer center,
    let SC := sector_calls a rInner rOuter h_band h_outer (Z.max 4 c1)
                (Z.max 4 c2) (max_point k1 + 1) in
    let nc := curves_per_sector bulk in
    let np := patches_per_sector bulk in
    let mp := max_point k1 + 1 in
    let mc := max_curve k1 in
    let ml := max_loop k1 in
    let ms := max_surface k1 in
    let more := fun m : Z => if bulk then [m + 4] else [] in
    run
    = (Ok tt,
       mkGmsh true true
         (mp + 8 + 8 + 8 + 8) (mc + nc + nc + nc + nc)
         (ml + np + np + np + np) (ms + np + np + np + np)
         (max_group k1 + 1 + 1)
         (calls k1 ++
          startup_calls k1 ++
          [center] ++
          (SC mp mc ml ms 0 f0 ++
           SC (mp + 8) (mc + nc) (ml + np) (ms + np) 1 f1 ++
           SC (mp + 8 + 8) (mc + nc + nc) (ml + np + np) (ms + np + np)
              2 f2 ++
           SC (mp + 8 + 8 + 8) (mc + nc + nc + nc) (ml + np + np + np)
              (ms + np + np + np) 3 f3) ++
          [AddPhysicalGroup 2 inner (max_group k1 + 1);
           SetPhysicalName 2 (max_group k1 + 1) InnerMaterialName;
           AddPhysicalGroup 2 outer (max_group k1 + 1 + 1);
           SetPhysicalName 2 (max_group k1 + 1 + 1) OuterMaterialName;
           GeoSynchronize]))
    /\ inner
       = [ms + 1; ms + 2; ms + np + 1; ms + np + 2;
          ms + np + np + 1; ms + np + np + 2;
          ms + np + np + np + 1; ms + np + np + np + 2]
    /\ outer
       = [ms + 3] ++ more ms ++
         [ms + np + 3] ++ more (ms + np) ++
         [ms + np + np + 3] ++ more (ms + np + np) ++
         [ms + np + np + np + 3] ++ more (ms + np + np + np)
    /\ center
       = AddPoint (of_int 0) (of_int 0) (of_int 0)
           (meshSizeAt a rInner h_band h_outer (of_int 0) (of_int 0))
           (max_point k1 + 1).
Proof.
  destruct (decompose_run a rInner rOuter h_band h_outer n_sectors
              InnerMaterialName OuterMaterialName InterfaceName
              OuterBoundaryName c1 c2 Hh Hc1 Hc2 Hnd (started k1))
    as (f0 & f1 & f2 & f3 & inner & outer & center & E & I & O & C).
  cbv zeta in E, I, O.
  cbn [started initialized has_model max_point max_curve max_loop
       max_surface max_group calls] in E, I, O, C.
  exists f0, f1, f2, f3, inner, outer, center. cbv zeta.
  split; [| split; [exact I | split; [exact O | exact C]]].
  unfold Transfinite_Disk.
  rewrite (bind_Ok _ He), (bind_Ok _ (startup_spec k1)).
  rewrite (bind_Ok _ (parameter_checks_pass _ _ _ _ Hv1 Hv2)).
  rewrite E. apply f_equal2; [reflexivity |]. apply gmsh_eq; try reflexivity.
  now rewrite <- app_assoc.
Qed.

(** Lines 65-66, 102, 111, 133, 142 and 154-158: on a disk with
    [rInner - a > 0] that passes the checks, the run makes exactly two
    physical groups, the inner one first.  Every surface the run has
    created is a member of exactly one of them, no surface is listed
    twice, and the groups have no other members.  The inner group has
    eight members; the outer group has eight when the disk has an outer
    bulk ([a + rInner < rOuter]) and four when it has none. *)
Theorem every_surface_is_in_one_group :
  exists k2 evs inner outer,
    run = (Ok tt, k2)
    /\ calls k2 = calls k1 ++ evs
    /\ group_members evs = [inner; outer]
    /\ NoDup (inner ++ outer)
    /\ (forall t, In t (surface_tags evs) <-> In t (inner ++ outer))
    /\ List.length (surface_tags evs) = List.length (inner ++ outer)
    /\ List.length inner = 8%nat
    /\ List.length outer = (if bulk then 8 else 4)%nat.
Proof.
  destruct successful_run
    as (f0 & f1 & f2 & f3 & inner & outer & center & E & I & O & C).
  cbv zeta in E, I, O.
  eexists. eexists. exists inner, outer.
  split; [exact E |]. split; [reflexivity |].
  assert (Hg : forall c : call F,
            is_lifecycle c = true -> group_members [c] = []).
  { intros c; now destruct c. }
  assert (Hs : forall c : call F,
            is_lifecycle c = true -> surface_tags [c] = []).
  { intros c; now destruct c. }
  rewrite !group_members_app, !surface_tags_app.
  rewrite (startup_calls_view group_members k1 group_members_app Hg).
  rewrite (startup_calls_view surface_tags k1 surface_tags_app Hs).
  rewrite !(sector_group_members a rInner rOuter h_band h_outer
              (Z.max 4 c1) (Z.max 4 c2) (max_point k1 + 1) Hnd).
  rewrite !(sector_surface_tags a rInner rOuter h_band h_outer
              (Z.max 4 c1) (Z.max 4 c2) (max_point k1 + 1) Hnd).
  rewrite C, I, O. clear E I O C.
  generalize (max_surface k1). intros ms.
  destruct bulk; cbn [group_members surface_tags app List.length
                       patches_per_sector].
  all: split; [reflexivity |].
  all: split;
    [ repeat (constructor; [cbn [In]; lia |]); constructor |].
  all: split; [intros t; cbn [In]; lia |].
  all: repeat split.
Qed.

(** The same run by numbers: 33 points (the centre and eight per
    sector), 12 curves and 4 loops and surfaces per sector with an outer
    bulk, 9 and 3 without, and two groups; the highest tags of the kernel
    have advanced by as much. *)
Theorem successful_run_tag_budget :
  exists k2 evs,
    run = (Ok tt, k2)
    /\ calls k2 = calls k1 ++ evs
    /\ count is_point evs = 33%nat
    /\ count is_curve evs = (if bulk then 48 else 36)%nat
    /\ count is_loop evs = (if bulk then 16 else 12)%nat
    /\ count is_surface evs = (if bulk then 16 else 12)%nat
    /\ max_point k2 = max_point k1 + 33
    /\ max_curve k2 = max_curve k1 + (if bulk then 48 else 36)
    /\ max_loop k2 = max_loop k1 + (if bulk then 16 else 12)
    /\ max_surface k2 = max_surface k1 + (if bulk then 16 else 12)
    /\ max_group k2 = max_group k1 + 2.
Proof.
  destruct successful_run
    as (f0 & f1 & f2 & f3 & inner & outer & center & E & _ & _ & C).
  cbv zeta in E.
  eexists. eexists. split; [exact E |]. split; [reflexivity |].
  cbn [max_point max_curve max_loop max_surface max_group].
  rewrite !count_app.
  rewrite !(sector_points_count a rInner rOuter h_band h_outer
              (Z.max 4 c1) (Z.max 4 c2) (max_point k1 + 1) Hnd).
  rewrite !(sector_curves_count a rInner rOuter h_band h_outer
              (Z.max 4 c1) (Z.max 4 c2) (max_point k1 + 1) Hnd).
  rewrite !(sector_loops_count a rInner rOuter h_band h_outer
              (Z.max 4 c1) (Z.max 4 c2) (max_point k1 + 1) Hnd).
  rewrite !(sector_surfaces_count a rInner rOuter h_band h_outer
              (Z.max 4 c1) (Z.max 4 c2) (max_point k1 + 1) Hnd).
  rewrite C. clear E C. unfold count.
  rewrite !startup_calls_filter by (intros c; now destruct c).
  cbn [filter List.length app is_point is_curve is_loop is_surface].
  destruct bulk; cbn [curves_per_sector patches_per_sector];
    repeat split; lia.
Qed.

(** Lines 76-88: consecutive sectors do not share the points on their
    common ray.  Of the eight points of a sector, the four on its closing
    ray are made from the same radii, the same angle and the same size as
    the four on the opening ray of the next sector, which are created
    again under new tags: all 33 points of a run have different tags. *)
Theorem seam_points_are_created_twice :
  exists k2 evs centre q0 q1 q2 q3,
    run = (Ok tt, k2)
    /\ calls k2 = calls k1 ++ evs
    /\ point_places evs = centre :: q0 ++ q1 ++ q2 ++ q3
    /\ List.length q0 = 8%nat /\ List.length q1 = 8%nat
    /\ List.length q2 = 8%nat /\ List.length q3 = 8%nat
    /\ odds q0 = evens q1 /\ odds q1 = evens q2 /\ odds q2 = evens q3
    /\ NoDup (point_tags evs).
Proof.
  destruct successful_run
    as (f0 & f1 & f2 & f3 & inner & outer & center & E & _ & _ & C).
  cbv zeta in E.
  set (SC := sector_calls a rInner rOuter h_band h_outer (Z.max 4 c1)
               (Z.max 4 c2) (max_point k1 + 1)) in *.
  set (nc := curves_per_sector bulk) in *.
  set (np := patches_per_sector bulk) in *.
  set (mp := max_point k1 + 1) in *.
  set (mc := max_curve k1) in *.
  set (ml := max_loop k1) in *.
  set (ms := max_surface k1) in *.
  eexists. eexists.
  exists (of_int 0, of_int 0, of_int 0,
          meshSizeAt a rInner h_band h_outer (of_int 0) (of_int 0)),
    (point_places (SC mp mc ml ms 0 f0)),
    (point_places (SC (mp + 8) (mc + nc) (ml + np) (ms + np) 1 f1)),
    (point_places (SC (mp + 8 + 8) (mc + nc + nc) (ml + np + np)
                      (ms + np + np) 2 f2)),
    (point_places (SC (mp + 8 + 8 + 8) (mc + nc + nc + nc)
                      (ml + np + np + np) (ms + np + np + np) 3 f3)).
  split; [exact E |]. split; [reflexivity |].
  assert (Hp : forall c : call F,
            is_lifecycle c = true -> point_places [c] = []).
  { intros c; now destruct c. }
  assert (Ht : forall c : call F,
            is_lifecycle c = true -> point_tags [c] = []).
  { intros c; now destruct c. }
  split.
  { rewrite !point_places_app.
    rewrite (startup_calls_view point_places k1 point_places_app Hp).
    rewrite C. cbn [point_places app]. now rewrite !app_nil_r. }
  subst SC.
  rewrite !(sector_places_length a rInner rOuter h_band h_outer
              (Z.max 4 c1) (Z.max 4 c2) mp Hnd).
  do 4 (split; [reflexivity |]).
  split; [exact (sector_seam a rInner rOuter h_band h_outer (Z.max 4 c1)
                   (Z.max 4 c2) mp Hnd mp mc ml ms f0
                   (mp + 8) (mc + nc) (ml + np) (ms + np) f1 0) |].
  split; [exact (sector_seam a rInner rOuter h_band h_outer (Z.max 4 c1)
                   (Z.max 4 c2) mp Hnd
                   (mp + 8) (mc + nc) (ml + np) (ms + np) f1
                   (mp + 8 + 8) (mc + nc + nc) (ml + np + np)
                   (ms + np + np) f2 1) |].
  split; [exact (sector_seam a rInner rOuter h_band h_outer (Z.max 4 c1)
                   (Z.max 4 c2) mp Hnd
                   (mp + 8 + 8) (mc + nc + nc) (ml + np + np)
                   (ms + np + np) f2
                   (mp + 8 + 8 + 8) (mc + nc + nc + nc) (ml + np + np + np)
                   (ms + np + np + np) f3 2) |].
  rewrite !point_tags_app.
  rewrite (startup_calls_view point_tags k1 point_tags_app Ht).
  rewrite !(sector_point_tags a rInner rOuter h_band h_outer
              (Z.max 4 c1) (Z.max 4 c2) mp Hnd).
  rewrite C. subst mp. clear.
  generalize (max_point k1). intros mp.
  cbn [point_tags app].
  repeat (constructor; [cbn [In]; lia |]); constructor.
Qed.

End Outcomes.

(** Witness: a = 0.1, rInner = 1, rOuter = 3, h_band = 0.1 on a kernel
    nobody has touched. *)
Lemma every_surface_is_in_one_group_witness :
  exists k2 evs inner outer,
    Transfinite_Disk gmsh_present f0_1 1%float 3%float f0_1 f0_5 4
      "InnerMaterial" "OuterMaterial" "Interface" "Outer" fresh
    = (Ok tt, k2)
    /\ calls k2 = calls (@fresh float) ++ evs
    /\ group_members evs = [inner; outer]
    /\ NoDup (inner ++ outer)
    /\ (forall t, In t (surface_tags evs) <-> In t (inner ++ outer))
    /\ List.length (surface_tags evs) = List.length (inner ++ outer)
    /\ List.length inner = 8%nat
    /\ List.length outer
       = (if flt (fadd f0_1 1%float) 3%float then 8 else 4)%nat.
Proof.
  apply (every_surface_is_in_one_group gmsh_present
           f0_1 1%float 3%float f0_1 f0_5 4
           "InnerMaterial" "OuterMaterial" "Interface" "Outer"
           2 16 fresh fresh).
  - reflexivity.
  - vm_compute. reflexivity.
  - vm_compute. reflexivity.
  - vm_compute. reflexivity.
  - vm_compute. reflexivity.
  - vm_compute. reflexivity.
  - vm_compute. reflexivity.
Defined.

(** Witness: the same disk without an outer bulk, rOuter = rInner + a
    with a = 0.5 and rInner = 1. *)
Lemma successful_run_tag_budget_witness :
  exists k2 evs,
    Transfinite_Disk gmsh_present f0_5 1%float 1.5%float f0_1 f0_5 4
      "InnerMaterial" "OuterMaterial" "Interface" "Outer" fresh
    = (Ok tt, k2)
    /\ calls k2 = calls (@fresh float) ++ evs
    /\ count is_point evs = 33%nat
    /\ count is_curve evs
       = (if flt (fadd f0_5 1%float) 1.5%float then 48 else 36)%nat
    /\ count is_loop evs
       = (if flt (fadd f0_5 1%float) 1.5%float then 16 else 12)%nat
    /\ count is_surface evs
       = (if flt (fadd f0_5 1%float) 1.5%float then 16 else 12)%nat
    /\ max_point k2 = max_point (@fresh float) + 33
    /\ max_curve k2
       = max_curve (@fresh float)
         + (if flt (fadd f0_5 1%float) 1.5%float then 48 else 36)
    /\ max_loop k2
       = max_loop (@fresh float)
         + (if flt (fadd f0_5 1%float) 1.5%float then 16 else 12)
    /\ max_surface k2
       = max_surface (@fresh float)
         + (if flt (fadd f0_5 1%float) 1.5%float then 16 else 12)
    /\ max_group k2 = max_group (@fresh float) + 2.
Proof.
  apply (successful_run_tag_budget gmsh_present
           f0_5 1%float 1.5%float f0_1 f0_5 4
           "InnerMaterial" "OuterMaterial" "Interface" "Outer"
           10 16 fresh fresh).
  - reflexivity.
  - vm_compute. reflexivity.
  - vm_compute. reflexivity.
  - vm_compute. reflexivity.
  - vm_compute. reflexivity.
  - vm_compute. reflexivity.
  - vm_compute. reflexivity.
Defined.

(** Witness: a = 0.1, rInner = 1, rOuter = 3, h_band = 0.1. *)
Lemma seam_points_are_created_twice_witness :
  exists k2 evs centre q0 q1 q2 q3,
    Transfinite_Disk gmsh_present f0_1 1%float 3%float f0_1 f0_5 4
      "InnerMaterial" "OuterMaterial" "Interface" "Outer" fresh
    = (Ok tt, k2)
    /\ calls k2 = calls (@fresh float) ++ evs
    /\ point_places evs = centre :: q0 ++ q1 ++ q2 ++ q3
    /\ List.length q0 = 8%nat /\ List.length q1 = 8%nat
    /\ List.length q2 = 8%nat /\ List.length q3 = 8%nat
    /\ odds q0 = evens q1 /\ odds q1 = evens q2 /\ odds q2 = evens q3
    /\ NoDup (point_tags evs).
Proof.
  apply (seam_points_are_created_twice gmsh_present
           f0_1 1%float 3%float f0_1 f0_5 4
           "InnerMaterial" "OuterMaterial" "Interface" "Outer"
           2 16 fresh fresh).
  - reflexivity.
  - vm_compute. reflexivity.
  - vm_compute. reflexivity.
  - vm_compute. reflexivity.
  - vm_compute. reflexivity.
  - vm_compute. reflexivity.
  - vm_compute. reflexivity.
Defined.

(* ------------------------------------------------------------------ *)
(** ** Every run *)
(* ------------------------------------------------------------------ *)

(** Settles a condition on the lifecycle calls, kind by kind. *)
Ltac by_kind :=
  let c := fresh "c" in
  let Hc := fresh "Hc" in
  intros c Hc; destruct c; try discriminate Hc; first [exact I | reflexivity].

Section EveryRun.
Context {F : Type} `{PyFloat F}.
Variable ensure_gmsh_available : M F unit.
Variables a rInner rOuter h_band h_outer : F.

Section Kinds.
Variable P : call F -> Prop.
Variable pc : Z.
Hypothesis point_ok :
  forall x y t,
    P (AddPoint x y (of_int 0) (meshSizeAt a rInner h_band h_outer x y) t).
Hypothesis line_ok : forall p0 p1 t, P (AddLine p0 p1 t).
Hypothesis arc_ok : forall ps pe t, P (AddCircleArc ps pc pe t).
Hypothesis loop_ok : forall curves t, P (AddCurveLoop curves t).
Hypothesis surface_ok : forall wires t, P (AddPlaneSurface wires t).
Hypothesis request_ok :
  forall rad circ surfs nr nc b, P (SetTransfinite rad circ surfs nr nc b).

Lemma sector_emits_kinds ndr nda n i fr :
  emits P (sector a rInner rOuter h_band h_outer ndr nda pc n i fr).
Proof.
  unfold sector, div_int, make_pt.
  emits_walk;
    lazymatch goal with
    | |- P (AddPoint _ _ _ _ _) => apply point_ok
    | |- P (AddLine _ _ _) => apply line_ok
    | |- P (AddCircleArc _ _ _ _) => apply arc_ok
    | |- P (AddCurveLoop _ _) => apply loop_ok
    | |- P (AddPlaneSurface _ _) => apply surface_ok
    | |- P (SetTransfinite _ _ _ _ _ _) => apply request_ok
    end.
Qed.

Hypothesis group_ok : forall dim tags t, P (AddPhysicalGroup dim tags t).
Hypothesis name_ok : forall dim t name, P (SetPhysicalName dim t name).
Hypothesis sync_ok : P GeoSynchronize.

(** Lines 76-161, once the centre point is there. *)
Lemma sectors_and_groups_emits ndr nda nm1 nm2 :
  emits P
    (fr <- for_each (range 4)
             (sector a rInner rOuter h_band h_outer ndr nda pc 4)
             (mkFrame [] [] None None None) ;;
     disk_groups_part nm1 nm2 fr).
Proof.
  apply emits_bind.
  - apply emits_for_each. intros. apply sector_emits_kinds.
  - intros fr. unfold disk_groups_part.
    emits_walk; first [apply group_ok | apply name_ok | apply sync_ok].
Qed.

End Kinds.

(** A run up to the centre point: either it has stopped, having made no
    call after the startup block, or the centre point is the one call
    made since, and lines 76-161 follow. *)
Lemma run_to_centre n_sectors nm1 nm2 nm3 nm4 (k1 : gmsh F) :
  (exists e,
     (startup ;;; parameter_checks a rInner rOuter ;;;
      decompose a rInner rOuter h_band h_outer n_sectors nm1 nm2 nm3 nm4) k1
     = (Raise e, started k1))
  \/ exists ndr nda,
       (startup ;;; parameter_checks a rInner rOuter ;;;
        decompose a rInner rOuter h_band h_outer n_sectors nm1 nm2 nm3 nm4) k1
       = (fr <- for_each (range 4)
                  (sector a rInner rOuter h_band h_outer ndr nda
                     (max_point k1 + 1) 4)
                  (mkFrame [] [] None None None) ;;
          disk_groups_part nm1 nm2 fr)
           (mkGmsh true true (max_point k1 + 1) (max_curve k1) (max_loop k1)
              (max_surface k1) (max_group k1)
              (calls k1 ++ startup_calls k1 ++
               [AddPoint (of_int 0) (of_int 0) (of_int 0)
                  (meshSizeAt a rInner h_band h_outer (of_int 0) (of_int 0))
                  (max_point k1 + 1)])).
Proof.
  set (centre := AddPoint (of_int 0) (of_int 0) (of_int 0)
                   (meshSizeAt a rInner h_band h_outer (of_int 0) (of_int 0))
                   (max_point k1 + 1)).
  assert (Ec : (exists e, parameter_checks a rInner rOuter (started k1)
                          = (Raise e, started k1))
               \/ parameter_checks a rInner rOuter (started k1)
                  = (Ok tt, started k1)).
  { pose proof (parameter_checks_state a rInner rOuter (started k1)) as Es.
    destruct (parameter_checks a rInner rOuter (started k1))
      as [[[] | e] k2]; cbn [snd] in Es; subst k2; eauto. }
  destruct Ec as [[e Ec] | Ec].
  { left. exists e.
    now rewrite (bind_Ok _ (startup_spec k1)), (bind_Raise _ Ec). }
  pose proof (n_div_radial_spec a h_band (started k1)) as Er.
  pose proof (n_div_angular_spec h_band (started k1)) as Ea.
  destruct (feq h_band (of_int 0)).
  { left. eexists.
    rewrite (bind_Ok _ (startup_spec k1)), (bind_Ok _ Ec).
    unfold decompose. now rewrite (bind_Raise _ Er). }
  destruct (ceil_int (fdiv (fmul (of_int 2) a) h_band)) as [n1 |].
  2: { left. eexists.
       rewrite (bind_Ok _ (startup_spec k1)), (bind_Ok _ Ec).
       unfold decompose. now rewrite (bind_Raise _ Er). }
  destruct (ceil_int (fdiv (fmul lit_half math_pi) h_band)) as [n2 |].
  2: { left. eexists.
       rewrite (bind_Ok _ (startup_spec k1)), (bind_Ok _ Ec).
       unfold decompose. now rewrite (bind_Ok _ Er), (bind_Raise _ Ea). }
  right. exists (Z.max 4 n1), (Z.max 4 n2).
  rewrite (bind_Ok _ (startup_spec k1)), (bind_Ok _ Ec).
  unfold decompose. rewrite (bind_Ok _ Er), (bind_Ok _ Ea).
  assert (Ep : Gmsh.addPoint (of_int 0) (of_int 0) (of_int 0)
                 (meshSizeAt a rInner h_band h_outer (of_int 0) (of_int 0))
                 (started k1)
               = (Ok (max_point k1 + 1),
                  mkGmsh true true (max_point k1 + 1) (max_curve k1)
                    (max_loop k1) (max_surface k1) (max_group k1)
                    (calls k1 ++ startup_calls k1 ++ [centre]))).
  { unfold Gmsh.addPoint, started. cbn [max_point initialized has_model
      max_curve max_loop max_surface max_group calls].
    now rewrite <- app_assoc. }
  rewrite (bind_Ok _ Ep). reflexivity.
Qed.

(** Lines 57-63, 67 and 70-72: every point of a run, whichever branch it takes and
    whether it succeeds or not, lies in the plane z = 0 and carries
    [h_band] or [h_outer] as its target size; no other size reaches the
    kernel. *)
Theorem points_are_planar_with_two_sizes
    n_sectors InnerMaterialName OuterMaterialName InterfaceName
    OuterBoundaryName (k : gmsh F) :
  exists evs,
    calls (snd (Transfinite_Disk ensure_gmsh_available a rInner rOuter
                  h_band h_outer n_sectors InnerMaterialName
                  OuterMaterialName InterfaceName OuterBoundaryName k))
    = calls (snd (ensure_gmsh_available k)) ++ evs
    /\ Forall (planar_point h_band h_outer) evs.
Proof.
  assert (Hsize : forall x y t,
            planar_point h_band h_outer
              (AddPoint x y (of_int 0)
                 (meshSizeAt a rInner h_band h_outer x y) t)).
  { intros x y t. cbn. split; [reflexivity |]. unfold meshSizeAt.
    match goal with |- context [if ?c then _ else _] => destruct c end;
      auto. }
  unfold Transfinite_Disk, bind at 1.
  destruct (ensure_gmsh_available k) as [[[] | e] k1]; cbn [snd];
    [| exists []; split; [now rewrite app_nil_r | constructor]].
  destruct (run_to_centre n_sectors InnerMaterialName OuterMaterialName
              InterfaceName OuterBoundaryName k1)
    as [[e E] | (ndr & nda & E)]; rewrite E; clear E.
  - exists (startup_calls k1). split; [reflexivity |].
    apply startup_calls_all. by_kind.
  - destruct (sectors_and_groups_emits (planar_point h_band h_outer)
                (max_point k1 + 1) Hsize
                (fun _ _ _ => I) (fun _ _ _ => I) (fun _ _ => I)
                (fun _ _ => I) (fun _ _ _ _ _ _ => I)
                (fun _ _ _ => I) (fun _ _ _ => I) I
                ndr nda InnerMaterialName OuterMaterialName
                (mkGmsh true true (max_point k1 + 1) (max_curve k1)
                   (max_loop k1) (max_surface k1) (max_group k1)
                   (calls k1 ++ startup_calls k1 ++
                    [AddPoint (of_int 0) (of_int 0) (of_int 0)
                       (meshSizeAt a rInner h_band h_outer (of_int 0)
                          (of_int 0)) (max_point k1 + 1)])))
      as (evs & Ec & Fc).
    cbn [calls] in Ec. rewrite Ec.
    eexists. split; [rewrite <- !app_assoc; reflexivity |].
    apply Forall_app. split.
    + apply startup_calls_all. by_kind.
    + constructor; [apply Hsize | exact Fc].
Qed.

(** Lines 67, 95, 97, 115, 126 and 137: every circle arc of a run, in
    every sector and branch, is drawn about one centre, the point that
    the run creates first, at the origin.  Stated from the kernel that the
    check for Gmsh leaves: after the calls of the startup block the run has
    either stopped, or created that point, under the tag that follows
    the highest point tag, and every arc made afterwards names that
    tag as its centre. *)
Theorem arcs_are_centred_on_the_first_point
    n_sectors InnerMaterialName OuterMaterialName InterfaceName
    OuterBoundaryName (k k1 : gmsh F) :
  ensure_gmsh_available k = (Ok tt, k1) ->
  exists evs,
    calls (snd (Transfinite_Disk ensure_gmsh_available a rInner rOuter
                  h_band h_outer n_sectors InnerMaterialName
                  OuterMaterialName InterfaceName OuterBoundaryName k))
    = calls k1 ++ startup_calls k1 ++ evs
    /\ (evs = []
        \/ exists rest,
             evs = AddPoint (of_int 0) (of_int 0) (of_int 0)
                     (meshSizeAt a rInner h_band h_outer (of_int 0)
                        (of_int 0)) (max_point k1 + 1) :: rest
             /\ Forall (centred_on (max_point k1 + 1)) rest).
Proof.
  intros He. unfold Transfinite_Disk. rewrite (bind_Ok _ He).
  destruct (run_to_centre n_sectors InnerMaterialName OuterMaterialName
              InterfaceName OuterBoundaryName k1)
    as [[e E] | (ndr & nda & E)]; rewrite E; clear E.
  - exists []. split; [now rewrite app_nil_r | now left].
  - destruct (sectors_and_groups_emits (centred_on (max_point k1 + 1))
                (max_point k1 + 1)
                (fun _ _ _ => I) (fun _ _ _ => I) (fun _ _ _ => eq_refl)
                (fun _ _ => I) (fun _ _ => I) (fun _ _ _ _ _ _ => I)
                (fun _ _ _ => I) (fun _ _ _ => I) I
                ndr nda InnerMaterialName OuterMaterialName
                (mkGmsh true true (max_point k1 + 1) (max_curve k1)
                   (max_loop k1) (max_surface k1) (max_group k1)
                   (calls k1 ++ startup_calls k1 ++
                    [AddPoint (of_int 0) (of_int 0) (of_int 0)
                       (meshSizeAt a rInner h_band h_outer (of_int 0)
                          (of_int 0)) (max_point k1 + 1)])))
      as (evs & Ec & Fc).
    cbn [calls] in Ec. rewrite Ec.
    eexists. split; [rewrite <- !app_assoc; reflexivity |].
    right. eexists. split; [reflexivity | exact Fc].
Qed.

(** Line 161 is the only synchronization of the builder: a run that
    returns has synchronized the kernel exactly once, as its last call;
    a run that raises has not synchronized at all, whatever it has
    created by then. *)
Theorem synchronizes_once_at_the_end
    n_sectors InnerMaterialName OuterMaterialName InterfaceName
    OuterBoundaryName (k : gmsh F) :
  let run :=
    Transfinite_Disk ensure_gmsh_available a rInner rOuter h_band h_outer
      n_sectors InnerMaterialName OuterMaterialName InterfaceName
      OuterBoundaryName k in
  exists evs,
    calls (snd run) = calls (snd (ensure_gmsh_available k)) ++ evs
    /\ ((fst run = Ok tt
         /\ exists before, evs = before ++ [GeoSynchronize]
                           /\ count is_sync before = 0%nat)
        \/ ((exists e, fst run = Raise e) /\ count is_sync evs = 0%nat)).
Proof.
  intros run. unfold run, Transfinite_Disk. clear run.
  destruct (ensure_gmsh_available k) as [[[] | e] k1] eqn:He; cbn [snd].
  2: { rewrite !(bind_Raise _ He). exists []. cbn [fst snd].
       split; [rewrite app_nil_r; reflexivity |]. right.
       split; [exists e; reflexivity | reflexivity]. }
  rewrite !(bind_Ok _ He).
  destruct (run_to_centre n_sectors InnerMaterialName OuterMaterialName
              InterfaceName OuterBoundaryName k1)
    as [[e E] | (ndr & nda & E)]; rewrite E; clear E.
  - exists (startup_calls k1). split; [reflexivity |]. right.
    split; [exists e; reflexivity |]. unfold count.
    rewrite startup_calls_filter; [reflexivity | by_kind].
  - set (centre := AddPoint (of_int 0) (of_int 0) (of_int 0)
                     (meshSizeAt a rInner h_band h_outer (of_int 0)
                        (of_int 0)) (max_point k1 + 1)).
    set (k5 := mkGmsh true true (max_point k1 + 1) (max_curve k1)
                 (max_loop k1) (max_surface k1) (max_group k1)
                 (calls k1 ++ startup_calls k1 ++ [centre])).
    assert (Hloop : emits (fun c => is_sync c = false)
                      (for_each (range 4)
                         (sector a rInner rOuter h_band h_outer ndr nda
                            (max_point k1 + 1) 4)
                         (mkFrame [] [] None None None))).
    { apply emits_for_each. intros.
      apply sector_emits_kinds; reflexivity. }
    assert (Hpre : count is_sync (startup_calls k1 ++ [centre]) = 0%nat).
    { rewrite count_app. unfold count.
      rewrite startup_calls_filter; [reflexivity | by_kind]. }
    destruct (emits_cases _ _
                (fun fr => disk_groups_part InnerMaterialName
                             OuterMaterialName fr)
                Hloop k5)
      as (e1 & k6 & Ec & F1 & [(e & E) | (fr & E)]);
      rewrite E; clear E; unfold k5 in Ec; cbn [calls] in Ec.
    + exists ((startup_calls k1 ++ [centre]) ++ e1). cbn [fst snd].
      split; [rewrite Ec, <- !app_assoc; reflexivity |].
      right. split; [exists e; reflexivity |].
      rewrite count_app, Hpre, (count_none _ _ F1). reflexivity.
    + destruct k6 as [ini hm mp mc ml ms mg cs]. cbn [calls] in Ec.
      unfold disk_groups_part, bind, Gmsh.addPhysicalGroup,
        Gmsh.setPhysicalName, Gmsh.synchronize, Gmsh.record.
      cbn [fst snd calls initialized has_model max_point max_curve max_loop
           max_surface max_group].
      exists (((startup_calls k1 ++ [centre]) ++ e1 ++
               [AddPhysicalGroup 2 (inner_surfaces fr) (mg + 1);
                SetPhysicalName 2 (mg + 1) InnerMaterialName;
                AddPhysicalGroup 2 (outer_surfaces fr) (mg + 1 + 1);
                SetPhysicalName 2 (mg + 1 + 1) OuterMaterialName])
              ++ [GeoSynchronize]).
      split; [rewrite Ec, <- !app_assoc; reflexivity |].
      left. split; [reflexivity |]. eexists. split; [reflexivity |].
      rewrite count_app, Hpre, count_app, (count_none _ _ F1).
      reflexivity.
Qed.

End EveryRun.

(** Witness: a = 0.1, rInner = 1, rOuter = 3, h_band = 0.1 on a kernel
    nobody has touched. *)
Lemma arcs_are_centred_on_the_first_point_witness :
  exists evs,
    calls (snd (Transfinite_Disk gmsh_present f0_1 1%float 3%float f0_1
                  f0_5 4 "InnerMaterial" "OuterMaterial" "Interface"
                  "Outer" fresh))
    = calls (@fresh float) ++ startup_calls (@fresh float) ++ evs
    /\ (evs = []
        \/ exists rest,
             evs = AddPoint (of_int 0) (of_int 0) (of_int 0)
                     (meshSizeAt f0_1 1%float f0_1 f0_5 (of_int 0)
                        (of_int 0)) (max_point (@fresh float) + 1) :: rest
             /\ Forall (centred_on (max_point (@fresh float) + 1)) rest).
Proof.
  apply (arcs_are_centred_on_the_first_point gmsh_present
           f0_1 1%float 3%float f0_1 f0_5 4
           "InnerMaterial" "OuterMaterial" "Interface" "Outer" fresh fresh).
  reflexivity.
Defined.

(* ------------------------------------------------------------------ *)
(** ** Loops and surfaces *)
(* ------------------------------------------------------------------ *)

Section Chains.
Context {F : Type}.

Lemma loop_tags_app (l1 l2 : list (call F)) :
  loop_tags (l1 ++ l2) = loop_tags l1 ++ loop_tags l2.
Proof.
  induction l1 as [| c l1 IH]; [reflexivity |].
  destruct c; cbn; now rewrite ?IH.
Qed.

Lemma surface_wires_app (l1 l2 : list (call F)) :
  surface_wires (l1 ++ l2) = surface_wires l1 ++ surface_wires l2.
Proof.
  induction l1 as [| c l1 IH]; [reflexivity |].
  destruct c; cbn; now rewrite ?IH.
Qed.

Lemma curve_ends_ext (evs evs' : list (call F)) t :
  filter (creates_curve (Z.abs t)) evs = filter (creates_curve (Z.abs t)) evs'
  -> curve_ends evs t = curve_ends evs' t.
Proof. intros E. unfold curve_ends. now rewrite E. Qed.

Lemma chained_ext (evs evs' : list (call F)) curves :
  (forall t, In t curves -> curve_ends evs t = curve_ends evs' t) ->
  forall start, chained evs start curves = chained evs' start curves.
Proof.
  induction curves as [| t rest IH]; intros He start; [reflexivity |].
  cbn [chained]. rewrite (He t) by now left.
  destruct (curve_ends evs' t) as [[p q] |]; [| reflexivity].
  destruct (p =? start); [| reflexivity].
  apply IH. intros u Hu. apply He. now right.
Qed.

(** Whether a list of curves is a closed chain depends on the call list
    only through the calls that created those curves. *)
Lemma closed_chain_ext (evs evs' : list (call F)) curves :
  (forall t, In t curves ->
     filter (creates_curve (Z.abs t)) evs
     = filter (creates_curve (Z.abs t)) evs') ->
  closed_chain evs curves = closed_chain evs' curves.
Proof.
  intros He.
  assert (Hc : forall t, In t curves ->
                 curve_ends evs t = curve_ends evs' t).
  { intros t Ht. apply curve_ends_ext, He, Ht. }
  destruct curves as [| t rest]; [reflexivity |].
  unfold closed_chain. rewrite (Hc t) by now left.
  destruct (curve_ends evs' t) as [[p q] |]; [| reflexivity].
  now rewrite (chained_ext evs evs' (t :: rest) Hc).
Qed.

Lemma filter_curves (u : Z) (l : list (call F)) :
  filter (creates_curve u) (filter is_curve l) = filter (creates_curve u) l.
Proof.
  induction l as [| c l IH]; [reflexivity |].
  destruct c; cbn; rewrite ?IH; reflexivity.
Qed.

(** Only the creations of curves matter to a chain. *)
Lemma closed_chain_curves (evs : list (call F)) curves :
  closed_chain evs curves = closed_chain (filter is_curve evs) curves.
Proof.
  apply closed_chain_ext. intros t _. now rewrite filter_curves.
Qed.

Lemma filter_only_0 {A} (p : A -> bool) l0 l1 l2 l3 :
  filter p l1 = [] -> filter p l2 = [] -> filter p l3 = [] ->
  filter p (l0 ++ l1 ++ l2 ++ l3) = filter p l0.
Proof.
  intros E1 E2 E3. now rewrite !filter_app, E1, E2, E3, !app_nil_r.
Qed.

Lemma filter_only_1 {A} (p : A -> bool) l0 l1 l2 l3 :
  filter p l0 = [] -> filter p l2 = [] -> filter p l3 = [] ->
  filter p (l0 ++ l1 ++ l2 ++ l3) = filter p l1.
Proof.
  intros E0 E2 E3. now rewrite !filter_app, E0, E2, E3, !app_nil_r.
Qed.

Lemma filter_only_2 {A} (p : A -> bool) l0 l1 l2 l3 :
  filter p l0 = [] -> filter p l1 = [] -> filter p l3 = [] ->
  filter p (l0 ++ l1 ++ l2 ++ l3) = filter p l2.
Proof.
  intros E0 E1 E3. now rewrite !filter_app, E0, E1, E3, !app_nil_r.
Qed.

Lemma filter_only_3 {A} (p : A -> bool) l0 l1 l2 l3 :
  filter p l0 = [] -> filter p l1 = [] -> filter p l2 = [] ->
  filter p (l0 ++ l1 ++ l2 ++ l3) = filter p l3.
Proof. intros E0 E1 E2. now rewrite !filter_app, E0, E1, E2. Qed.

Lemma curve_ends_skip (c : call F) evs t :
  creates_curve (Z.abs t) c = false ->
  curve_ends (c :: evs) t = curve_ends evs t.
Proof. intros E. unfold curve_ends. cbn [filter]. now rewrite E. Qed.

Lemma curve_ends_line p0 p1 u (evs : list (call F)) t :
  Z.abs t = u ->
  curve_ends (AddLine p0 p1 u :: evs) t
  = Some (if 0 <? t then (p0, p1) else (p1, p0)).
Proof.
  intros E. unfold curve_ends. cbn [filter creates_curve].
  now rewrite E, Z.eqb_refl.
Qed.

Lemma curve_ends_arc ps pc pe u (evs : list (call F)) t :
  Z.abs t = u ->
  curve_ends (AddCircleArc ps pc pe u :: evs) t
  = Some (if 0 <? t then (ps, pe) else (pe, ps)).
Proof.
  intros E. unfold curve_ends. cbn [filter creates_curve].
  now rewrite E, Z.eqb_refl.
Qed.

Lemma closed_chain_3 (evs : list (call F)) t1 t2 t3 p1 p2 p3 :
  curve_ends evs t1 = Some (p1, p2) ->
  curve_ends evs t2 = Some (p2, p3) ->
  curve_ends evs t3 = Some (p3, p1) ->
  closed_chain evs [t1; t2; t3] = true.
Proof.
  intros E1 E2 E3. unfold closed_chain. cbn [chained].
  now rewrite E1, Z.eqb_refl, E2, Z.eqb_refl, E3, !Z.eqb_refl.
Qed.

Lemma closed_chain_4 (evs : list (call F)) t1 t2 t3 t4 p1 p2 p3 p4 :
  curve_ends evs t1 = Some (p1, p2) ->
  curve_ends evs t2 = Some (p2, p3) ->
  curve_ends evs t3 = Some (p3, p4) ->
  curve_ends evs t4 = Some (p4, p1) ->
  closed_chain evs [t1; t2; t3; t4] = true.
Proof.
  intros E1 E2 E3 E4. unfold closed_chain. cbn [chained].
  now rewrite E1, Z.eqb_refl, E2, Z.eqb_refl, E3, Z.eqb_refl, E4,
    !Z.eqb_refl.
Qed.

End Chains.

(** Settles the sign tests left in a goal by arithmetic. *)
Ltac decide_ltb :=
  repeat match goal with
  | |- context [Z.ltb ?x ?y] =>
      first [ replace (Z.ltb x y) with true
                by (symmetry; apply Z.ltb_lt; lia)
            | replace (Z.ltb x y) with false
                by (symmetry; apply Z.ltb_ge; lia) ]
  end.

(** Looks a signed curve up in an explicit list of curve creations. *)
Ltac find_curve :=
  repeat (rewrite curve_ends_skip
            by (cbn [creates_curve]; apply Z.eqb_neq; lia));
  first [rewrite curve_ends_line by lia | rewrite curve_ends_arc by lia];
  decide_ltb; reflexivity.

Section SectorLoops.
Context {F : Type} `{PyFloat F}.
Variables a rInner rOuter h_band h_outer : F.
Variables ndr nda p_center : Z.

Local Notation "'calls_at'" :=
  (sector_calls a rInner rOuter h_band h_outer ndr nda p_center).
Local Notation "'bulk'" := (flt (fadd a rInner) rOuter).

Hypothesis Hnd : fgt (fsub rInner a) (of_int 0) = true.

Ltac open_calls :=
  unfold sector_calls, sector, bind; rewrite Hnd;
  destruct bulk; cbn -[Z.add Z.opp].

Lemma sector_loop_tags mp mc ml ms i fr :
  loop_tags (calls_at mp mc ml ms i fr)
  = [ml + 1; ml + 2; ml + 3] ++ (if bulk then [ml + 4] else []).
Proof. open_calls; list_arith. Qed.

Lemma sector_surface_wires mp mc ml ms i fr :
  surface_wires (calls_at mp mc ml ms i fr)
  = [[ml + 1]; [ml + 2]; [ml + 3]] ++ (if bulk then [[ml + 4]] else []).
Proof.
  open_calls;
    repeat (apply f_equal2; [apply f_equal2; [lia | reflexivity] |]);
    reflexivity.
Qed.

(** The loops of a sector, in order: the inner band, the inner bulk, the
    outer band and, when there is one, the outer bulk. *)
Lemma sector_loops mp mc ml ms i fr :
  filter is_loop (calls_at mp mc ml ms i fr)
  = [AddCurveLoop [mc + 1; mc + 2; mc + 3; mc + 4] (ml + 1);
     AddCurveLoop [mc + 5; - (mc + 4); mc + 6] (ml + 2);
     AddCurveLoop [mc + 7; mc + 8; mc + 9; - (mc + 2)] (ml + 3)]
    ++ (if bulk
        then [AddCurveLoop [mc + 10; mc + 11; mc + 12; - (mc + 8)] (ml + 4)]
        else []).
Proof.
  open_calls.
  all: repeat (apply f_equal2;
               [apply f_equal2; [| lia];
                repeat (apply f_equal2; [lia |]); reflexivity |]);
    reflexivity.
Qed.

(** The curves of a sector, in order: the four of the inner band, the
    two rays of the inner bulk, the three of the outer band and, when
    there is one, the three of the outer bulk. *)
Lemma sector_curves mp mc ml ms i fr :
  filter is_curve (calls_at mp mc ml ms i fr)
  = [AddLine (mp + 1) (mp + 3) (mc + 1);
     AddCircleArc (mp + 3) p_center (mp + 4) (mc + 2);
     AddLine (mp + 4) (mp + 2) (mc + 3);
     AddCircleArc (mp + 2) p_center (mp + 1) (mc + 4);
     AddLine p_center (mp + 1) (mc + 5);
     AddLine (mp + 2) p_center (mc + 6);
     AddLine (mp + 3) (mp + 5) (mc + 7);
     AddCircleArc (mp + 5) p_center (mp + 6) (mc + 8);
     AddLine (mp + 6) (mp + 4) (mc + 9)]
    ++ (if bulk
        then [AddLine (mp + 5) (mp + 7) (mc + 10);
              AddCircleArc (mp + 7) p_center (mp + 8) (mc + 11);
              AddLine (mp + 8) (mp + 6) (mc + 12)]
        else []).
Proof.
  open_calls.
  all: repeat (apply f_equal2;
               [first [ apply f_equal3; lia
                      | apply f_equal4; first [lia | reflexivity] ] |]);
    reflexivity.
Qed.

Lemma sector_loops_closed mp mc ml ms i fr curves l :
  0 <= mc ->
  In (AddCurveLoop curves l) (calls_at mp mc ml ms i fr) ->
  closed_chain (calls_at mp mc ml ms i fr) curves = true
  /\ forall t, In t curves ->
       mc < Z.abs t <= mc + curves_per_sector bulk.
Proof.
  intros Hmc Hin.
  assert (Hl : In (AddCurveLoop curves l)
                  (filter is_loop (calls_at mp mc ml ms i fr))).
  { apply filter_In. split; [exact Hin | reflexivity]. }
  clear Hin. rewrite sector_loops in Hl.
  rewrite closed_chain_curves, sector_curves.
  destruct bulk; cbn [app In] in Hl;
    repeat (destruct Hl as [Hl | Hl]; [injection Hl as <- _ |]);
    try contradiction.
  all: split; [| cbn [In curves_per_sector]; intros t Ht; lia].
  all: first [eapply closed_chain_4 | eapply closed_chain_3];
    cbn [app]; find_curve.
Qed.

End SectorLoops.

Section LoopOutcomes.
Context {F : Type} `{PyFloat F}.
Variable ensure_gmsh_available : M F unit.
Variables a rInner rOuter h_band h_outer : F.
Variable n_sectors : Z.
Variables InnerMaterialName OuterMaterialName : string.
Variables InterfaceName OuterBoundaryName : string.
Variables c1 c2 : Z.
Variables k k1 : gmsh F.

Hypothesis He : ensure_gmsh_available k = (Ok tt, k1).
Hypothesis Hv1 : flt (fsub rInner a) (of_int 0) = false.
Hypothesis Hv2 : fgt (fadd rInner a) rOuter = false.
Hypothesis Hh : feq h_band (of_int 0) = false.
Hypothesis Hc1 : ceil_int (fdiv (fmul (of_int 2) a) h_band) = Some c1.
Hypothesis Hc2 : ceil_int (fdiv (fmul lit_half math_pi) h_band) = Some c2.
Hypothesis Hnd : fgt (fsub rInner a) (of_int 0) = true.

Local Notation "'bulk'" := (flt (fadd a rInner) rOuter).
Local Notation "'run'" :=
  (Transfinite_Disk ensure_gmsh_available a rInner rOuter h_band h_outer
     n_sectors InnerMaterialName OuterMaterialName InterfaceName
     OuterBoundaryName k).

#[local] Opaque sector_calls.

Lemma startup_calls_are_lifecycle (c : call F) (k0 : gmsh F) :
  In c (startup_calls k0) -> is_lifecycle c = true.
Proof.
  intros Hin. pose proof (startup_calls_lifecycle k0) as Hl.
  rewrite forallb_forall in Hl. now apply Hl.
Qed.

(** One sector's loop within the whole run: the curves it lists are
    that sector's, so the other calls of the run do not matter. *)
Ltac loop_in_sector Hin Hcurve pc mpj mcj mlj msj j fj only :=
  let Hcl := fresh "Hcl" in
  let Hrange := fresh "Hrange" in
  let t := fresh "t" in
  let Ht := fresh "Ht" in
  match type of Hin with
  | In (AddCurveLoop ?curves ?l) _ =>
      destruct (sector_loops_closed a rInner rOuter h_band h_outer
                  (Z.max 4 c1) (Z.max 4 c2) pc Hnd
                  mpj mcj mlj msj j fj curves l ltac:(tag_arith) Hin)
        as [Hcl Hrange];
      transitivity
        (closed_chain
           (sector_calls a rInner rOuter h_band h_outer
              (Z.max 4 c1) (Z.max 4 c2) pc mpj mcj mlj msj j fj) curves);
      [| exact Hcl];
      apply closed_chain_ext; intros t Ht; specialize (Hrange t Ht);
      rewrite Hcurve, filter_app;
      cbn [filter creates_curve]; rewrite app_nil_r;
      apply only;
      apply (sector_creates_elsewhere a rInner rOuter h_band h_outer
               (Z.max 4 c1) (Z.max 4 c2) pc Hnd);
      tag_arith
  end.

(** Lines 93-141: on a disk with [rInner - a > 0] that passes the
    checks, every curve loop of the run is a closed chain of curves that
    the run has created: each curve of the loop starts at the point where
    the one before it ended, a curve listed with a negative sign being
    run through backwards, and the last curve ends where the first began.
    That holds for the loops that reuse an arc of a neighbouring patch
    with reversed sign, too. *)
Theorem every_loop_is_a_closed_chain :
  0 <= max_curve k1 ->
  exists k2 evs,
    run = (Ok tt, k2)
    /\ calls k2 = calls k1 ++ evs
    /\ count is_loop evs = (if bulk then 16 else 12)%nat
    /\ forall curves l,
         In (AddCurveLoop curves l) evs -> closed_chain evs curves = true.
Proof.
  intros Hmc.
  destruct (successful_run ensure_gmsh_available a rInner rOuter h_band
              h_outer n_sectors InnerMaterialName OuterMaterialName
              InterfaceName OuterBoundaryName c1 c2 k k1 He Hv1 Hv2 Hh Hc1
              Hc2 Hnd)
    as (f0 & f1 & f2 & f3 & inner & outer & center & E & _ & _ & C).
  cbv zeta in E.
  pose proof (curves_per_sector_bounds bulk) as Hnc.
  set (nc := curves_per_sector bulk) in *.
  set (np := patches_per_sector bulk) in *.
  set (mp := max_point k1 + 1) in *.
  set (mc := max_curve k1) in *.
  set (ml := max_loop k1) in *.
  set (ms := max_surface k1) in *.
  eexists. eexists. split; [exact E |]. split; [reflexivity |]. split.
  { rewrite !count_app.
    rewrite !(sector_loops_count a rInner rOuter h_band h_outer
                (Z.max 4 c1) (Z.max 4 c2) mp Hnd).
    rewrite C. unfold count.
    rewrite startup_calls_filter by (intros c; now destruct c).
    cbn [filter List.length app is_loop]. now destruct bulk. }
  intros curves l Hin.
  assert (Hcurve : forall u rest,
            filter (creates_curve u) (startup_calls k1 ++ [center] ++ rest)
            = filter (creates_curve u) rest).
  { intros u rest. rewrite filter_app.
    rewrite (startup_calls_filter _ k1 (lifecycle_not_curve u)).
    rewrite C. reflexivity. }
  rewrite !in_app_iff in Hin.
  destruct Hin as [Hin | [Hin | [[Hin | [Hin | [Hin | Hin]]] | Hin]]].
  - apply startup_calls_are_lifecycle in Hin. discriminate Hin.
  - rewrite C in Hin. destruct Hin as [Hin | []]. discriminate Hin.
  - loop_in_sector Hin Hcurve mp mp mc ml ms 0 f0 @filter_only_0.
  - loop_in_sector Hin Hcurve mp (mp + 8) (mc + nc) (ml + np) (ms + np) 1 f1
      @filter_only_1.
  - loop_in_sector Hin Hcurve mp (mp + 8 + 8) (mc + nc + nc) (ml + np + np)
      (ms + np + np) 2 f2 @filter_only_2.
  - loop_in_sector Hin Hcurve mp (mp + 8 + 8 + 8) (mc + nc + nc + nc)
      (ml + np + np + np) (ms + np + np + np) 3 f3 @filter_only_3.
  - cbn [In] in Hin.
    repeat (destruct Hin as [Hin | Hin]; [discriminate Hin |]).
    destruct Hin.
Qed.

(** Lines 100-101, 104-111, 131-132 and 141-142: in the same runs every
    curve loop bounds exactly one plane surface and every plane surface is
    bounded by exactly one loop, the loop created just before it: the
    surfaces, in order of creation, are bounded by the loops in order of
    creation, whose tags are all different. *)
Theorem each_loop_bounds_one_surface :
  exists k2 evs,
    run = (Ok tt, k2)
    /\ calls k2 = calls k1 ++ evs
    /\ surface_wires evs = map (fun t => [t]) (loop_tags evs)
    /\ NoDup (loop_tags evs).
Proof.
  destruct (successful_run ensure_gmsh_available a rInner rOuter h_band
              h_outer n_sectors InnerMaterialName OuterMaterialName
              InterfaceName OuterBoundaryName c1 c2 k k1 He Hv1 Hv2 Hh Hc1
              Hc2 Hnd)
    as (f0 & f1 & f2 & f3 & inner & outer & center & E & _ & _ & C).
  cbv zeta in E.
  eexists. eexists. split; [exact E |]. split; [reflexivity |].
  assert (Hw : forall c : call F,
            is_lifecycle c = true -> surface_wires [c] = []).
  { intros c; now destruct c. }
  assert (Hl : forall c : call F,
            is_lifecycle c = true -> loop_tags [c] = []).
  { intros c; now destruct c. }
  rewrite !surface_wires_app, !loop_tags_app.
  rewrite (startup_calls_view surface_wires k1 surface_wires_app Hw).
  rewrite (startup_calls_view loop_tags k1 loop_tags_app Hl).
  rewrite !(sector_surface_wires a rInner rOuter h_band h_outer
              (Z.max 4 c1) (Z.max 4 c2) (max_point k1 + 1) Hnd).
  rewrite !(sector_loop_tags a rInner rOuter h_band h_outer
              (Z.max 4 c1) (Z.max 4 c2) (max_point k1 + 1) Hnd).
  rewrite C. clear E C.
  generalize (max_loop k1). intros ml.
  destruct bulk; cbn [surface_wires loop_tags app map patches_per_sector].
  all: split; [reflexivity |].
  all: repeat (constructor; [cbn [In]; lia |]); constructor.
Qed.

End LoopOutcomes.

(** Witness: a = 0.1, rInner = 1, rOuter = 3, h_band = 0.1 on a kernel
    nobody has touched. *)
Lemma every_loop_is_a_closed_chain_witness :
  exists k2 evs,
    Transfinite_Disk gmsh_present f0_1 1%float 3%float f0_1 f0_5 4
      "InnerMaterial" "OuterMaterial" "Interface" "Outer" fresh
    = (Ok tt, k2)
    /\ calls k2 = calls (@fresh float) ++ evs
    /\ count is_loop evs
       = (if flt (fadd f0_1 1%float) 3%float then 16 else 12)%nat
    /\ forall curves l,
         In (AddCurveLoop curves l) evs -> closed_chain evs curves = true.
Proof.
  apply (every_loop_is_a_closed_chain gmsh_present
           f0_1 1%float 3%float f0_1 f0_5 4
           "InnerMaterial" "OuterMaterial" "Interface" "Outer"
           2 16 fresh fresh).
  - reflexivity.
  - vm_compute. reflexivity.
  - vm_compute. reflexivity.
  - vm_compute. reflexivity.
  - vm_compute. reflexivity.
  - vm_compute. reflexivity.
  - vm_compute. reflexivity.
  - cbn. lia.
Defined.

(** Witness: the same disk. *)
Lemma each_loop_bounds_one_surface_witness :
  exists k2 evs,
    Transfinite_Disk gmsh_present f0_1 1%float 3%float f0_1 f0_5 4
      "InnerMaterial" "OuterMaterial" "Interface" "Outer" fresh
    = (Ok tt, k2)
    /\ calls k2 = calls (@fresh float) ++ evs
    /\ surface_wires evs = map (fun t => [t]) (loop_tags evs)
    /\ NoDup (loop_tags evs).
Proof.
  apply (each_loop_bounds_one_surface gmsh_present
           f0_1 1%float 3%float f0_1 f0_5 4
           "InnerMaterial" "OuterMaterial" "Interface" "Outer"
           2 16 fresh fresh).
  - reflexivity.
  - vm_compute. reflexivity.
  - vm_compute. reflexivity.
  - vm_compute. reflexivity.
  - vm_compute. reflexivity.
  - vm_compute. reflexivity.
  - vm_compute. reflexivity.
Defined.

(* ------------------------------------------------------------------ *)
(** ** What the structured requests list *)
(* ------------------------------------------------------------------ *)

Section Kinds.
Context {F : Type}.

Lemma curve_call_skip (c : call F) evs t :
  creates_curve (Z.abs t) c = false ->
  curve_call (c :: evs) t = curve_call evs t.
Proof. intros E. unfold curve_call. cbn [filter]. now rewrite E. Qed.

Lemma curve_call_hit (c : call F) evs t :
  creates_curve (Z.abs t) c = true -> curve_call (c :: evs) t = Some c.
Proof. intros E. unfold curve_call. cbn [filter]. now rewrite E. Qed.

Lemma curve_call_ext (evs evs' : list (call F)) t :
  filter (creates_curve (Z.abs t)) evs = filter (creates_curve (Z.abs t)) evs'
  -> curve_call evs t = curve_call evs' t.
Proof. intros E. unfold curve_call. now rewrite E. Qed.

Lemma kinds_ext (evs evs' : list (call F)) l :
  (forall t, In t l ->
     filter (creates_curve (Z.abs t)) evs
     = filter (creates_curve (Z.abs t)) evs') ->
  forallb (is_line_in evs) l = forallb (is_line_in evs') l
  /\ forallb (is_arc_in evs) l = forallb (is_arc_in evs') l.
Proof.
  induction l as [| t l IH]; intros He; [split; reflexivity |].
  destruct IH as [IH1 IH2]; [intros u Hu; apply He; now right |].
  cbn [forallb]. unfold is_line_in at 1 3, is_arc_in at 1 3.
  rewrite (curve_call_ext evs evs' t) by (apply He; now left).
  now rewrite IH1, IH2.
Qed.

End Kinds.

(** Looks the creation of a signed curve up in an explicit list. *)
Ltac find_call :=
  repeat first
    [ rewrite curve_call_skip
        by (cbn [creates_curve]; apply Z.eqb_neq; lia)
    | rewrite curve_call_hit
        by (cbn [creates_curve]; apply Z.eqb_eq; lia) ].

Section SectorRequests.
Context {F : Type} `{PyFloat F}.
Variables a rInner rOuter h_band h_outer : F.
Variables ndr nda p_center : Z.

Local Notation "'calls_at'" :=
  (sector_calls a rInner rOuter h_band h_outer ndr nda p_center).
Local Notation "'bulk'" := (flt (fadd a rInner) rOuter).

Hypothesis Hnd : fgt (fsub rInner a) (of_int 0) = true.

(** The one request of a sector: the four rays of the two bands, and
    the interface arc, the inner arc, the outer arc and the interface
    arc once more, reversed. *)
Lemma sector_request_lists mp mc ml ms i fr :
  filter is_request (calls_at mp mc ml ms i fr)
  = [SetTransfinite [mc + 1; mc + 3; mc + 7; mc + 9]
       [mc + 2; mc + 4; mc + 8; - (mc + 2)]
       [(ms + 1, "Right"); (ms + 3, "Left")] ndr nda None].
Proof.
  assert (G : forall rad rad' circ circ' (surfs surfs' : list (Z * string)),
            rad = rad' -> circ = circ' -> surfs = surfs' ->
            [@SetTransfinite F rad circ surfs ndr nda None]
            = [SetTransfinite rad' circ' surfs' ndr nda None])
    by (intros; congruence).
  unfold sector_calls, sector, bind. rewrite Hnd.
  destruct bulk; cbn -[Z.add Z.opp]; apply G.
  all: try list_arith.
  all: apply f_equal2;
    [apply f_equal2; [lia | reflexivity] |];
    apply f_equal2; [apply f_equal2; [lia | reflexivity] | reflexivity].
Qed.

Lemma sector_request_sorted mp mc ml ms i fr rad circ surfs nr nc b :
  0 <= mc ->
  In (SetTransfinite rad circ surfs nr nc b) (calls_at mp mc ml ms i fr) ->
  (forallb (is_line_in (calls_at mp mc ml ms i fr)) rad = true
   /\ forallb (is_arc_in (calls_at mp mc ml ms i fr)) circ = true)
  /\ (forall t, In t (rad ++ circ) ->
        mc < Z.abs t <= mc + curves_per_sector bulk)
  /\ (exists t t2 t3 si so,
        circ = [t; t2; t3; - t] /\ 0 < t
        /\ surfs = [(si, "Right"); (so, "Left")]
        /\ List.length rad = 4%nat).
Proof.
  intros Hmc Hin.
  assert (Hl : In (SetTransfinite rad circ surfs nr nc b)
                  (filter is_request (calls_at mp mc ml ms i fr))).
  { apply filter_In. split; [exact Hin | reflexivity]. }
  clear Hin. rewrite sector_request_lists in Hl.
  destruct Hl as [Hl | []]. injection Hl as <- <- <- _ _ _.
  split; [| split].
  - destruct (kinds_ext (calls_at mp mc ml ms i fr)
                (filter is_curve (calls_at mp mc ml ms i fr))
                [mc + 1; mc + 3; mc + 7; mc + 9]) as [-> _].
    { intros t _. now rewrite filter_curves. }
    destruct (kinds_ext (calls_at mp mc ml ms i fr)
                (filter is_curve (calls_at mp mc ml ms i fr))
                [mc + 2; mc + 4; mc + 8; - (mc + 2)]) as [_ ->].
    { intros t _. now rewrite filter_curves. }
    rewrite sector_curves by exact Hnd.
    destruct bulk; cbn [app forallb]; unfold is_line_in, is_arc_in;
      find_call; split; reflexivity.
  - cbn [In app]. pose proof (curves_per_sector_bounds bulk).
    intros t Ht. lia.
  - exists (mc + 2), (mc + 4), (mc + 8), (ms + 1), (ms + 3).
    repeat split. lia.
Qed.

End SectorRequests.

Section RequestOutcomes.
Context {F : Type} `{PyFloat F}.
Variable ensure_gmsh_available : M F unit.
Variables a rInner rOuter h_band h_outer : F.
Variable n_sectors : Z.
Variables InnerMaterialName OuterMaterialName : string.
Variables InterfaceName OuterBoundaryName : string.
Variables c1 c2 : Z.
Variables k k1 : gmsh F.

Hypothesis He : ensure_gmsh_available k = (Ok tt, k1).
Hypothesis Hv1 : flt (fsub rInner a) (of_int 0) = false.
Hypothesis Hv2 : fgt (fadd rInner a) rOuter = false.
Hypothesis Hh : feq h_band (of_int 0) = false.
Hypothesis Hc1 : ceil_int (fdiv (fmul (of_int 2) a) h_band) = Some c1.
Hypothesis Hc2 : ceil_int (fdiv (fmul lit_half math_pi) h_band) = Some c2.
Hypothesis Hnd : fgt (fsub rInner a) (of_int 0) = true.

Local Notation "'bulk'" := (flt (fadd a rInner) rOuter).
Local Notation "'run'" :=
  (Transfinite_Disk ensure_gmsh_available a rInner rOuter h_band h_outer
     n_sectors InnerMaterialName OuterMaterialName InterfaceName
     OuterBoundaryName k).

#[local] Opaque sector_calls.

(** One sector's request within the whole run. *)
Ltac request_in_sector Hin Hcurve pc mpj mcj mlj msj j fj only :=
  let Hrange := fresh "Hrange" in
  let Hshape := fresh "Hshape" in
  let Hr := fresh "Hr" in
  let Hc := fresh "Hc" in
  let Hf := fresh "Hf" in
  match type of Hin with
  | In (SetTransfinite ?rad ?circ ?surfs ?nr ?nc ?b) _ =>
      destruct (sector_request_sorted a rInner rOuter h_band h_outer
                  (Z.max 4 c1) (Z.max 4 c2) pc Hnd
                  mpj mcj mlj msj j fj rad circ surfs nr nc b
                  ltac:(tag_arith) Hin)
        as ([Hr Hc] & Hrange & Hshape);
      split; [| exact Hshape];
      match goal with
      | |- forallb (is_line_in ?evs) _ = true /\ _ =>
          assert (Hf : forall t, In t (rad ++ circ) ->
                    filter (creates_curve (Z.abs t)) evs
                    = filter (creates_curve (Z.abs t))
                        (sector_calls a rInner rOuter h_band h_outer
                           (Z.max 4 c1) (Z.max 4 c2) pc
                           mpj mcj mlj msj j fj));
          [ let t := fresh "t" in
            let Ht := fresh "Ht" in
            intros t Ht; specialize (Hrange t Ht);
            rewrite Hcurve, filter_app;
            cbn [filter creates_curve]; rewrite app_nil_r;
            apply only;
            apply (sector_creates_elsewhere a rInner rOuter h_band h_outer
                     (Z.max 4 c1) (Z.max 4 c2) pc Hnd);
            tag_arith
          | split;
            [ rewrite (proj1 (kinds_ext evs _ rad
                        (fun t Ht => Hf t (in_or_app _ _ _ (or_introl Ht)))));
              exact Hr
            | rewrite (proj2 (kinds_ext evs _ circ
                        (fun t Ht => Hf t (in_or_app _ _ _ (or_intror Ht)))));
              exact Hc ] ]
      end
  end.

(** Lines 144-150: on a disk with [rInner - a > 0] that passes the
    checks, every structured request of the run lists four radial
    curves, each of them a straight line that the run has created, and
    four circular curves, each of them a circle arc that the run has
    created; the fourth circular entry is the first one again, the
    interface arc, with reversed sign.  The request names two surfaces,
    the first with "Right" and the second with "Left". *)
Theorem requests_list_lines_and_arcs :
  0 <= max_curve k1 ->
  exists k2 evs,
    run = (Ok tt, k2)
    /\ calls k2 = calls k1 ++ evs
    /\ forall rad circ surfs nr nc b,
         In (SetTransfinite rad circ surfs nr nc b) evs ->
         (forallb (is_line_in evs) rad = true
          /\ forallb (is_arc_in evs) circ = true)
         /\ exists t t2 t3 si so,
              circ = [t; t2; t3; - t] /\ 0 < t
              /\ surfs = [(si, "Right"); (so, "Left")]
              /\ List.length rad = 4%nat.
Proof.
  intros Hmc.
  destruct (successful_run ensure_gmsh_available a rInner rOuter h_band
              h_outer n_sectors InnerMaterialName OuterMaterialName
              InterfaceName OuterBoundaryName c1 c2 k k1 He Hv1 Hv2 Hh Hc1
              Hc2 Hnd)
    as (f0 & f1 & f2 & f3 & inner & outer & center & E & _ & _ & C).
  cbv zeta in E.
  pose proof (curves_per_sector_bounds bulk) as Hnc.
  set (nc := curves_per_sector bulk) in *.
  set (np := patches_per_sector bulk) in *.
  set (mp := max_point k1 + 1) in *.
  set (mc := max_curve k1) in *.
  set (ml := max_loop k1) in *.
  set (ms := max_surface k1) in *.
  eexists. eexists. split; [exact E |]. split; [reflexivity |].
  intros rad circ surfs nr nc' b Hin.
  assert (Hcurve : forall u rest,
            filter (creates_curve u) (startup_calls k1 ++ [center] ++ rest)
            = filter (creates_curve u) rest).
  { intros u rest. rewrite filter_app.
    rewrite (startup_calls_filter _ k1 (lifecycle_not_curve u)).
    rewrite C. reflexivity. }
  rewrite !in_app_iff in Hin.
  destruct Hin as [Hin | [Hin | [[Hin | [Hin | [Hin | Hin]]] | Hin]]].
  - apply startup_calls_are_lifecycle in Hin. discriminate Hin.
  - rewrite C in Hin. destruct Hin as [Hin | []]. discriminate Hin.
  - request_in_sector Hin Hcurve mp mp mc ml ms 0 f0 @filter_only_0.
  - request_in_sector Hin Hcurve mp (mp + 8) (mc + nc) (ml + np) (ms + np)
      1 f1 @filter_only_1.
  - request_in_sector Hin Hcurve mp (mp + 8 + 8) (mc + nc + nc)
      (ml + np + np) (ms + np + np) 2 f2 @filter_only_2.
  - request_in_sector Hin Hcurve mp (mp + 8 + 8 + 8) (mc + nc + nc + nc)
      (ml + np + np + np) (ms + np + np + np) 3 f3 @filter_only_3.
  - cbn [In] in Hin.
    repeat (destruct Hin as [Hin | Hin]; [discriminate Hin |]).
    destruct Hin.
Qed.

End RequestOutcomes.

(** Witness: a = 0.1, rInner = 1, rOuter = 3, h_band = 0.1 on a kernel
    nobody has touched. *)
Lemma requests_list_lines_and_arcs_witness :
  exists k2 evs,
    Transfinite_Disk gmsh_present f0_1 1%float 3%float f0_1 f0_5 4
      "InnerMaterial" "OuterMaterial" "Interface" "Outer" fresh
    = (Ok tt, k2)
    /\ calls k2 = calls (@fresh float) ++ evs
    /\ forall rad circ surfs nr nc b,
         In (SetTransfinite rad circ surfs nr nc b) evs ->
         (forallb (is_line_in evs) rad = true
          /\ forallb (is_arc_in evs) circ = true)
         /\ exists t t2 t3 si so,
              circ = [t; t2; t3; - t] /\ 0 < t
              /\ surfs = [(si, "Right"); (so, "Left")]
              /\ List.length rad = 4%nat.
Proof.
  apply (requests_list_lines_and_arcs gmsh_present
           f0_1 1%float 3%float f0_1 f0_5 4
           "InnerMaterial" "OuterMaterial" "Interface" "Outer"
           2 16 fresh fresh).
  - reflexivity.
  - vm_compute. reflexivity.
  - vm_compute. reflexivity.
  - vm_compute. reflexivity.
  - vm_compute. reflexivity.
  - vm_compute. reflexivity.
  - vm_compute. reflexivity.
  - cbn. lia.
Defined.

End DiskRuns.
